(** * Shor order finding in Qiskit: circuit builders and classical driver

    A shallow embedding of [shor_quantum_rings.ipynb].  The notebook builds
    reversible arithmetic circuits out of library gates and drives repeated
    order-finding trials.  The circuit builders are embedded as functions
    into an error type (a builder either returns a circuit or raises), the
    classical gates are given their action on computational basis states,
    and the drivers are embedded with explicit state passing over a world
    that supplies the random draws and the backend's measurement results. *)

From Stdlib Require Import ZArith List Bool Lia Ascii QArith Qabs Qreduction Qcanon.
Import ListNotations.
Open Scope Z_scope.

(** ** Results of Python calls

    [QiskitError] is raised by the simulator's result when a run has no
    shot memory, [JobError] stands for a failure of [job.result()] on a
    Quantum Rings job.  Two markers are not Python exceptions: [LoopBoundReached] marks the exhaustion of the fuel that
    bounds the loop of [limit_denominator] in the embedding, and
    [limit_denominator_ends] shows that it is never produced;
    [NeverReturns] marks a call that does not return, the polling loop of
    a job that never reaches a final status. *)

Inductive Exn : Type :=
| ValueError
| ZeroDivisionError
| OverflowError
| TypeError
| IndexError
| AssertionError
| CircuitError
| QiskitError
| JobError
| LoopBoundReached
| NeverReturns.

Inductive result (A : Type) : Type :=
| Ok (a : A)
| Raise (e : Exn).

Arguments Ok {A} a.
Arguments Raise {A} e.

Definition bind {A B : Type} (m : result A) (f : A -> result B) : result B :=
  match m with
  | Ok a => f a
  | Raise e => Raise e
  end.

Notation "x <- m ;; k" := (bind m (fun x => k))
  (at level 61, m at next level, right associativity).

Definition is_ok {A : Type} (m : result A) : bool :=
  match m with Ok _ => true | Raise _ => false end.

(** [for i, x in enumerate(l): body], threading the circuit being built. *)
Fixpoint for_enumerate {A St : Type} (body : nat -> A -> St -> result St)
  (i : nat) (l : list A) (s : St) : result St :=
  match l with
  | [] => Ok s
  | x :: rest => s' <- body i x s ;; for_enumerate body (S i) rest s'
  end.

(** [for i in range(n): body]. *)
Definition for_range {St : Type} (n : nat) (body : nat -> St -> result St) (s : St) : result St :=
  for_enumerate (fun _ i s => body i s) 0%nat (seq 0 n) s.

(** ** [format(a, f"0{n_bits}b")]

    The binary digits of [a], most significant first, padded with ['0'] on
    the left up to the width; a wider number keeps all its digits, and a
    negative number carries its sign in front of the padded digits. *)

Fixpoint pos_digits_lsb (p : positive) : list ascii :=
  match p with
  | xH => ["1"%char]
  | xO q => "0"%char :: pos_digits_lsb q
  | xI q => "1"%char :: pos_digits_lsb q
  end.

Definition zero_pad (width : nat) (digits : list ascii) : list ascii :=
  repeat "0"%char (width - length digits) ++ digits.

Definition format_b (a : Z) (width : nat) : list ascii :=
  match a with
  | Z0 => zero_pad width ["0"%char]
  | Zpos p => zero_pad width (rev (pos_digits_lsb p))
  | Zneg p => "-"%char :: zero_pad (width - 1) (rev (pos_digits_lsb p))
  end.

Definition is_char (c d : ascii) : bool := Ascii.eqb c d.

(** ** Registers, gates and circuits *)

(** A register is a contiguous block of the circuit's qubits. *)
Record QuantumRegister : Type := mkReg { reg_offset : nat; reg_size : nat }.

(** [reg[i]]: an index outside the register raises. *)
Definition reg_get (r : QuantumRegister) (i : nat) : result nat :=
  if (i <? reg_size r)%nat then Ok (reg_offset r + i)%nat else Raise IndexError.

(** [reg[:]] and [list(reg)]. *)
Definition reg_all (r : QuantumRegister) : list nat := seq (reg_offset r) (reg_size r).

#[warnings="-register-all"]
Inductive Gate : Type :=
| XGate
| HGate
| MCXGate (num_ctrl : nat)
| AdderGate (n : nat)
| AdderInverseGate (n : nat)
| Controlled (num_ctrl : nat) (g : Gate)
| SubCircuit (nq : nat) (body : list (Gate * list nat))
| QFTGate (n : nat) (inverse : bool)
| Measure (clbit : nat).

Definition Instruction : Type := (Gate * list nat)%type.

Record QuantumCircuit : Type := mkCircuit {
  num_qubits : nat;
  num_clbits : nat;
  data : list Instruction
}.

(** The ripple-carry adder is a gate of the Qiskit circuit library, not of
    the notebook.  The builders only depend on how many qubits the gate
    spans and on its action on basis states, so both are taken from a
    description of the library. *)
Record AdderLibrary : Type := mkAdderLibrary {
  adder_num_qubits : nat -> nat;
  adder_action : nat -> list bool -> list bool;
  adder_inverse_action : nat -> list bool -> list bool
}.

Section Builders.

Variable L : AdderLibrary.

Fixpoint gate_num_qubits (g : Gate) : nat :=
  match g with
  | XGate | HGate | Measure _ => 1
  | MCXGate k => S k
  | AdderGate n | AdderInverseGate n => adder_num_qubits L n
  | Controlled k g' => k + gate_num_qubits g'
  | SubCircuit nq _ => nq
  | QFTGate n _ => n
  end.

(** [CDKMRippleCarryAdder(n)]: the library refuses a width below one. *)
Definition CDKMRippleCarryAdder (n : nat) : result nat :=
  if (n <? 1)%nat then Raise ValueError else Ok n.

(** [qc.append(gate, qargs)]: the number of qubit arguments has to be the
    gate's number of qubits and every argument a qubit of the circuit. *)
Definition append (g : Gate) (qargs : list nat) (qc : QuantumCircuit) : result QuantumCircuit :=
  if negb (length qargs =? gate_num_qubits g)%nat then Raise CircuitError
  else if negb (forallb (fun q => (q <? num_qubits qc)%nat) qargs) then Raise CircuitError
  else Ok (mkCircuit (num_qubits qc) (num_clbits qc) (data qc ++ [(g, qargs)])).

(** [qc.x(q)] on one qubit. *)
Definition x (q : nat) (qc : QuantumCircuit) : result QuantumCircuit :=
  append XGate [q] qc.

(** [qc.mcx(controls, target)]. *)
Definition mcx (controls : list nat) (target : nat) (qc : QuantumCircuit) : result QuantumCircuit :=
  append (MCXGate (length controls)) (controls ++ [target]) qc.

(** [qc.to_gate()]. *)
Definition to_gate (qc : QuantumCircuit) : Gate := SubCircuit (num_qubits qc) (data qc).

(** [for i, bit in enumerate(reversed(bits)): if bit == c: qc.x(reg[i])]. *)
Definition x_where (c : ascii) (bits : list ascii) (reg : QuantumRegister)
  (qc : QuantumCircuit) : result QuantumCircuit :=
  for_enumerate
    (fun i bit qc =>
       if is_char bit c then (q <- reg_get reg i ;; x q qc) else Ok qc)
    0%nat (rev bits) qc.

(** *** [quantum_modular_addition_clean] *)

Definition quantum_modular_addition_clean (a N : Z) (n_bits : nat) : result QuantumCircuit :=
  adder <- CDKMRippleCarryAdder n_bits ;;
  let expected_qubits := adder_num_qubits L adder in
  let qc := mkCircuit expected_qubits 0 [] in
  let a_bin := format_b a n_bits in
  qc <- for_enumerate
          (fun i bit qc => if is_char bit "1"%char then x (i + n_bits)%nat qc else Ok qc)
          0%nat (rev a_bin) qc ;;
  append (AdderGate adder) (seq 0 expected_qubits) qc.

(** *** [modular_add_const_mod_N] *)

Definition modular_add_const_mod_N (a N : Z) (n_bits : nat) : result QuantumCircuit :=
  let x_reg := mkReg 0 n_bits in
  let anc := mkReg n_bits n_bits in
  let carry := mkReg (2 * n_bits) 1 in
  let flag := mkReg (2 * n_bits + 1) 1 in
  let qc := mkCircuit (n_bits + n_bits + 1 + 1) 0 [] in
  adder <- CDKMRippleCarryAdder n_bits ;;
  let a_bin := format_b a n_bits in
  qc <- x_where "1"%char a_bin anc qc ;;
  qc <- append (AdderGate adder) (reg_all x_reg ++ reg_all anc ++ reg_all carry) qc ;;
  let N_bin := format_b N n_bits in
  qc <- x_where "0"%char N_bin x_reg qc ;;
  flag0 <- reg_get flag 0 ;;
  qc <- mcx (reg_all x_reg) flag0 qc ;;
  qc <- x_where "0"%char N_bin x_reg qc ;;
  subtractor <- CDKMRippleCarryAdder n_bits ;;
  qc <- x_where "1"%char N_bin anc qc ;;
  flag0 <- reg_get flag 0 ;;
  append (Controlled 1 (AdderInverseGate subtractor))
         ([flag0] ++ reg_all x_reg ++ reg_all anc ++ reg_all carry) qc.

(** *** [controlled_multiply_const_mod_N] and [multiply_const_mod_N]

    The two functions have the same body. *)

Definition multiplier_body (a N : Z) (n_bits : nat)
  (x_reg res work flag : QuantumRegister) (i : nat) (qc : QuantumCircuit) : result QuantumCircuit :=
  if (N =? 0) then Raise ValueError else
  let a_shift := (a * (2 ^ Z.of_nat i mod N)) mod N in
  if a_shift =? 0 then Ok qc else
  add_circuit <- modular_add_const_mod_N a_shift N n_bits ;;
  let add_gate := Controlled 1 (to_gate add_circuit) in
  xi <- reg_get x_reg i ;;
  flag0 <- reg_get flag 0 ;;
  append add_gate ([xi] ++ reg_all res ++ reg_all work ++ [flag0]) qc.

Definition controlled_multiply_const_mod_N (a N : Z) (n_bits : nat) : result QuantumCircuit :=
  let x_reg := mkReg 0 n_bits in
  let res := mkReg n_bits n_bits in
  let work := mkReg (2 * n_bits) n_bits in
  let flag := mkReg (3 * n_bits) 1 in
  let qc := mkCircuit (n_bits + n_bits + n_bits + 1) 0 [] in
  for_range n_bits (multiplier_body a N n_bits x_reg res work flag) qc.

Definition multiply_const_mod_N (a N : Z) (n_bits : nat) : result QuantumCircuit :=
  let x_reg := mkReg 0 n_bits in
  let res := mkReg n_bits n_bits in
  let work := mkReg (2 * n_bits) n_bits in
  let flag := mkReg (3 * n_bits) 1 in
  let qc := mkCircuit (n_bits + n_bits + n_bits + 1) 0 [] in
  for_range n_bits (multiplier_body a N n_bits x_reg res work flag) qc.

(** *** [controlled_modular_exponentiation]

    [ceil(log2(N))] is computed in floating point by the source.  Up to
    [N = 2^48] the logarithm of a modulus that is not a power of two lies
    more than one unit in the last place above the integer below it, so
    the result is the integer ceiling of the binary logarithm, which is
    what the embedding takes; the properties that depend on the width
    assume that bound.  [log2] raises on a non-positive argument. *)

Definition ceil_log2 (N : Z) : result nat :=
  if N <=? 0 then Raise ValueError else Ok (Z.to_nat (Z.log2_up N)).

(** [pow(a, e, N)] with a non-negative exponent. *)
Definition pow_mod (a e N : Z) : result Z :=
  if N =? 0 then Raise ValueError
  else if e <? 0 then Raise ValueError
  else Ok ((a ^ e) mod N).

Definition modexp_body (a N : Z) (n_bits : nat) (counting_qr working_qr : QuantumRegister)
  (i : nat) (qc : QuantumCircuit) : result QuantumCircuit :=
  let exponent := 2 ^ Z.of_nat i in
  mult <- pow_mod a exponent N ;;
  mod_add <- quantum_modular_addition_clean mult N n_bits ;;
  let mod_gate := Controlled 1 (to_gate mod_add) in
  ci <- reg_get counting_qr i ;;
  append mod_gate ([ci] ++ reg_all working_qr) qc.

Definition controlled_modular_exponentiation_circuit (a N : Z) (n_count : nat)
  : result QuantumCircuit :=
  n_bits <- ceil_log2 N ;;
  adder <- CDKMRippleCarryAdder n_bits ;;
  let work_qubits := adder_num_qubits L adder in
  let counting_qr := mkReg 0 n_count in
  let working_qr := mkReg n_count work_qubits in
  let qc := mkCircuit (n_count + work_qubits) 0 [] in
  w0 <- reg_get working_qr 0 ;;
  qc <- x w0 qc ;;
  for_range n_count (modexp_body a N n_bits counting_qr working_qr) qc.

Definition controlled_modular_exponentiation (a N : Z) (n_count : nat) : result Gate :=
  qc <- controlled_modular_exponentiation_circuit a N n_count ;;
  Ok (to_gate qc).

(** *** [build_shors_qc] and [build_shors_qc_sampler_ready] *)

(** [qc.h(qubits)] broadcasts over the qubits; an empty argument is
    refused. *)
Definition h (qubits : list nat) (qc : QuantumCircuit) : result QuantumCircuit :=
  match qubits with
  | [] => Raise CircuitError
  | _ => for_enumerate (fun _ q qc => append HGate [q] qc) 0%nat qubits qc
  end.

(** [qc.measure(qreg, creg)] measures qubit [i] into classical bit [i]. *)
Definition measure (qubits : list nat) (clbits : list nat) (qc : QuantumCircuit)
  : result QuantumCircuit :=
  if negb (length qubits =? length clbits)%nat then Raise CircuitError else
  for_enumerate (fun _ qc' qc => append (Measure (snd qc')) [fst qc'] qc) 0%nat
    (combine qubits clbits) qc.

Definition build_shors_qc (N a : Z) (n_count : nat) : result QuantumCircuit :=
  n_bits <- ceil_log2 N ;;
  adder <- CDKMRippleCarryAdder n_bits ;;
  let work_qubits := adder_num_qubits L adder in
  let counting_qr := mkReg 0 n_count in
  let working_qr := mkReg n_count work_qubits in
  let classical_cr := mkReg 0 n_count in
  let qc := mkCircuit (n_count + work_qubits) n_count [] in
  qc <- h (reg_all counting_qr) qc ;;
  modexp_gate <- controlled_modular_exponentiation a N n_count ;;
  qc <- append modexp_gate (reg_all counting_qr ++ reg_all working_qr) qc ;;
  qc <- append (QFTGate n_count true) (reg_all counting_qr) qc ;;
  measure (reg_all counting_qr) (reg_all classical_cr) qc.

Definition build_shors_qc_sampler_ready (N a : Z) (n_count : nat) : result QuantumCircuit :=
  n_bits <- ceil_log2 N ;;
  adder <- CDKMRippleCarryAdder n_bits ;;
  let work_qubits := adder_num_qubits L adder in
  let qr := mkReg 0 (n_count + work_qubits) in
  let qc := mkCircuit (n_count + work_qubits) 0 [] in
  qc <- h (firstn n_count (reg_all qr)) qc ;;
  modexp_gate <- controlled_modular_exponentiation a N n_count ;;
  if negb (gate_num_qubits modexp_gate =? reg_size qr)%nat then Raise AssertionError else
  qc <- append modexp_gate (firstn n_count (reg_all qr) ++ skipn n_count (reg_all qr)) qc ;;
  append (QFTGate n_count true) (firstn n_count (reg_all qr)) qc.

(** ** Action of the classical gates on computational basis states

    [X], multi-controlled [X], the adder and everything built from them
    permute the computational basis, so a basis state of a circuit is a
    list holding one bit per qubit.  Gates that leave the computational
    basis have no such action. *)

Definition gather (qargs : list nat) (s : list bool) : list bool :=
  map (fun q => nth q s false) qargs.

Fixpoint set_bit (q : nat) (v : bool) (s : list bool) : list bool :=
  match s, q with
  | [], _ => []
  | _ :: rest, O => v :: rest
  | b :: rest, S q' => b :: set_bit q' v rest
  end.

Fixpoint scatter (qargs : list nat) (vals : list bool) (s : list bool) : list bool :=
  match qargs, vals with
  | q :: qargs', v :: vals' => scatter qargs' vals' (set_bit q v s)
  | _, _ => s
  end.

Fixpoint gate_apply (g : Gate) (s : list bool) {struct g} : option (list bool) :=
  match g with
  | XGate => Some (map negb s)
  | MCXGate k =>
      if forallb (fun b => b) (firstn k s)
      then Some (firstn k s ++ map negb (skipn k s))
      else Some s
  | AdderGate n => Some (adder_action L n s)
  | AdderInverseGate n => Some (adder_inverse_action L n s)
  | Controlled k g' =>
      if forallb (fun b => b) (firstn k s)
      then match gate_apply g' (skipn k s) with
           | Some t => Some (firstn k s ++ t)
           | None => None
           end
      else Some s
  | SubCircuit _ body =>
      (fix run (body : list (Gate * list nat)) (s : list bool) {struct body} : option (list bool) :=
         match body with
         | [] => Some s
         | (g', qargs) :: rest =>
             match gate_apply g' (gather qargs s) with
             | Some t => run rest (scatter qargs t s)
             | None => None
             end
         end) body s
  | HGate | QFTGate _ _ | Measure _ => None
  end.

(** Running a circuit on a basis state. *)
Definition run_circuit (qc : QuantumCircuit) (s : list bool) : option (list bool) :=
  gate_apply (to_gate qc) s.

End Builders.

(** ** Register values *)

(** The bits of [v], least significant first, on [n] qubits. *)
Definition bits_of (n : nat) (v : Z) : list bool :=
  map (fun i => Z.testbit v (Z.of_nat i)) (seq 0 n).

(** The integer held by a list of qubits, least significant first. *)
Fixpoint value_of (bits : list bool) : Z :=
  match bits with
  | [] => 0
  | b :: rest => Z.b2z b + 2 * value_of rest
  end.

(** The integer held by a register of a circuit in a basis state. *)
Definition reg_value (r : QuantumRegister) (s : list bool) : Z :=
  value_of (gather (reg_all r) s).

(** The basis state of the circuit of [modular_add_const_mod_N] with [xv]
    in the input register and the work, carry and flag qubits at zero. *)
Definition adder_input (n_bits : nat) (xv : Z) : list bool :=
  bits_of n_bits xv ++ repeat false (n_bits + 1 + 1).

(** ** Two descriptions of the adder

    [qiskit_cdkm] is the library's adder as the notebook instantiates it,
    [CDKMRippleCarryAdder(n_bits)] with the default kind: the registers
    [cin] (1), [a] (n), [b] (n), [cout] (1), that is [2n + 2] qubits, the
    count the notebook's recorded output shows ([work_qubits=18] for
    [n_bits=8]).  It maps [|cin, a, b, cout>] to
    [|cin, a, (a + b + cin) mod 2^n, cout xor carry>]. *)

Definition cdkm_action (n : nat) (s : list bool) : list bool :=
  let cin := firstn 1 s in
  let a := firstn n (skipn 1 s) in
  let b := firstn n (skipn (1 + n) s) in
  let cout := skipn (1 + n + n) s in
  let total := value_of cin + value_of a + value_of b in
  cin ++ a ++ bits_of n total ++ map (xorb (2 ^ Z.of_nat n <=? total)) cout.

Definition cdkm_inverse_action (n : nat) (s : list bool) : list bool :=
  let cin := firstn 1 s in
  let a := firstn n (skipn 1 s) in
  let sum := firstn n (skipn (1 + n) s) in
  let cout := skipn (1 + n + n) s in
  let b := (value_of sum - value_of a - value_of cin) mod 2 ^ Z.of_nat n in
  let total := value_of cin + value_of a + b in
  cin ++ a ++ bits_of n b ++ map (xorb (2 ^ Z.of_nat n <=? total)) cout.

Definition qiskit_cdkm : AdderLibrary :=
  mkAdderLibrary (fun n => (2 * n + 2)%nat) cdkm_action cdkm_inverse_action.

(** Modelled from the spec: the ReversibleAdder that the builders'
    comments assume in place of the library's gate.  It spans exactly
    [2*n_bits + 1] qubits (input [x], work register holding the constant,
    one carry qubit) and implements [x <- x + a]: on a basis state the
    input register ends with [(x + a) mod 2^n_bits], the work register
    keeps the constant and the carry qubit receives the carry. *)
Definition reversible_adder_action (n : nat) (s : list bool) : list bool :=
  let xs := firstn n s in
  let work := firstn n (skipn n s) in
  let carry := skipn (n + n) s in
  let total := value_of xs + value_of work in
  bits_of n total ++ work ++ map (xorb (2 ^ Z.of_nat n <=? total)) carry.

(** Modelled from the spec: the inverse of the ReversibleAdder, its exact
    time reversal, usable as a subtractor: [x <- x - a] with the borrow
    on the carry qubit. *)
Definition reversible_adder_inverse_action (n : nat) (s : list bool) : list bool :=
  let sum := firstn n s in
  let work := firstn n (skipn n s) in
  let carry := skipn (n + n) s in
  let xv := (value_of sum - value_of work) mod 2 ^ Z.of_nat n in
  let total := xv + value_of work in
  bits_of n xv ++ work ++ map (xorb (2 ^ Z.of_nat n <=? total)) carry.

(** Modelled from the spec: the ReversibleAdder as an adder library of
    [2*n_bits + 1] qubits. *)
Definition reversible_adder : AdderLibrary :=
  mkAdderLibrary (fun n => (2 * n + 1)%nat) reversible_adder_action reversible_adder_inverse_action.

(** ** The multiplier of the specification

    Modelled from the spec: the multiplier is specified as one controlled
    modular addition of the addend [(a * 2^i) mod N] into the result
    register per qubit [i] of the input register, for every [i], the
    addend being zero or not.  These definitions give that reading on
    basis states, to compare the built circuit with. *)

(** Modelled from the spec: the register [r] set to the value [v]. *)
Definition write_reg (r : QuantumRegister) (v : Z) (s : list bool) : list bool :=
  scatter (reg_all r) (bits_of (reg_size r) v) s.

(** Modelled from the spec: the modular addition of the constant [c] to
    the register [r], controlled on the qubit [ctrl]. *)
Definition spec_controlled_modular_addition (c N : Z) (ctrl : nat) (r : QuantumRegister)
  (s : list bool) : list bool :=
  if nth ctrl s false then write_reg r ((reg_value r s + c) mod N) s else s.

(** Modelled from the spec: the additions of all the addends, in order. *)
Definition spec_multiplier (a N : Z) (n_bits : nat) (s : list bool) : list bool :=
  fold_left
    (fun s i =>
       spec_controlled_modular_addition ((a * (2 ^ Z.of_nat i mod N)) mod N) N i
         (mkReg n_bits n_bits) s)
    (seq 0 n_bits) s.

(** ** Python values returned by the drivers *)

#[warnings="-register-all"]
Inductive PyVal : Type :=
| VNone
| VInt (z : Z)
| VTuple (items : list PyVal).

(** The success tuple [(factor1, factor2, a, r)]; [r] is [None] when the
    factor came from the classical shortcut. *)
Definition is_success (v : PyVal) : Prop :=
  exists f1 f2 a r, v = VTuple [VInt f1; VInt f2; VInt a; r].

(** Truth value of [if result:]. *)
Definition truthy (v : PyVal) : bool :=
  match v with
  | VNone => false
  | VInt z => negb (z =? 0)
  | VTuple items => negb (length items =? 0)%nat
  end.


(** [n // d]. *)
Definition floordiv (n d : Z) : result Z :=
  if d =? 0 then Raise ZeroDivisionError else Ok (n / d).

(** [int(measured, 2)] on the backend's strings, which are plain runs of
    binary digits, most significant first; the empty string and any other
    character raise. *)
Fixpoint int_digits (acc : Z) (digits : list ascii) : result Z :=
  match digits with
  | [] => Ok acc
  | c :: rest =>
      if is_char c "0"%char then int_digits (2 * acc) rest
      else if is_char c "1"%char then int_digits (2 * acc + 1) rest
      else Raise ValueError
  end.

Definition int_base2 (measured : list ascii) : result Z :=
  match measured with
  | [] => Raise ValueError
  | _ => int_digits 0 measured
  end.

(** ** [Fraction] and [limit_denominator]

    A [Fraction] is a rational in lowest terms with a positive
    denominator.  [Fraction(n, d)] normalises its arguments. *)

Definition Fraction (n d : Z) : result Q :=
  if d =? 0 then Raise ZeroDivisionError
  else if 0 <? d then Ok (Qred (n # Z.to_pos d))
  else Ok (Qred ((- n) # Z.to_pos (- d))).

Definition numerator (f : Q) : Z := Qnum f.
Definition denominator (f : Q) : Z := Zpos (Qden f).

(** ** True division of integers

    [a / b] on two integers is the double nearest to the quotient, ties
    going to the even significand; it raises when the divisor is zero
    and when the result is too large for a double.  A double is a
    multiple [m * 2^qe] of a power of two with [m <= 2^53] and
    [qe >= -1074]; the embedding returns its exact rational value, which
    is also what [Fraction] of the float is. *)

(** The integer nearest to [n / d], for [0 <= n] and [0 < d]. *)
Definition round_half_even (n d : Z) : Z :=
  let q := n / d in
  let r := n mod d in
  if 2 * r <? d then q
  else if d <? 2 * r then q + 1
  else if Z.even q then q else q + 1.

(** Whether [2^e <= n / d]. *)
Definition at_least_pow2 (n d e : Z) : bool :=
  if 0 <=? e then d * 2 ^ e <=? n else d <=? n * 2 ^ (- e).

(** The exponent [e] with [2^e <= n / d < 2^(e+1)], for [0 < n], [0 < d]. *)
Definition quotient_exponent (n d : Z) : Z :=
  let e0 := Z.log2 n - Z.log2 d in
  if at_least_pow2 n d e0 then e0 else e0 - 1.

Definition int_true_div (a b : Z) : result Q :=
  if b =? 0 then Raise ZeroDivisionError
  else if a =? 0 then Ok (0 # 1)
  else
    let sign := Z.sgn a * Z.sgn b in
    let n := Z.abs a in
    let d := Z.abs b in
    let qe := Z.max (quotient_exponent n d - 52) (-1074) in
    if 0 <=? qe then
      let m := round_half_even n (d * 2 ^ qe) in
      if 2 ^ 1024 <=? m * 2 ^ qe then Raise OverflowError
      else Ok ((sign * m * 2 ^ qe) # 1)
    else
      let m := round_half_even (n * 2 ^ (- qe)) d in
      Ok (Qred ((sign * m) # Z.to_pos (2 ^ (- qe)))).

(** Modelled from the spec: the phase as the exact quotient
    [value / 2^n_count], in lowest terms.  It is what
    [int(measured, 2) / 2**n_count] is whenever the quotient is a double:
    for a value below [2^53] and at most 1074 counting qubits
    ([int_true_div_exact]). *)
Definition phase_fraction (value : Z) (n_count : nat) : Q :=
  Qred (value # Z.to_pos (2 ^ Z.of_nat n_count)).

(** The loop of [limit_denominator]: the continued-fraction expansion of
    [n/d], stopped at the first convergent whose denominator exceeds the
    bound.  The remainders of Euclid's algorithm shrink geometrically;
    the fuel makes a bound on the number of rounds explicit. *)
Fixpoint cf_loop (fuel : nat) (max_denominator p0 q0 p1 q1 n d : Z)
  : option (result (Z * Z * Z * Z * Z * Z)) :=
  match fuel with
  | O => None
  | S fuel' =>
      match floordiv n d with
      | Raise e => Some (Raise e)
      | Ok a =>
          let q2 := q0 + a * q1 in
          if max_denominator <? q2 then Some (Ok (p0, q0, p1, q1, n, d))
          else cf_loop fuel' max_denominator p1 q1 (p0 + a * p1) q2 d (n - a * d)
      end
  end.

Definition limit_denominator_fuel (fuel : nat) (self : Q) (max_denominator : Z)
  : option (result Q) :=
  if max_denominator <? 1 then Some (Raise ValueError)
  else if denominator self <=? max_denominator then Some (Ok self)
  else
    match cf_loop fuel max_denominator 0 1 1 0 (numerator self) (denominator self) with
    | None => None
    | Some (Raise e) => Some (Raise e)
    | Some (Ok (p0, q0, p1, q1, _, _)) =>
        Some (k <- floordiv (max_denominator - q0) q1 ;;
              bound1 <- Fraction (p0 + k * p1) (q0 + k * q1) ;;
              bound2 <- Fraction p1 q1 ;;
              if Qle_bool (Qabs (bound2 - self)) (Qabs (bound1 - self))
              then Ok bound2
              else Ok bound1)
    end.

Definition cf_fuel (d : Z) : nat := S (S (Z.to_nat (Z.log2_up (d * d)))).

Definition limit_denominator (self : Q) (max_denominator : Z) : result Q :=
  match limit_denominator_fuel (cf_fuel (denominator self)) self max_denominator with
  | Some r => r
  | None => Raise LoopBoundReached
  end.

(** What the loop of [limit_denominator] maintains while it expands
    [n0/d0] under the bound [M]: [p0/q0] and [p1/q1] are consecutive
    convergents, and [n/d] is the tail still to be expanded. *)
Definition cf_inv (n0 d0 M p0 q0 p1 q1 n d : Z) : Prop :=
  0 < d /\ 0 <= n
  /\ n0 = p1 * n + p0 * d /\ d0 = q1 * n + q0 * d
  /\ (p1 * q0 - p0 * q1 = 1 \/ p1 * q0 - p0 * q1 = -1)
  /\ 0 <= q0 <= M /\ 0 <= q1 <= M.

(** ** The classical post-processing of one trial *)

(** [phase = int(measured, 2) / 2**n_count],
    [frac = Fraction(phase).limit_denominator(N)], [r = frac.denominator]. *)
Definition extract_period (measured : list ascii) (n_count : nat) (N : Z) : result Z :=
  value <- int_base2 measured ;;
  phase <- int_true_div value (2 ^ Z.of_nat n_count) ;;
  frac <- limit_denominator phase N ;;
  Ok (denominator frac).

Definition not_in2 (v x1 x2 : Z) : bool := negb ((v =? x1) || (v =? x2)).

(** The validation block shared by the three drivers; [None] stands for
    falling through to the end of the block. *)
Definition validate_and_factor (N a r : Z) : result (option PyVal) :=
  if negb (r mod 2 =? 0) then Ok None else
  y <- pow_mod a (r / 2) N ;;
  if negb (not_in2 y 1 (N - 1)) then Ok None else
  x <- pow_mod a (r / 2) N ;;
  let factor1 := Z.gcd (x - 1) N in
  let factor2 := Z.gcd (x + 1) N in
  if not_in2 factor1 1 N && not_in2 factor2 1 N
  then Ok (Some (VTuple [VInt factor1; VInt factor2; VInt a; VInt r]))
  else Ok None.

(** [memory[0]]. *)
Definition first_shot (memory : list (list ascii)) : result (list ascii) :=
  match memory with
  | [] => Raise IndexError
  | m :: _ => Ok m
  end.

(** [{k: v / total for k, v in raw_counts.items()}]: the divisions are
    made item by item, in the order of the dictionary. *)
Fixpoint normalize_items (total : Z) (items : list (list ascii * Z))
  : result (list (list ascii * Q)) :=
  match items with
  | [] => Ok []
  | (k, v) :: rest =>
      p <- int_true_div v total ;;
      rest' <- normalize_items total rest ;;
      Ok ((k, p) :: rest')
  end.

(** [total = sum(raw_counts.values())] and the dictionary of the
    probabilities. *)
Definition normalize_counts (raw_counts : list (list ascii * Z)) : result (list (list ascii * Q)) :=
  let total := fold_right Z.add 0 (map snd raw_counts) in
  normalize_items total raw_counts.

(** [max(counts, key=counts.get)]: the first key of largest value. *)
Fixpoint max_from (best : list ascii * Q) (rest : list (list ascii * Q)) : list ascii :=
  match rest with
  | [] => fst best
  | kv :: rest' =>
      if Qle_bool (snd kv) (snd best) then max_from best rest' else max_from kv rest'
  end.

Definition max_key (counts : list (list ascii * Q)) : result (list ascii) :=
  match counts with
  | [] => Raise ValueError
  | kv :: rest => Ok (max_from kv rest)
  end.

(** The classical post-processing of the shot memory of one simulator
    run: first shot, candidate period, validation. *)
Definition post_process (N a : Z) (n_count : nat) (memory : list (list ascii))
  : result (option PyVal) :=
  measured <- first_shot memory ;;
  r <- extract_period measured n_count N ;;
  validate_and_factor N a r.

(** The same for the raw counts of a Quantum Rings job: most frequent
    outcome, candidate period, validation. *)
Definition post_process_counts (N a : Z) (n_count : nat) (raw_counts : list (list ascii * Z))
  : result (option PyVal) :=
  counts <- normalize_counts raw_counts ;;
  measured_bitstring <- max_key counts ;;
  r <- extract_period measured_bitstring n_count N ;;
  validate_and_factor N a r.

(** ** The world of a driver run

    The random source and the execution backends are outside the
    notebook: the world fixes what the [i]-th call of [random.randint]
    returns, the shot memory of the [i]-th simulator run (for a number of
    shots), the statuses that the successive calls of [job.status()]
    return for the [i]-th Quantum Rings job, and what
    [job.result().get_counts()] returns or raises for that job.  The
    driver state counts the draws and the circuits built, and records the
    circuits submitted. *)

Inductive JobStatus : Type :=
| INITIALIZING
| QUEUED
| VALIDATING
| RUNNING
| CANCELLED
| DONE
| ERROR.

Definition status_eqb (s t : JobStatus) : bool :=
  match s, t with
  | INITIALIZING, INITIALIZING | QUEUED, QUEUED | VALIDATING, VALIDATING
  | RUNNING, RUNNING | CANCELLED, CANCELLED | DONE, DONE | ERROR, ERROR => true
  | _, _ => false
  end.

(** [status in statuses]. *)
Definition status_in (status : JobStatus) (statuses : list JobStatus) : bool :=
  existsb (status_eqb status) statuses.

Record World : Type := mkWorld {
  randint_draw : nat -> Z;
  aer_memory : nat -> nat -> list (list ascii);
  job_status : nat -> list JobStatus;
  qrings_counts : nat -> result (list (list ascii * Z))
}.

(** The monitoring loop of [run_shors_on_quantum_rings_qrings],

    [while True: status = job.status(); if status in [JobStatus.DONE,
    JobStatus.ERROR, JobStatus.CANCELLED]: break; time.sleep(30)],

    over the statuses that the successive calls of [job.status()] return.
    The loop has no other exit.  A list that holds none of the three
    statuses stands for a job that never shows one: the loop does not
    return. *)
Fixpoint monitor (statuses : list JobStatus) : result JobStatus :=
  match statuses with
  | [] => Raise NeverReturns
  | status :: later =>
      if status_in status [DONE; ERROR; CANCELLED] then Ok status else monitor later
  end.

(** The loop and then [job.result().get_counts()], which is called
    whatever the status that ended the loop. *)
Definition qrings_job (W : World) (job : nat) : result (list (list ascii * Z)) :=
  status <- monitor (job_status W job) ;;
  qrings_counts W job.

Record DriverState : Type := mkState {
  rng_calls : nat;
  built : nat;
  submitted : list QuantumCircuit
}.

Definition initial_state : DriverState := mkState 0 0 [].

Definition M (A : Type) : Type := DriverState -> result A * DriverState.

Definition ret {A : Type} (a : A) : M A := fun st => (Ok a, st).

Definition lift {A : Type} (r : result A) : M A := fun st => (r, st).

Definition bindM {A B : Type} (m : M A) (f : A -> M B) : M B :=
  fun st =>
    match m st with
    | (Ok a, st') => f a st'
    | (Raise e, st') => (Raise e, st')
    end.

Notation "x <~ m ;; k" := (bindM m (fun x => k))
  (at level 61, m at next level, right associativity).

Section Drivers.

Variable L : AdderLibrary.
Variable W : World.

(** [random.randint(lo, hi)] raises on an empty range. *)
Definition randint (lo hi : Z) : M Z :=
  fun st =>
    if hi <? lo then (Raise ValueError, st)
    else (Ok (randint_draw W (rng_calls st)),
          mkState (S (rng_calls st)) (built st) (submitted st)).

(** A call of [build_shors_qc] or [build_shors_qc_sampler_ready]. *)
Definition building (b : result QuantumCircuit) : M QuantumCircuit :=
  fun st => (b, mkState (rng_calls st) (S (built st)) (submitted st)).

(** [backend.run(tqc, shots=shots, memory=True).result().get_memory()]:
    a run without shots has no memory to return. *)
Definition aer_run (qc : QuantumCircuit) (shots : nat) : M (list (list ascii)) :=
  fun st =>
    (if (shots =? 0)%nat then Raise QiskitError
     else Ok (aer_memory W (length (submitted st)) shots),
     mkState (rng_calls st) (built st) (submitted st ++ [qc])).

(** *** [shors_algorithm] *)

Definition classical_shortcut (N a : Z) : M (option PyVal) :=
  let factor := Z.gcd a N in
  cofactor <~ lift (floordiv N factor) ;;
  ret (Some (VTuple [VInt factor; VInt cofactor; VInt a; VNone])).

Definition shors_algorithm_trial (N : Z) (n_count : nat) : M (option PyVal) :=
  a <~ randint 2 (N - 1) ;;
  if negb (Z.gcd a N =? 1) then classical_shortcut N a
  else
    qc <~ building (build_shors_qc L N a n_count) ;;
    memory <~ aer_run qc 1 ;;
    measured <~ lift (first_shot memory) ;;
    r <~ lift (extract_period measured n_count N) ;;
    lift (validate_and_factor N a r).

Fixpoint shors_algorithm_loop (N : Z) (n_count : nat) (trials : nat) : M PyVal :=
  match trials with
  | O => ret (VTuple [VNone; VNone; VNone; VNone])
  | S trials' =>
      found <~ shors_algorithm_trial N n_count ;;
      match found with
      | Some factors => ret factors
      | None => shors_algorithm_loop N n_count trials'
      end
  end.

Definition shors_algorithm (N : Z) (n_count : nat) (max_trials : nat) : M PyVal :=
  shors_algorithm_loop N n_count max_trials.

(** *** [run_shors_single] and [run_shors_aer] *)

Definition run_shors_single (N a : Z) (n_count shots : nat) : M PyVal :=
  qc <~ building (build_shors_qc L N a n_count) ;;
  memory <~ aer_run qc shots ;;
  measured <~ lift (first_shot memory) ;;
  r <~ lift (extract_period measured n_count N) ;;
  found <~ lift (validate_and_factor N a r) ;;
  match found with
  | Some factors => ret factors
  | None => ret VNone
  end.

Definition run_shors_aer_trial (N : Z) (n_count shots : nat) : M (option PyVal) :=
  a <~ randint 2 (N - 1) ;;
  if negb (Z.gcd a N =? 1) then classical_shortcut N a
  else
    result <~ run_shors_single N a n_count shots ;;
    if truthy result then ret (Some result) else ret None.

Fixpoint run_shors_aer_loop (N : Z) (n_count shots : nat) (trials : nat) : M PyVal :=
  match trials with
  | O => ret VNone
  | S trials' =>
      found <~ run_shors_aer_trial N n_count shots ;;
      match found with
      | Some factors => ret factors
      | None => run_shors_aer_loop N n_count shots trials'
      end
  end.

Definition run_shors_aer (N : Z) (n_count max_trials shots : nat) : M PyVal :=
  run_shors_aer_loop N n_count shots max_trials.

(** *** [run_shors_with_random_a_qrings] *)

(** [job = backend.run(tqc, shots=shots)], the monitoring loop and
    [job.result().get_counts()]. *)
Definition qrings_run (qc : QuantumCircuit) : M (list (list ascii * Z)) :=
  fun st =>
    (qrings_job W (length (submitted st)),
     mkState (rng_calls st) (built st) (submitted st ++ [qc])).

Definition run_shors_on_quantum_rings_qrings (N a : Z) (n_count : nat)
  : M (list (list ascii * Q)) :=
  qc <~ building (build_shors_qc_sampler_ready L N a n_count) ;;
  raw_counts <~ qrings_run qc ;;
  lift (normalize_counts raw_counts).

Definition qrings_trial (N : Z) (n_count : nat) : M (option PyVal) :=
  a <~ randint 2 (N - 1) ;;
  if negb (Z.gcd a N =? 1) then classical_shortcut N a
  else
    counts <~ run_shors_on_quantum_rings_qrings N a n_count ;;
    measured_bitstring <~ lift (max_key counts) ;;
    r <~ lift (extract_period measured_bitstring n_count N) ;;
    lift (validate_and_factor N a r).

Fixpoint qrings_loop (N : Z) (n_count : nat) (trials : nat) : M PyVal :=
  match trials with
  | O => ret VNone
  | S trials' =>
      found <~ qrings_trial N n_count ;;
      match found with
      | Some factors => ret factors
      | None => qrings_loop N n_count trials'
      end
  end.

Definition run_shors_with_random_a_qrings (N : Z) (n_count n_bits max_trials : nat) : M PyVal :=
  qrings_loop N n_count max_trials.

End Drivers.

(** ** Worlds used to run the drivers on concrete inputs *)

Definition bitstring (bits : list bool) : list ascii :=
  map (fun b : bool => if b then "1"%char else "0"%char) bits.

(** Every draw is [a]; every simulator run measures [bits] in each shot and
    every Quantum Rings job is queued, runs, completes and counts only
    [bits], in its 16 shots. *)
Definition constant_world (a : Z) (bits : list bool) : World :=
  mkWorld (fun _ => a)
          (fun _ shots => repeat (bitstring bits) shots)
          (fun _ => [QUEUED; RUNNING; DONE])
          (fun _ => Ok [(bitstring bits, 16)]).

(** ** [add_const_mod_N]

    The adder gate is appended through [.control(0)].  A gate with no
    control qubit spans the qubits of the adder; a library that refuses
    to build it raises the same [CircuitError] at the same place as the
    [append] that follows. *)

Definition add_const_mod_N (L : AdderLibrary) (a N : Z) (n_bits : nat)
  : result QuantumCircuit :=
  let qc := mkCircuit (2 * n_bits) 0 [] in
  adder <- CDKMRippleCarryAdder n_bits ;;
  let a_bin := format_b a n_bits in
  qc <- for_enumerate
          (fun i bit qc => if is_char bit "1"%char then x L (i + n_bits)%nat qc else Ok qc)
          0%nat (rev a_bin) qc ;;
  append L (Controlled 0 (AdderGate adder)) (seq 0 (2 * n_bits)) qc.

(** ** Notions used to state further properties *)

(** A divisor of [N] other than [1] and [N]. *)
Definition nontrivial_divisor (N f : Z) : Prop := (f | N) /\ 1 < f < N.

(** A success tuple [(f1, f2, a, r)] whose factors are sound for [N]: both
    are non-trivial divisors of [N], the base lies in [[2, N-1]], and when
    the factors come from the classical shortcut ([r] is [None]) their
    product is [N]. *)
Definition sound_success (N : Z) (v : PyVal) : Prop :=
  exists f1 f2 a r,
    v = VTuple [VInt f1; VInt f2; VInt a; r]
    /\ nontrivial_divisor N f1 /\ nontrivial_divisor N f2
    /\ 2 <= a <= N - 1
    /\ (r = VNone -> f1 * f2 = N).

(** [st'] is reached from [st] within [k] trials: at most [k] more draws,
    at most one more circuit built per draw, at most one more circuit
    submitted per circuit built, and nothing submitted earlier is lost. *)
Definition runs_within (k : nat) (st st' : DriverState) : Prop :=
  (rng_calls st <= rng_calls st' <= rng_calls st + k)%nat
  /\ (built st <= built st')%nat
  /\ (built st' - built st <= rng_calls st' - rng_calls st)%nat
  /\ exists new,
       submitted st' = submitted st ++ new
       /\ (length new <= built st' - built st)%nat.

(** Eight measured bits that read [64], the phase [64 / 2^8 = 1/4]. *)
Definition one_quarter : list bool :=
  [false; true; false; false; false; false; false; false].

(** An instruction keeps the positions in [keep] of every basis state of
    length [w]: it acts on the state, and the qubits at those positions
    hold afterwards what they held before. *)
Definition instruction_keeps (L : AdderLibrary) (w : nat) (keep : nat -> Prop)
  (ins : Instruction) : Prop :=
  forall s, length s = w ->
    exists t, gate_apply L (fst ins) (gather (snd ins) s) = Some t
              /\ forall p, keep p ->
                   nth p (scatter (snd ins) t s) false = nth p s false.

(** * Properties *)

(** ** Building circuits *)
Lemma for_enumerate_inv {A St : Type} (P : St -> Prop) (body : nat -> A -> St -> result St) :
  forall (l : list A) (i : nat) (s : St),
    P s ->
    (forall j x s0, P s0 -> nth_error l j = Some x ->
       exists s1, body (i + j)%nat x s0 = Ok s1 /\ P s1) ->
    exists s', for_enumerate body i l s = Ok s' /\ P s'.
Proof.
  induction l as [|x0 l IH]; intros i s Hs Hbody; simpl.
  - exists s. split; [reflexivity | exact Hs].
  - destruct (Hbody 0%nat x0 s Hs eq_refl) as [s1 [E1 P1]].
    rewrite Nat.add_0_r in E1. rewrite E1. simpl.
    apply IH; [exact P1|].
    intros j x1 s0 H0 Hn. replace (S i + j)%nat with (i + S j)%nat by lia.
    apply Hbody; assumption.
Qed.

Lemma pos_digits_length (p : positive) :
  forall n : nat, Zpos p < 2 ^ Z.of_nat n -> (length (pos_digits_lsb p) <= n)%nat.
Proof.
  induction p as [q IH|q IH|]; intros n Hn; destruct n as [|n];
    try (simpl in Hn; lia); simpl.
  - apply le_n_S, IH. rewrite Nat2Z.inj_succ, Z.pow_succ_r in Hn by lia. lia.
  - apply le_n_S, IH. rewrite Nat2Z.inj_succ, Z.pow_succ_r in Hn by lia. lia.
  - lia.
Qed.

Lemma format_b_length (a : Z) (n : nat) :
  0 <= a < 2 ^ Z.of_nat n -> (1 <= n)%nat -> length (format_b a n) = n.
Proof.
  intros [Ha Hlt] Hn. unfold format_b, zero_pad. destruct a as [|p|p]; try lia.
  - rewrite length_app, repeat_length. simpl. lia.
  - pose proof (pos_digits_length p n Hlt) as Hp.
    rewrite length_app, repeat_length, length_rev. lia.
Qed.

Section BuilderSuccess.

Variable L : AdderLibrary.
Hypothesis adder_wide : forall n : nat, (2 * n <= adder_num_qubits L n)%nat.

Lemma append_ok (g : Gate) (qargs : list nat) (qc : QuantumCircuit) :
  length qargs = gate_num_qubits L g ->
  Forall (fun q => (q < num_qubits qc)%nat) qargs ->
  append L g qargs qc = Ok (mkCircuit (num_qubits qc) (num_clbits qc) (data qc ++ [(g, qargs)])).
Proof.
  intros Hlen Hall. unfold append.
  rewrite Hlen, Nat.eqb_refl. simpl.
  assert (forallb (fun q => (q <? num_qubits qc)%nat) qargs = true) as ->.
  { apply forallb_forall. intros q Hq. rewrite Forall_forall in Hall.
    apply Nat.ltb_lt, Hall, Hq. }
  reflexivity.
Qed.

Lemma Forall_seq_lt (start len bound : nat) :
  (start + len <= bound)%nat -> Forall (fun q => (q < bound)%nat) (seq start len).
Proof.
  intros H. apply Forall_forall. intros q Hq. apply in_seq in Hq. lia.
Qed.

Lemma ceil_log2_ok (N : Z) :
  2 <= N ->
  exists n_bits, ceil_log2 N = Ok n_bits /\ (1 <= n_bits)%nat /\ N <= 2 ^ Z.of_nat n_bits.
Proof.
  intros HN. exists (Z.to_nat (Z.log2_up N)). unfold ceil_log2.
  destruct (Z.leb_spec N 0); [lia|].
  assert (0 < Z.log2_up N) by (apply Z.log2_up_pos; lia).
  repeat split; [lia|].
  rewrite Z2Nat.id by lia. apply Z.log2_up_spec. lia.
Qed.

Lemma quantum_modular_addition_clean_ok (a N : Z) (n_bits : nat) :
  (1 <= n_bits)%nat -> 0 <= a < 2 ^ Z.of_nat n_bits ->
  exists qc, quantum_modular_addition_clean L a N n_bits = Ok qc
             /\ num_qubits qc = adder_num_qubits L n_bits.
Proof.
  intros Hn Ha. unfold quantum_modular_addition_clean, CDKMRippleCarryAdder.
  destruct (Nat.ltb_spec n_bits 1); [lia|]. simpl.
  pose proof (adder_wide n_bits) as Hw.
  destruct (for_enumerate_inv (fun qc => num_qubits qc = adder_num_qubits L n_bits)
              (fun i bit qc => if is_char bit "1"%char then x L (i + n_bits)%nat qc else Ok qc)
              (rev (format_b a n_bits)) 0%nat
              (mkCircuit (adder_num_qubits L n_bits) 0 [])) as [qc [E P]].
  - reflexivity.
  - intros j c s0 Hs0 Hnth. simpl.
    destruct (is_char c "1"%char); [|eauto].
    assert (j < n_bits)%nat as Hj.
    { assert (nth_error (rev (format_b a n_bits)) j <> None) as Hnn by congruence.
      apply nth_error_Some in Hnn. rename Hnn into Hnth2. clear Hnth. rename Hnth2 into Hnth.
      rewrite length_rev, format_b_length in Hnth; lia. }
    unfold x. rewrite append_ok.
    + eexists. split; [reflexivity|exact Hs0].
    + reflexivity.
    + constructor; [lia|constructor].
  - rewrite E. simpl. rewrite append_ok.
    + eexists. split; [reflexivity|exact P].
    + simpl. apply length_seq.
    + apply Forall_seq_lt. lia.
Qed.

Lemma for_range_inv {St : Type} (P : St -> Prop) (body : nat -> St -> result St) (n : nat) (s : St) :
  P s ->
  (forall i s0, P s0 -> (i < n)%nat -> exists s1, body i s0 = Ok s1 /\ P s1) ->
  exists s', for_range n body s = Ok s' /\ P s'.
Proof.
  intros Hs Hbody. unfold for_range. apply for_enumerate_inv; [exact Hs|].
  intros j i s0 Hs0 Hnth.
  assert (nth_error (seq 0 n) j <> None) as Hlt by congruence.
  apply nth_error_Some in Hlt. rewrite length_seq in Hlt.
  rewrite nth_error_nth' with (d := 0%nat) in Hnth by (rewrite length_seq; exact Hlt).
  rewrite seq_nth in Hnth by exact Hlt. injection Hnth as <-.
  apply Hbody; assumption.
Qed.

Lemma pow_mod_ok (a e N : Z) :
  1 <= N -> 0 <= e -> pow_mod a e N = Ok (a ^ e mod N).
Proof.
  intros HN He. unfold pow_mod.
  destruct (Z.eqb_spec N 0); [lia|]. destruct (Z.ltb_spec e 0); [lia|]. reflexivity.
Qed.

Lemma controlled_modular_exponentiation_circuit_ok (a N : Z) (n_count : nat) :
  2 <= N ->
  exists n_bits qc,
    ceil_log2 N = Ok n_bits
    /\ controlled_modular_exponentiation_circuit L a N n_count = Ok qc
    /\ num_qubits qc = (n_count + adder_num_qubits L n_bits)%nat.
Proof.
  intros HN. destruct (ceil_log2_ok N HN) as [n_bits [En [Hn HNle]]].
  exists n_bits. unfold controlled_modular_exponentiation_circuit.
  rewrite En. simpl. unfold CDKMRippleCarryAdder.
  destruct (Nat.ltb_spec n_bits 1); [lia|]. simpl.
  pose proof (adder_wide n_bits) as Hw.
  unfold reg_get at 1. simpl.
  destruct (Nat.ltb_spec 0 (adder_num_qubits L n_bits)); [|lia]. simpl.
  unfold x. rewrite append_ok; [|reflexivity|constructor; [simpl; lia|constructor]].
  simpl.
  destruct (for_range_inv
              (fun qc => num_qubits qc = (n_count + adder_num_qubits L n_bits)%nat)
              (modexp_body L a N n_bits (mkReg 0 n_count)
                 (mkReg n_count (adder_num_qubits L n_bits)))
              n_count
              (mkCircuit (n_count + adder_num_qubits L n_bits) 0
                 [(XGate, [(n_count + 0)%nat])])) as [qc [E P]].
  - reflexivity.
  - intros i s0 Hs0 Hi. unfold modexp_body.
    rewrite pow_mod_ok by (try lia; apply Z.pow_nonneg; lia). simpl.
    destruct (quantum_modular_addition_clean_ok (a ^ 2 ^ Z.of_nat i mod N) N n_bits Hn)
      as [madd [Em Hq]].
    { pose proof (Z.mod_pos_bound (a ^ 2 ^ Z.of_nat i) N). lia. }
    rewrite Em. simpl. unfold reg_get. simpl.
    destruct (Nat.ltb_spec i n_count); [|lia]. simpl.
    rewrite append_ok.
    + eexists. split; [reflexivity|exact Hs0].
    + simpl. unfold reg_all. simpl. rewrite length_seq, Hq. reflexivity.
    + constructor; [lia|]. unfold reg_all. simpl. apply Forall_seq_lt. lia.
  - exists qc. auto.
Qed.

Lemma h_ok (qubits : list nat) (qc : QuantumCircuit) :
  qubits <> [] ->
  Forall (fun q => (q < num_qubits qc)%nat) qubits ->
  exists qc', h L qubits qc = Ok qc'
              /\ num_qubits qc' = num_qubits qc /\ num_clbits qc' = num_clbits qc.
Proof.
  intros Hne Hall. unfold h. destruct qubits as [|q0 qubits']; [contradiction|].
  set (qubits := q0 :: qubits') in *.
  apply (for_enumerate_inv
           (fun c => num_qubits c = num_qubits qc /\ num_clbits c = num_clbits qc)).
  - auto.
  - intros j q s0 [Hs0 Hc0] Hnth. rewrite append_ok.
    + eexists. split; [reflexivity|]. simpl. auto.
    + reflexivity.
    + constructor; [|constructor]. rewrite Hs0.
      rewrite Forall_forall in Hall. apply Hall. eapply nth_error_In, Hnth.
Qed.

Lemma measure_ok (qubits clbits : list nat) (qc : QuantumCircuit) :
  length qubits = length clbits ->
  Forall (fun q => (q < num_qubits qc)%nat) qubits ->
  exists qc', measure L qubits clbits qc = Ok qc' /\ num_qubits qc' = num_qubits qc.
Proof.
  intros Hlen Hall. unfold measure. rewrite Hlen, Nat.eqb_refl. simpl.
  apply (for_enumerate_inv (fun c => num_qubits c = num_qubits qc)).
  - reflexivity.
  - intros j [q c] s0 Hs0 Hnth. simpl. rewrite append_ok.
    + eexists. split; [reflexivity|]. simpl. auto.
    + reflexivity.
    + constructor; [|constructor]. rewrite Hs0.
      rewrite Forall_forall in Hall. apply Hall.
      apply nth_error_In in Hnth. apply in_combine_l in Hnth. exact Hnth.
Qed.

Lemma seq_not_nil (start len : nat) : (1 <= len)%nat -> seq start len <> [].
Proof. destruct len; [lia|discriminate]. Qed.

Lemma build_shors_qc_ok (N a : Z) (n_count : nat) :
  2 <= N -> (1 <= n_count)%nat -> exists qc, build_shors_qc L N a n_count = Ok qc.
Proof.
  intros HN Hc.
  destruct (controlled_modular_exponentiation_circuit_ok a N n_count HN)
    as [n_bits [mexp [En [Em Hq]]]].
  destruct (ceil_log2_ok N HN) as [n_bits' [En' [Hn _]]].
  rewrite En in En'. injection En' as <-.
  unfold build_shors_qc. rewrite En. simpl. unfold CDKMRippleCarryAdder.
  destruct (Nat.ltb_spec n_bits 1); [lia|]. simpl.
  destruct (h_ok (reg_all (mkReg 0 n_count))
              (mkCircuit (n_count + adder_num_qubits L n_bits) n_count []))
    as [qc1 [E1 [Hq1 Hc1]]].
  { apply seq_not_nil. exact Hc. }
  { apply Forall_seq_lt. simpl. lia. }
  rewrite E1. simpl. unfold controlled_modular_exponentiation. rewrite Em. simpl.
  rewrite append_ok.
  2:{ simpl. rewrite length_app. unfold reg_all. simpl. rewrite !length_seq. lia. }
  2:{ rewrite Hq1. simpl. apply Forall_app. split; apply Forall_seq_lt; simpl; lia. }
  simpl. rewrite append_ok.
  2:{ simpl. apply length_seq. }
  2:{ simpl. rewrite Hq1. simpl. apply Forall_seq_lt. simpl. lia. }
  simpl.
  destruct (measure_ok (reg_all (mkReg 0 n_count)) (reg_all (mkReg 0 n_count))
              (mkCircuit (num_qubits qc1) (num_clbits qc1)
                 ((data qc1 ++
                   [(to_gate mexp,
                     reg_all (mkReg 0 n_count)
                     ++ reg_all (mkReg n_count (adder_num_qubits L n_bits)))]) ++
                  [(QFTGate n_count true, reg_all (mkReg 0 n_count))])))
    as [qc2 [E2 _]].
  { reflexivity. }
  { simpl. rewrite Hq1. simpl. apply Forall_seq_lt. simpl. lia. }
  exists qc2. exact E2.
Qed.

Lemma firstn_seq (k start len : nat) :
  (k <= len)%nat -> firstn k (seq start len) = seq start k.
Proof.
  revert start len. induction k as [|k IH]; intros start len Hk; [reflexivity|].
  destruct len as [|len]; [lia|]. simpl. f_equal. apply IH. lia.
Qed.


End BuilderSuccess.

(** ** Validation of a candidate period *)

Lemma not_in2_true (v x1 x2 : Z) : not_in2 v x1 x2 = true <-> v <> x1 /\ v <> x2.
Proof.
  unfold not_in2. rewrite negb_true_iff, orb_false_iff, !Z.eqb_neq. tauto.
Qed.

Lemma not_in2_false (v x1 x2 : Z) : not_in2 v x1 x2 = false <-> v = x1 \/ v = x2.
Proof.
  unfold not_in2. rewrite negb_false_iff, orb_true_iff, !Z.eqb_eq. tauto.
Qed.

Lemma validate_and_factor_accept (N a r : Z) :
  1 <= N -> 0 <= r ->
  r mod 2 = 0 ->
  a ^ (r / 2) mod N <> 1 -> a ^ (r / 2) mod N <> N - 1 ->
  Z.gcd (a ^ (r / 2) mod N - 1) N <> 1 -> Z.gcd (a ^ (r / 2) mod N - 1) N <> N ->
  Z.gcd (a ^ (r / 2) mod N + 1) N <> 1 -> Z.gcd (a ^ (r / 2) mod N + 1) N <> N ->
  validate_and_factor N a r =
    Ok (Some (VTuple [VInt (Z.gcd (a ^ (r / 2) mod N - 1) N);
                      VInt (Z.gcd (a ^ (r / 2) mod N + 1) N); VInt a; VInt r])).
Proof.
  intros HN Hr Hev Hx1 Hx2 Hf1 Hf1' Hf2 Hf2'. unfold validate_and_factor.
  rewrite Hev. simpl.
  rewrite pow_mod_ok by (try lia; apply Z.div_pos; lia). simpl.
  assert (not_in2 (a ^ (r / 2) mod N) 1 (N - 1) = true) as -> by (apply not_in2_true; auto).
  simpl.
  assert (not_in2 (Z.gcd (a ^ (r / 2) mod N - 1) N) 1 N = true) as ->
    by (apply not_in2_true; auto).
  assert (not_in2 (Z.gcd (a ^ (r / 2) mod N + 1) N) 1 N = true) as ->
    by (apply not_in2_true; auto).
  reflexivity.
Qed.

Lemma validate_and_factor_cases (N a r : Z) :
  1 <= N -> 0 <= r ->
  validate_and_factor N a r = Ok None
  \/ (r mod 2 = 0
      /\ (a ^ (r / 2) mod N <> 1 /\ a ^ (r / 2) mod N <> N - 1)
      /\ (Z.gcd (a ^ (r / 2) mod N - 1) N <> 1 /\ Z.gcd (a ^ (r / 2) mod N - 1) N <> N)
      /\ (Z.gcd (a ^ (r / 2) mod N + 1) N <> 1 /\ Z.gcd (a ^ (r / 2) mod N + 1) N <> N)).
Proof.
  intros HN Hr. unfold validate_and_factor.
  destruct (Z.eqb_spec (r mod 2) 0) as [Hev|Hodd]; simpl; [|left; reflexivity].
  rewrite pow_mod_ok by (try lia; apply Z.div_pos; lia). simpl.
  destruct (not_in2 (a ^ (r / 2) mod N) 1 (N - 1)) eqn:Ex; simpl; [|left; reflexivity].
  destruct (not_in2 (Z.gcd (a ^ (r / 2) mod N - 1) N) 1 N) eqn:E1; simpl; [|left; reflexivity].
  destruct (not_in2 (Z.gcd (a ^ (r / 2) mod N + 1) N) 1 N) eqn:E2; simpl; [|left; reflexivity].
  right. apply not_in2_true in Ex, E1, E2. tauto.
Qed.

Lemma validate_and_factor_reject (N a r : Z) :
  1 <= N -> 0 <= r ->
  ~ (r mod 2 = 0
     /\ (a ^ (r / 2) mod N <> 1 /\ a ^ (r / 2) mod N <> N - 1)
     /\ (Z.gcd (a ^ (r / 2) mod N - 1) N <> 1 /\ Z.gcd (a ^ (r / 2) mod N - 1) N <> N)
     /\ (Z.gcd (a ^ (r / 2) mod N + 1) N <> 1 /\ Z.gcd (a ^ (r / 2) mod N + 1) N <> N)) ->
  validate_and_factor N a r = Ok None.
Proof.
  intros HN Hr Hno. destruct (validate_and_factor_cases N a r HN Hr) as [E|Hc];
    [exact E|contradiction].
Qed.

(** ** Unfolding one trial *)

Lemma bindM_lift {A B : Type} (r : result A) (f : A -> M B) (st : DriverState) :
  bindM (lift r) f st = match r with Ok a => f a st | Raise e => (Raise e, st) end.
Proof. unfold bindM, lift. destruct r; reflexivity. Qed.

Lemma run_shors_single_unfold (L : AdderLibrary) (W : World) (N a : Z) (n_count shots : nat)
  (st : DriverState) (qc : QuantumCircuit) :
  (1 <= shots)%nat ->
  build_shors_qc L N a n_count = Ok qc ->
  run_shors_single L W N a n_count shots st =
    (found <- post_process N a n_count (aer_memory W (length (submitted st)) shots) ;;
     Ok (match found with Some factors => factors | None => VNone end),
     mkState (rng_calls st) (S (built st)) (submitted st ++ [qc])).
Proof.
  intros Hshots Hb.
  unfold run_shors_single, bindM, building, aer_run, lift, ret, post_process.
  rewrite Hb. destruct (Nat.eqb_spec shots 0) as [|_]; [lia|]. simpl.
  destruct (first_shot _) as [measured|e]; simpl; [|reflexivity].
  destruct (extract_period measured n_count N) as [r|e]; simpl; [|reflexivity].
  destruct (validate_and_factor N a r) as [[v|]|e]; reflexivity.
Qed.

Lemma randint_in_range (W : World) (N : Z) (st : DriverState) :
  3 <= N ->
  randint W 2 (N - 1) st =
    (Ok (randint_draw W (rng_calls st)), mkState (S (rng_calls st)) (built st) (submitted st)).
Proof.
  intros HN. unfold randint. destruct (Z.ltb_spec (N - 1) 2); [lia|reflexivity].
Qed.

Lemma shors_algorithm_trial_quantum (L : AdderLibrary) (W : World) (N : Z) (n_count : nat)
  (st : DriverState) (qc : QuantumCircuit) :
  3 <= N ->
  Z.gcd (randint_draw W (rng_calls st)) N = 1 ->
  build_shors_qc L N (randint_draw W (rng_calls st)) n_count = Ok qc ->
  shors_algorithm_trial L W N n_count st =
    (post_process N (randint_draw W (rng_calls st)) n_count
       (aer_memory W (length (submitted st)) 1),
     mkState (S (rng_calls st)) (S (built st)) (submitted st ++ [qc])).
Proof.
  intros HN Hg Hb. unfold shors_algorithm_trial, bindM at 1.
  rewrite randint_in_range by exact HN. rewrite Hg. simpl.
  unfold bindM, building, aer_run, lift, post_process. simpl. rewrite Hb. simpl.
  destruct (first_shot _) as [measured|e]; simpl; [|reflexivity].
  destruct (extract_period measured n_count N) as [r|e]; simpl; reflexivity.
Qed.

Lemma run_shors_aer_trial_quantum (L : AdderLibrary) (W : World) (N : Z) (n_count shots : nat)
  (st : DriverState) (qc : QuantumCircuit) :
  (1 <= shots)%nat ->
  3 <= N ->
  Z.gcd (randint_draw W (rng_calls st)) N = 1 ->
  build_shors_qc L N (randint_draw W (rng_calls st)) n_count = Ok qc ->
  run_shors_aer_trial L W N n_count shots st =
    (found <- post_process N (randint_draw W (rng_calls st)) n_count
                (aer_memory W (length (submitted st)) shots) ;;
     Ok (match found with
         | Some factors => if truthy factors then Some factors else None
         | None => None
         end),
     mkState (S (rng_calls st)) (S (built st)) (submitted st ++ [qc])).
Proof.
  intros Hshots HN Hg Hb. unfold run_shors_aer_trial, bindM at 1.
  rewrite randint_in_range by exact HN. rewrite Hg. simpl.
  unfold bindM at 1.
  rewrite (run_shors_single_unfold L W N _ n_count shots _ qc Hshots Hb). simpl.
  destruct (post_process _ _ _ _) as [[v|]|e]; simpl; try reflexivity.
  destruct (truthy v); reflexivity.
Qed.


Lemma classical_shortcut_eval (N a : Z) (st : DriverState) :
  2 <= a ->
  classical_shortcut N a st =
    (Ok (Some (VTuple [VInt (Z.gcd a N); VInt (N / Z.gcd a N); VInt a; VNone])), st).
Proof.
  intros Ha. unfold classical_shortcut, bindM, lift, ret, floordiv.
  destruct (Z.eqb_spec (Z.gcd a N) 0) as [E0|E0].
  - apply Z.gcd_eq_0_l in E0. lia.
  - reflexivity.
Qed.

Lemma shortcut_in_loops (L : AdderLibrary) (W : World) (N : Z) (n_count shots trials : nat)
  (st : DriverState) :
  2 <= randint_draw W (rng_calls st) <= N - 1 ->
  Z.gcd (randint_draw W (rng_calls st)) N <> 1 ->
  let success := VTuple [VInt (Z.gcd (randint_draw W (rng_calls st)) N);
                         VInt (N / Z.gcd (randint_draw W (rng_calls st)) N);
                         VInt (randint_draw W (rng_calls st)); VNone] in
  let st' := mkState (S (rng_calls st)) (built st) (submitted st) in
  shors_algorithm_loop L W N n_count (S trials) st = (Ok success, st')
  /\ run_shors_aer_loop L W N n_count shots (S trials) st = (Ok success, st')
  /\ qrings_loop L W N n_count (S trials) st = (Ok success, st').
Proof.
  intros Ha Hg success st'.
  assert (3 <= N) as HN by lia.
  assert (negb (Z.gcd (randint_draw W (rng_calls st)) N =? 1) = true) as Hneg.
  { apply negb_true_iff, Z.eqb_neq, Hg. }
  repeat split; simpl; unfold bindM at 1;
    [unfold shors_algorithm_trial|unfold run_shors_aer_trial|unfold qrings_trial];
    unfold bindM at 1; rewrite randint_in_range by exact HN;
    rewrite Hneg, classical_shortcut_eval by lia; reflexivity.
Qed.

(** ** Exhausting the trials *)

Ltac shift_trial st i :=
  cbn [rng_calls built submitted]; rewrite length_app; cbn [length];
  replace (S (rng_calls st) + i)%nat with (rng_calls st + S i)%nat by lia;
  replace (length (submitted st) + 1 + i)%nat with (length (submitted st) + S i)%nat by lia.

Section Exhaustion.

Variable L : AdderLibrary.
Hypothesis adder_wide : forall n : nat, (2 * n <= adder_num_qubits L n)%nat.
Variable W : World.
Variable N : Z.
Variable n_count : nat.
Hypothesis counting : (1 <= n_count)%nat.

Lemma shors_algorithm_loop_exhausted (trials : nat) :
  forall st : DriverState,
    (forall i, (i < trials)%nat ->
       2 <= randint_draw W (rng_calls st + i) <= N - 1
       /\ Z.gcd (randint_draw W (rng_calls st + i)) N = 1
       /\ post_process N (randint_draw W (rng_calls st + i)) n_count
            (aer_memory W (length (submitted st) + i) 1) = Ok None) ->
    exists st',
      shors_algorithm_loop L W N n_count trials st = (Ok (VTuple [VNone; VNone; VNone; VNone]), st')
      /\ rng_calls st' = (rng_calls st + trials)%nat
      /\ built st' = (built st + trials)%nat
      /\ length (submitted st') = (length (submitted st) + trials)%nat.
Proof.
  induction trials as [|trials IH]; intros st Hfail.
  - exists st. simpl. unfold ret. repeat split; lia.
  - destruct (Hfail 0%nat ltac:(lia)) as [Ha [Hg Hp]]. rewrite !Nat.add_0_r in *.
    assert (3 <= N) as HN by lia.
    destruct (build_shors_qc_ok L adder_wide N (randint_draw W (rng_calls st)) n_count
                ltac:(lia) counting) as [qc Hb].
    cbn [shors_algorithm_loop]. unfold bindM at 1.
    rewrite (shors_algorithm_trial_quantum L W N n_count st qc HN Hg Hb), Hp.
    destruct (IH (mkState (S (rng_calls st)) (S (built st)) (submitted st ++ [qc])))
      as [st' [E [R [B S']]]].
    + intros i Hi. shift_trial st i. apply Hfail. lia.
    + exists st'. rewrite E. simpl in R, B, S'. rewrite length_app in S'. simpl in S'.
      repeat split; lia.
Qed.

Lemma run_shors_aer_loop_exhausted (shots trials : nat) :
  (1 <= shots)%nat ->
  forall st : DriverState,
    (forall i, (i < trials)%nat ->
       2 <= randint_draw W (rng_calls st + i) <= N - 1
       /\ Z.gcd (randint_draw W (rng_calls st + i)) N = 1
       /\ post_process N (randint_draw W (rng_calls st + i)) n_count
            (aer_memory W (length (submitted st) + i) shots) = Ok None) ->
    exists st',
      run_shors_aer_loop L W N n_count shots trials st = (Ok VNone, st')
      /\ rng_calls st' = (rng_calls st + trials)%nat
      /\ built st' = (built st + trials)%nat
      /\ length (submitted st') = (length (submitted st) + trials)%nat.
Proof.
  intros Hshots. induction trials as [|trials IH]; intros st Hfail.
  - exists st. simpl. unfold ret. repeat split; lia.
  - destruct (Hfail 0%nat ltac:(lia)) as [Ha [Hg Hp]]. rewrite !Nat.add_0_r in *.
    assert (3 <= N) as HN by lia.
    destruct (build_shors_qc_ok L adder_wide N (randint_draw W (rng_calls st)) n_count
                ltac:(lia) counting) as [qc Hb].
    cbn [run_shors_aer_loop]. unfold bindM at 1.
    rewrite (run_shors_aer_trial_quantum L W N n_count shots st qc Hshots HN Hg Hb), Hp.
    cbn [bind].
    destruct (IH (mkState (S (rng_calls st)) (S (built st)) (submitted st ++ [qc])))
      as [st' [E [R [B S']]]].
    + intros i Hi. shift_trial st i. apply Hfail. lia.
    + exists st'. rewrite E. simpl in R, B, S'. rewrite length_app in S'. simpl in S'.
      repeat split; lia.
Qed.


End Exhaustion.

Lemma qiskit_cdkm_wide (n : nat) : (2 * n <= adder_num_qubits qiskit_cdkm n)%nat.
Proof. simpl. lia. Qed.

(** ** Shapes of the returned values *)

Lemma validate_and_factor_some (N a r : Z) (v : PyVal) :
  validate_and_factor N a r = Ok (Some v) ->
  exists f1 f2, v = VTuple [VInt f1; VInt f2; VInt a; VInt r].
Proof.
  unfold validate_and_factor.
  destruct (negb (r mod 2 =? 0)); [discriminate|].
  destruct (pow_mod a (r / 2) N) as [y|e]; simpl; [|discriminate].
  destruct (negb (not_in2 y 1 (N - 1))); [discriminate|].
  destruct (_ && _); [|discriminate].
  intros H. injection H as <-. eauto.
Qed.

Lemma post_process_some (N a : Z) (n_count : nat) (memory : list (list ascii)) (v : PyVal) :
  post_process N a n_count memory = Ok (Some v) -> is_success v.
Proof.
  unfold post_process.
  destruct (first_shot memory) as [measured|e]; simpl; [|discriminate].
  destruct (extract_period measured n_count N) as [r|e]; simpl; [|discriminate].
  intros H. apply validate_and_factor_some in H as [f1 [f2 ->]].
  exists f1, f2, a, (VInt r). reflexivity.
Qed.

Lemma post_process_counts_some (N a : Z) (n_count : nat) (raw : list (list ascii * Z))
  (v : PyVal) :
  post_process_counts N a n_count raw = Ok (Some v) -> is_success v.
Proof.
  unfold post_process_counts.
  destruct (normalize_counts raw) as [counts|e]; simpl; [|discriminate].
  destruct (max_key counts) as [measured|e]; simpl; [|discriminate].
  destruct (extract_period measured n_count N) as [r|e]; simpl; [|discriminate].
  intros H. apply validate_and_factor_some in H as [f1 [f2 ->]].
  exists f1, f2, a, (VInt r). reflexivity.
Qed.


Lemma is_success_truthy (v : PyVal) : is_success v -> truthy v = true.
Proof. intros [f1 [f2 [a [r ->]]]]. reflexivity. Qed.

Lemma classical_shortcut_some (N a : Z) (st st' : DriverState) (v : PyVal) :
  classical_shortcut N a st = (Ok (Some v), st') -> is_success v /\ st' = st.
Proof.
  unfold classical_shortcut, bindM, lift, ret.
  destruct (floordiv N (Z.gcd a N)) as [q|e]; [|discriminate].
  intros H. injection H as <- <-. split; [|reflexivity].
  exists (Z.gcd a N), q, a, VNone. reflexivity.
Qed.

Lemma classical_shortcut_not_none (N a : Z) (st st' : DriverState) :
  classical_shortcut N a st <> (Ok None, st').
Proof.
  unfold classical_shortcut, bindM, lift, ret.
  destruct (floordiv N (Z.gcd a N)) as [q|e]; discriminate.
Qed.

Section TrialShapes.

Variable L : AdderLibrary.
Variable W : World.
Variable N : Z.
Variable n_count : nat.

(** What one trial can do: stop with an error, stop with a success tuple,
    or consume one draw and fall through to the next trial. *)
Lemma shors_algorithm_trial_shape (st st' : DriverState) (o : option PyVal) :
  shors_algorithm_trial L W N n_count st = (Ok o, st') ->
  match o with
  | Some v => is_success v
  | None => rng_calls st' = S (rng_calls st)
  end.
Proof.
  unfold shors_algorithm_trial, bindM at 1, randint.
  destruct (N - 1 <? 2); [discriminate|].
  destruct (negb (Z.gcd _ N =? 1)).
  - destruct o as [v|].
    + intros H. apply classical_shortcut_some in H. tauto.
    + intros H. apply classical_shortcut_not_none in H. contradiction.
  - unfold bindM, building, aer_run, lift. simpl.
    destruct (build_shors_qc L N _ n_count) as [qc|e]; [|discriminate].
    destruct (first_shot _) as [measured|e] eqn:Ef; [|discriminate].
    destruct (extract_period measured n_count N) as [r|e] eqn:Er; [|discriminate].
    intros H. injection H as Hv <-. destruct o as [v|]; [|reflexivity].
    apply validate_and_factor_some in Hv as [f1 [f2 ->]].
    eexists _, _, _, _. reflexivity.
Qed.

Lemma run_shors_single_shape (a : Z) (shots : nat) (st st' : DriverState) (v : PyVal) :
  run_shors_single L W N a n_count shots st = (Ok v, st') ->
  (v = VNone \/ is_success v) /\ rng_calls st' = rng_calls st.
Proof.
  unfold run_shors_single, bindM, building, aer_run, lift, ret. simpl.
  destruct (build_shors_qc L N a n_count) as [qc|e]; [|discriminate].
  destruct (shots =? 0)%nat; [discriminate|].
  destruct (first_shot _) as [measured|e]; [|discriminate].
  destruct (extract_period measured n_count N) as [r|e]; [|discriminate].
  destruct (validate_and_factor N a r) as [[w|]|e] eqn:Ev; [| |discriminate].
  - intros H. injection H as <- <-. split; [|reflexivity]. right.
    apply validate_and_factor_some in Ev as [f1 [f2 ->]]. eexists _, _, _, _. reflexivity.
  - intros H. injection H as <- <-. auto.
Qed.

Lemma run_shors_aer_trial_shape (shots : nat) (st st' : DriverState) (o : option PyVal) :
  run_shors_aer_trial L W N n_count shots st = (Ok o, st') ->
  match o with
  | Some v => is_success v
  | None => rng_calls st' = S (rng_calls st)
  end.
Proof.
  unfold run_shors_aer_trial, bindM at 1, randint.
  destruct (N - 1 <? 2); [discriminate|].
  destruct (negb (Z.gcd _ N =? 1)).
  - destruct o as [v|].
    + intros H. apply classical_shortcut_some in H. tauto.
    + intros H. apply classical_shortcut_not_none in H. contradiction.
  - unfold bindM.
    destruct (run_shors_single L W N _ n_count shots _) as [[v|e] st1] eqn:Es; [|discriminate].
    apply run_shors_single_shape in Es as [Hv Hr]. simpl in Hr.
    destruct Hv as [->|Hv].
    + simpl. unfold ret. intros H. injection H as <- <-. exact Hr.
    + rewrite (is_success_truthy v Hv). unfold ret. intros H. injection H as <- <-. exact Hv.
Qed.





End TrialShapes.

(** ** Prime moduli *)

Lemma prime_gcd_trivial (N y : Z) : Z.prime N -> Z.gcd y N = 1 \/ Z.gcd y N = N.
Proof.
  intros Hp. pose proof (Z.prime_ge_2 N Hp) as HN.
  pose proof (Z.gcd_nonneg y N) as Hnn.
  destruct (Z.divide_prime_r (Z.gcd y N) N Hp (Z.gcd_divide_r y N)) as [H|[H|[H|H]]]; lia.
Qed.

Lemma prime_coprime_draw (N a : Z) : Z.prime N -> 2 <= a <= N - 1 -> Z.gcd a N = 1.
Proof.
  intros Hp Ha. destruct (prime_gcd_trivial N a Hp) as [H|H]; [exact H|].
  pose proof (Z.gcd_divide_l a N) as Hd. rewrite H in Hd.
  apply Z.divide_pos_le in Hd; lia.
Qed.

Lemma validate_and_factor_prime (N a r : Z) :
  Z.prime N -> 0 <= r -> validate_and_factor N a r = Ok None.
Proof.
  intros Hp Hr. pose proof (Z.prime_ge_2 N Hp) as HN.
  apply validate_and_factor_reject; [lia|exact Hr|].
  intros [_ [_ [[H1 H2] _]]].
  destruct (prime_gcd_trivial N (a ^ (r / 2) mod N - 1) Hp); contradiction.
Qed.

Lemma extract_period_pos (measured : list ascii) (n_count : nat) (N r : Z) :
  extract_period measured n_count N = Ok r -> 1 <= r.
Proof.
  unfold extract_period.
  destruct (int_base2 measured) as [value|e]; cbn [bind]; [|discriminate].
  destruct (int_true_div value _) as [phase|e]; cbn [bind]; [|discriminate].
  destruct (limit_denominator phase N) as [frac|e]; cbn [bind]; [|discriminate].
  intros H. injection H as <-. unfold denominator. lia.
Qed.

Lemma post_process_prime (N a : Z) (n_count : nat) (memory : list (list ascii)) (v : PyVal) :
  Z.prime N -> post_process N a n_count memory <> Ok (Some v).
Proof.
  intros Hp. unfold post_process.
  destruct (first_shot memory) as [measured|e]; simpl; [|discriminate].
  destruct (extract_period measured n_count N) as [r|e] eqn:Er; simpl; [|discriminate].
  apply extract_period_pos in Er.
  rewrite validate_and_factor_prime by (try exact Hp; lia). discriminate.
Qed.

Section PrimeModulus.

Variable L : AdderLibrary.
Variable W : World.
Variable N : Z.
Variable n_count : nat.
Hypothesis N_prime : Z.prime N.
Hypothesis draws_in_range : forall i : nat, 2 <= randint_draw W i <= N - 1.

Lemma shors_algorithm_trial_prime (st st' : DriverState) (v : PyVal) :
  shors_algorithm_trial L W N n_count st <> (Ok (Some v), st').
Proof.
  pose proof (Z.prime_ge_2 N N_prime) as HN.
  pose proof (draws_in_range (rng_calls st)) as Ha.
  pose proof (prime_coprime_draw N _ N_prime Ha) as Hg.
  unfold shors_algorithm_trial, bindM at 1.
  rewrite randint_in_range by lia. rewrite Hg. simpl.
  unfold bindM, building, aer_run, lift. simpl.
  destruct (build_shors_qc L N _ n_count) as [qc|e]; [|discriminate].
  destruct (first_shot _) as [measured|e]; [|discriminate].
  destruct (extract_period measured n_count N) as [r|e] eqn:Er; [|discriminate].
  apply extract_period_pos in Er.
  rewrite validate_and_factor_prime by (try exact N_prime; lia). discriminate.
Qed.

Lemma run_shors_aer_trial_prime (shots : nat) (st st' : DriverState) (v : PyVal) :
  run_shors_aer_trial L W N n_count shots st <> (Ok (Some v), st').
Proof.
  pose proof (Z.prime_ge_2 N N_prime) as HN.
  pose proof (draws_in_range (rng_calls st)) as Ha.
  pose proof (prime_coprime_draw N _ N_prime Ha) as Hg.
  unfold run_shors_aer_trial, bindM at 1.
  rewrite randint_in_range by lia. rewrite Hg. simpl.
  unfold run_shors_single, bindM, building, aer_run, lift, ret. simpl.
  destruct (build_shors_qc L N _ n_count) as [qc|e]; [|discriminate].
  destruct (shots =? 0)%nat; [discriminate|].
  destruct (first_shot _) as [measured|e]; [|discriminate].
  destruct (extract_period measured n_count N) as [r|e] eqn:Er; [|discriminate].
  apply extract_period_pos in Er.
  rewrite validate_and_factor_prime by (try exact N_prime; lia). simpl. discriminate.
Qed.

Lemma shors_algorithm_loop_prime (trials : nat) :
  forall (st st' : DriverState) (v : PyVal),
    shors_algorithm_loop L W N n_count trials st = (Ok v, st') ->
    v = VTuple [VNone; VNone; VNone; VNone] /\ rng_calls st' = (rng_calls st + trials)%nat.
Proof.
  induction trials as [|trials IH]; intros st st' v; simpl.
  - unfold ret. intros H. injection H as <- <-. split; [reflexivity|lia].
  - unfold bindM at 1.
    destruct (shors_algorithm_trial L W N n_count st) as [[o|e] st1] eqn:Et; [|discriminate].
    destruct o as [w|].
    + apply shors_algorithm_trial_prime in Et. contradiction.
    + apply (shors_algorithm_trial_shape L W N n_count st st1 None) in Et.
      intros H. apply IH in H as [-> Hr]. split; [reflexivity|lia].
Qed.

Lemma run_shors_aer_loop_prime (shots trials : nat) :
  forall (st st' : DriverState) (v : PyVal),
    run_shors_aer_loop L W N n_count shots trials st = (Ok v, st') ->
    v = VNone /\ rng_calls st' = (rng_calls st + trials)%nat.
Proof.
  induction trials as [|trials IH]; intros st st' v; simpl.
  - unfold ret. intros H. injection H as <- <-. split; [reflexivity|lia].
  - unfold bindM at 1.
    destruct (run_shors_aer_trial L W N n_count shots st) as [[o|e] st1] eqn:Et; [|discriminate].
    destruct o as [w|].
    + apply run_shors_aer_trial_prime in Et. contradiction.
    + apply (run_shors_aer_trial_shape L W N n_count shots st st1 None) in Et.
      intros H. apply IH in H as [-> Hr]. split; [reflexivity|lia].
Qed.

End PrimeModulus.

Lemma empty_range_raises (L : AdderLibrary) (W : World) (N : Z) (n_count shots trials : nat)
  (st : DriverState) :
  N < 3 ->
  shors_algorithm_loop L W N n_count (S trials) st = (Raise ValueError, st)
  /\ run_shors_aer_loop L W N n_count shots (S trials) st = (Raise ValueError, st)
  /\ qrings_loop L W N n_count (S trials) st = (Raise ValueError, st).
Proof.
  intros HN. repeat split; simpl; unfold bindM at 1;
    [unfold shors_algorithm_trial|unfold run_shors_aer_trial|unfold qrings_trial];
    unfold bindM at 1, randint; destruct (Z.ltb_spec (N - 1) 2); try lia; reflexivity.
Qed.

(** ** The continued-fraction loop *)

Lemma floordiv_ok (n d : Z) : d <> 0 -> floordiv n d = Ok (n / d).
Proof. intros Hd. unfold floordiv. destruct (Z.eqb_spec d 0); [contradiction|reflexivity]. Qed.

(** The loop always ends within its fuel. *)
Lemma cf_loop_fuel_enough (fuel : nat) :
  forall M p0 q0 p1 q1 n d,
    0 <= d <= n -> n * d < 2 ^ Z.of_nat fuel ->
    cf_loop (S fuel) M p0 q0 p1 q1 n d <> None.
Proof.
  induction fuel as [|fuel IH]; intros M p0 q0 p1 q1 n d Hd Hprod.
  - assert (d = 0) as -> by (simpl in Hprod; nia). simpl. discriminate.
  - cbn [cf_loop]. unfold floordiv. destruct (Z.eqb_spec d 0) as [->|Hd0]; [discriminate|].
    destruct (M <? q0 + n / d * q1); [discriminate|].
    apply IH.
    + pose proof (Z.mod_pos_bound n d ltac:(lia)) as Hm.
      rewrite Z.mod_eq in Hm by exact Hd0. lia.
    + rewrite Nat2Z.inj_succ, Z.pow_succ_r in Hprod by lia.
      pose proof (Z.mod_pos_bound n d ltac:(lia)) as Hm.
      pose proof (Z.div_mod n d Hd0) as Hdm.
      assert (1 <= n / d) as Hq by (apply Z.div_le_lower_bound; lia).
      rewrite Z.mod_eq in Hm by exact Hd0.
      replace (n - n / d * d) with (n - d * (n / d)) by ring.
      nia.
Qed.

Lemma cf_loop_total (M n d : Z) :
  0 < d -> cf_loop (cf_fuel d) M 0 1 1 0 n d <> None.
Proof.
  intros Hd. unfold cf_fuel. cbn [cf_loop]. rewrite floordiv_ok by lia.
  replace (1 + n / d * 0) with 1 by ring.
  destruct (M <? 1); [discriminate|].
  apply cf_loop_fuel_enough.
  - pose proof (Z.mod_pos_bound n d Hd) as Hm. rewrite Z.mod_eq in Hm by lia. lia.
  - pose proof (Z.mod_pos_bound n d Hd) as Hm. rewrite Z.mod_eq in Hm by lia.
    rewrite Z2Nat.id by apply Z.log2_up_nonneg.
    destruct (Z.eq_dec d 1) as [->|Hne].
    + rewrite Z.div_1_r. replace (Z.log2_up (1 * 1)) with 0 by reflexivity.
      rewrite Z.pow_0_r. lia.
    + pose proof (Z.log2_up_spec (d * d) ltac:(nia)) as [_ Hup].
      replace (n - n / d * d) with (n - d * (n / d)) in * by ring. nia.
Qed.

Lemma cf_inv_init (n0 d0 M : Z) :
  0 <= n0 -> 0 < d0 -> 1 <= M -> cf_inv n0 d0 M 0 1 1 0 n0 d0.
Proof. intros Hn Hd HM. unfold cf_inv. repeat split; lia. Qed.

Lemma cf_inv_step (n0 d0 M p0 q0 p1 q1 n d : Z) :
  Z.gcd n0 d0 = 1 -> M < d0 ->
  cf_inv n0 d0 M p0 q0 p1 q1 n d ->
  q0 + n / d * q1 <= M ->
  cf_inv n0 d0 M p1 q1 (p0 + n / d * p1) (q0 + n / d * q1) d (n - n / d * d).
Proof.
  intros coprime d0_large [Hd [Hn [En [Ed [Hdet [Hq0 Hq1]]]]]] Hq2.
  assert (0 <= n / d) as Ha by (apply Z.div_pos; lia).
  pose proof (Z.mod_pos_bound n d Hd) as Hm. rewrite Z.mod_eq in Hm by lia.
  replace (d * (n / d)) with (n / d * d) in Hm by ring.
  assert (n - n / d * d <> 0) as Hnz.
  { intros Hz.
    assert (n = n / d * d) as Hnd by lia.
    assert ((d | n0)) as D1 by (exists (p1 * (n / d) + p0); rewrite En at 1; rewrite Hnd at 1; ring).
    assert ((d | d0)) as D2 by (exists (q1 * (n / d) + q0); rewrite Ed at 1; rewrite Hnd at 1; ring).
    pose proof (Z.gcd_greatest n0 d0 d D1 D2) as Hg. rewrite coprime in Hg.
    apply Z.divide_1_r_nonneg in Hg; [|lia]. subst d.
    rewrite Z.div_1_r in *. lia. }
  unfold cf_inv.
  split; [lia|]. split; [lia|].
  split; [rewrite En; ring|]. split; [rewrite Ed; ring|].
  split; [destruct Hdet as [Hdet|Hdet]; [right|left]; lia|].
  split; [lia|nia].
Qed.

Lemma cf_loop_exit (n0 d0 M : Z) (fuel : nat) :
  Z.gcd n0 d0 = 1 -> M < d0 ->
  forall p0 q0 p1 q1 n d r,
    cf_inv n0 d0 M p0 q0 p1 q1 n d ->
    cf_loop fuel M p0 q0 p1 q1 n d = Some r ->
    exists p0' q0' p1' q1' n' d',
      r = Ok (p0', q0', p1', q1', n', d')
      /\ cf_inv n0 d0 M p0' q0' p1' q1' n' d'
      /\ M < q0' + n' / d' * q1'.
Proof.
  intros coprime d0_large.
  induction fuel as [|fuel IH]; intros p0 q0 p1 q1 n d r Hinv; [discriminate|].
  cbn [cf_loop]. destruct Hinv as [Hd Hrest].
  rewrite floordiv_ok by lia.
  destruct (Z.ltb_spec M (q0 + n / d * q1)) as [Hex|Hgo].
  - intros H. injection H as <-. exists p0, q0, p1, q1, n, d.
    split; [reflexivity|]. split; [split; assumption|exact Hex].
  - apply IH. apply cf_inv_step; [exact coprime|exact d0_large|split; assumption|exact Hgo].
Qed.

(** The two candidates at the exit of the loop and the facts the final
    comparison rests on.  [k] is the number of further steps along the
    last convergent that keep the denominator within the bound. *)
Lemma cf_exit_facts (n0 d0 M p0 q0 p1 q1 n d : Z) :
  1 <= M -> M < d0 ->
  cf_inv n0 d0 M p0 q0 p1 q1 n d ->
  M < q0 + n / d * q1 ->
  let k := (M - q0) / q1 in
  let A := p0 + k * p1 in
  let B := q0 + k * q1 in
  0 < q1 /\ 1 <= B <= M /\ M < B + q1
  /\ exists s e1,
       (s = 1 \/ s = -1) /\ d <= e1
       /\ p1 * B - A * q1 = s
       /\ n0 * B - A * d0 = s * e1
       /\ p1 * d0 - n0 * q1 = s * d
       /\ 0 < d /\ 0 < d0.
Proof.
  intros M_pos d0_large [Hd [Hn [En [Ed [Hdet [Hq0 Hq1]]]]]] Hex k A B.
  assert (0 <= n / d) as Ha by (apply Z.div_pos; lia).
  assert (0 < q1) as Hq1pos by nia.
  pose proof (Z.mod_pos_bound (M - q0) q1 Hq1pos) as Hm.
  rewrite Z.mod_eq in Hm by lia. fold k in Hm.
  assert (0 <= k) as Hk by (apply Z.div_pos; lia).
  assert (k < n / d) as Hka by (subst k; nia).
  pose proof (Z.mul_div_le n d Hd) as Hnd.
  split; [exact Hq1pos|]. split; [subst B; nia|]. split; [subst B; nia|].
  exists (p1 * q0 - p0 * q1), (n - k * d).
  split; [exact Hdet|]. split; [nia|].
  subst A B.
  split; [ring|]. split; [rewrite En, Ed; ring|]. split; [rewrite En, Ed; ring|].
  split; lia.
Qed.

(** No fraction with a denominator within the bound lies strictly
    between the two candidates, so none is closer to [n0/d0] than the
    nearer candidate. *)
Lemma cf_candidates_best (n0 d0 A B C D s e1 e2 p q : Z) :
  (s = 1 \/ s = -1) -> 0 < e1 -> 0 < e2 -> 0 < B -> 0 < D -> 0 < d0 ->
  C * B - A * D = s ->
  n0 * B - A * d0 = s * e1 ->
  C * d0 - n0 * D = s * e2 ->
  1 <= q -> q < B + D ->
  e1 * q <= Z.abs (n0 * q - p * d0) * B \/ e2 * q <= Z.abs (n0 * q - p * d0) * D.
Proof.
  intros Hs He1 He2 HB HD Hd0 Hdet H1 H2 Hq HqM.
  set (u := s * (p * B - A * q)).
  set (v := s * (C * q - p * D)).
  assert (B * v + D * u = q) as Hsum.
  { subst u v. destruct Hs as [-> | ->]; nia. }
  assert (u <= 0 \/ v <= 0) as [Hu|Hv] by nia.
  - left.
    assert (s * (n0 * q - p * d0) * B = e1 * q - d0 * u) as Hw.
    { subst u. destruct Hs as [-> | ->]; nia. }
    assert (e1 * q <= s * (n0 * q - p * d0) * B) by nia.
    destruct Hs as [-> | ->]; nia.
  - right.
    assert (- s * (n0 * q - p * d0) * D = e2 * q - d0 * v) as Hw.
    { subst v. destruct Hs as [-> | ->]; nia. }
    assert (e2 * q <= - s * (n0 * q - p * d0) * D) by nia.
    destruct Hs as [-> | ->]; nia.
Qed.

(** ** From the loop to [limit_denominator] *)

Lemma Qabs_diff_le_cross (x y z : Q) :
  (Qabs (x - y) <= Qabs (z - y))%Q
  <-> Z.abs (Qnum x * QDen y - Qnum y * QDen x) * QDen z
      <= Z.abs (Qnum z * QDen y - Qnum y * QDen z) * QDen x.
Proof.
  destruct x as [xn xd], y as [yn yd], z as [zn zd].
  unfold Qle, Qabs, Qminus, Qplus, Qopp. cbn [Qnum Qden].
  rewrite !Pos2Z.inj_mul.
  replace (xn * Z.pos yd + - yn * Z.pos xd) with (xn * Z.pos yd - yn * Z.pos xd) by ring.
  replace (zn * Z.pos yd + - yn * Z.pos zd) with (zn * Z.pos yd - yn * Z.pos zd) by ring.
  pose proof (Pos2Z.is_pos yd) as Hy.
  generalize (Z.abs (xn * Z.pos yd - yn * Z.pos xd)) (Z.abs (zn * Z.pos yd - yn * Z.pos zd)).
  intros u v. split; intros H; nia.
Qed.

Lemma det_coprime (A B C D s : Z) :
  (s = 1 \/ s = -1) -> C * B - A * D = s -> Z.gcd A B = 1 /\ Z.gcd C D = 1.
Proof.
  intros Hs Hdet.
  assert (forall x y, (Z.gcd x y | s) -> Z.gcd x y = 1) as Hone.
  { intros x y Hg. pose proof (Z.gcd_nonneg x y).
    assert ((Z.gcd x y | 1)) as H1.
    { destruct Hs as [-> | ->]; [exact Hg|]. apply Z.divide_opp_r in Hg. exact Hg. }
    apply Z.divide_1_r_nonneg in H1; lia. }
  split; apply Hone; rewrite <- Hdet.
  - apply Z.divide_sub_r; [apply Z.divide_mul_r|apply Z.divide_mul_l].
    + apply Z.gcd_divide_r.
    + apply Z.gcd_divide_l.
  - apply Z.divide_sub_r; [apply Z.divide_mul_l|apply Z.divide_mul_r].
    + apply Z.gcd_divide_l.
    + apply Z.gcd_divide_r.
Qed.

Lemma Fraction_coprime (n d : Z) :
  0 < d -> Z.gcd n d = 1 -> Fraction n d = Ok (n # Z.to_pos d).
Proof.
  intros Hd Hg. unfold Fraction.
  destruct (Z.eqb_spec d 0); [lia|]. destruct (Z.ltb_spec 0 d); [|lia].
  rewrite Qred_identity; [reflexivity|].
  cbn [Qnum Qden]. rewrite Z2Pos.id by exact Hd. exact Hg.
Qed.

(** [limit_denominator] returns, in lowest terms, a fraction whose
    denominator is within the bound and that is at least as close to
    [self] as any other fraction with such a denominator. *)
Lemma limit_denominator_best (self : Q) (M : Z) :
  Qred self = self -> 0 <= Qnum self -> 1 <= M ->
  exists frac,
    limit_denominator self M = Ok frac
    /\ Qred frac = frac
    /\ 1 <= denominator frac <= M
    /\ forall p q, 1 <= q <= M ->
         (Qabs (frac - self) <= Qabs ((p # Z.to_pos q) - self))%Q.
Proof.
  intros Hcanon Hnn HM.
  unfold limit_denominator, limit_denominator_fuel.
  destruct (Z.ltb_spec M 1) as [|_]; [lia|].
  destruct (Z.leb_spec (denominator self) M) as [Hsmall|Hlarge].
  - exists self. split; [reflexivity|]. split; [exact Hcanon|].
    split; [unfold denominator in *; lia|].
    intros p q Hq. setoid_replace (self - self)%Q with 0%Q by ring.
    apply Qabs_nonneg.
  - apply Qred_identity2 in Hcanon.
    unfold numerator, denominator in *.
    destruct self as [n0 pd0]. cbn [Qnum Qden] in *.
    set (d0 := Z.pos pd0) in *.
    pose proof (cf_loop_total M n0 d0 ltac:(subst d0; lia)) as Htot.
    destruct (cf_loop (cf_fuel d0) M 0 1 1 0 n0 d0) as [r|] eqn:Eloop; [|contradiction].
    destruct (cf_loop_exit n0 d0 M (cf_fuel d0) Hcanon Hlarge 0 1 1 0 n0 d0 r) as
      [p0 [q0 [p1 [q1 [n [d [-> [Hinv Hex]]]]]]]].
    { apply cf_inv_init; lia. }
    { exact Eloop. }
    destruct (cf_exit_facts n0 d0 M p0 q0 p1 q1 n d HM Hlarge Hinv Hex)
      as [Hq1 [HB [HBq [s [e1 [Hs [He1 [Hdet [H1 [H2 [Hd Hd0]]]]]]]]]]].
    destruct Hinv as [_ [_ [_ [_ [_ [_ Hq1M]]]]]].
    rewrite floordiv_ok by lia. cbn [bind].
    set (k := (M - q0) / q1) in *.
    destruct (det_coprime (p0 + k * p1) (q0 + k * q1) p1 q1 s Hs Hdet) as [G1 G2].
    rewrite (Fraction_coprime (p0 + k * p1) (q0 + k * q1)) by (try exact G1; lia).
    rewrite (Fraction_coprime p1 q1) by (try exact G2; lia).
    cbn [bind].
    set (b1 := (p0 + k * p1) # Z.to_pos (q0 + k * q1)).
    set (b2 := p1 # Z.to_pos q1).
    assert (forall p q, 1 <= q <= M ->
              (Qabs (b1 - (n0 # pd0)) <= Qabs ((p # Z.to_pos q) - (n0 # pd0)))%Q
              \/ (Qabs (b2 - (n0 # pd0)) <= Qabs ((p # Z.to_pos q) - (n0 # pd0)))%Q) as Hbest.
    { intros p q Hq.
      destruct (cf_candidates_best n0 d0 (p0 + k * p1) (q0 + k * q1) p1 q1 s e1 d p q)
        as [Hc|Hc]; try assumption; try lia.
      - left. apply Qabs_diff_le_cross. subst b1. cbn [Qnum Qden].
        rewrite !Z2Pos.id by lia. fold d0.
        replace ((p0 + k * p1) * d0 - n0 * (q0 + k * q1)) with (- (s * e1)) by lia.
        replace (p * d0 - n0 * q) with (- (n0 * q - p * d0)) by ring.
        rewrite !Z.abs_opp.
        replace (Z.abs (s * e1)) with e1 by (destruct Hs as [-> | ->]; lia).
        exact Hc.
      - right. apply Qabs_diff_le_cross. subst b2. cbn [Qnum Qden].
        rewrite !Z2Pos.id by lia. fold d0.
        replace (p1 * d0 - n0 * q1) with (s * d) by lia.
        replace (p * d0 - n0 * q) with (- (n0 * q - p * d0)) by ring.
        rewrite !Z.abs_opp.
        replace (Z.abs (s * d)) with d by (destruct Hs as [-> | ->]; lia).
        exact Hc. }
    destruct (Qle_bool (Qabs (b2 - (n0 # pd0))) (Qabs (b1 - (n0 # pd0)))) eqn:Ecmp.
    + apply Qle_bool_iff in Ecmp.
      exists b2. split; [reflexivity|]. split.
      { apply Qred_identity. subst b2. cbn [Qnum Qden]. rewrite Z2Pos.id by lia. exact G2. }
      split.
      { subst b2. unfold denominator. cbn [Qden]. rewrite Z2Pos.id by lia. lia. }
      intros p q Hq. destruct (Hbest p q Hq) as [H|H]; [|exact H].
      apply Qle_trans with (Qabs (b1 - (n0 # pd0))); assumption.
    + assert (~ (Qabs (b2 - (n0 # pd0)) <= Qabs (b1 - (n0 # pd0)))%Q) as Hlt.
      { intros H. apply Qle_bool_iff in H. congruence. }
      apply Qnot_le_lt in Hlt.
      exists b1. split; [reflexivity|]. split.
      { apply Qred_identity. subst b1. cbn [Qnum Qden]. rewrite Z2Pos.id by lia. exact G1. }
      split.
      { subst b1. unfold denominator. cbn [Qden]. rewrite Z2Pos.id by lia. lia. }
      intros p q Hq. destruct (Hbest p q Hq) as [H|H]; [exact H|].
      apply Qle_trans with (Qabs (b2 - (n0 # pd0))); [apply Qlt_le_weak|]; assumption.
Qed.

Lemma cf_loop_raises (fuel : nat) :
  forall M p0 q0 p1 q1 n d e,
    cf_loop fuel M p0 q0 p1 q1 n d = Some (Raise e) -> e = ZeroDivisionError.
Proof.
  induction fuel as [|fuel IH]; intros M p0 q0 p1 q1 n d e; [discriminate|].
  cbn [cf_loop]. unfold floordiv. destruct (d =? 0).
  - intros H. injection H as <-. reflexivity.
  - destruct (M <? q0 + n / d * q1); [discriminate|]. apply IH.
Qed.

Lemma bind_never_raises {A B : Type} (m : result A) (f : A -> result B) (e : Exn) :
  m <> Raise e -> (forall a, f a <> Raise e) -> bind m f <> Raise e.
Proof.
  intros Hm Hf. destruct m as [a|e']; cbn [bind]; [apply Hf|].
  intros H. apply Hm. injection H as ->. reflexivity.
Qed.

Lemma floordiv_in_fuel (n d : Z) : floordiv n d <> Raise LoopBoundReached.
Proof. unfold floordiv. destruct (d =? 0); discriminate. Qed.

Lemma Fraction_in_fuel (n d : Z) : Fraction n d <> Raise LoopBoundReached.
Proof. unfold Fraction. destruct (d =? 0); [|destruct (0 <? d)]; discriminate. Qed.

(** The fuel of [limit_denominator] is never exhausted. *)
Lemma limit_denominator_ends (self : Q) (M : Z) :
  limit_denominator self M <> Raise LoopBoundReached.
Proof.
  unfold limit_denominator, limit_denominator_fuel.
  destruct (M <? 1); [discriminate|].
  destruct (denominator self <=? M); [discriminate|].
  pose proof (cf_loop_total M (numerator self) (denominator self)
                ltac:(unfold denominator; lia)) as Htot.
  destruct (cf_loop _ M 0 1 1 0 _ _) as [[[[[[[p0 q0] p1] q1] n] d]|e]|] eqn:E;
    [| |contradiction].
  - apply bind_never_raises; [apply floordiv_in_fuel|]. intros k.
    apply bind_never_raises; [apply Fraction_in_fuel|]. intros bound1.
    apply bind_never_raises; [apply Fraction_in_fuel|]. intros bound2.
    destruct (Qle_bool _ _); discriminate.
  - apply cf_loop_raises in E. subst e. discriminate.
Qed.

Lemma int_digits_nonneg (digits : list ascii) :
  forall acc value, 0 <= acc -> int_digits acc digits = Ok value -> 0 <= value.
Proof.
  induction digits as [|c rest IH]; intros acc value Hacc; cbn [int_digits].
  - intros H. injection H as <-. exact Hacc.
  - destruct (is_char c "0"%char); [apply IH; lia|].
    destruct (is_char c "1"%char); [apply IH; lia|discriminate].
Qed.

Lemma int_base2_nonneg (measured : list ascii) (value : Z) :
  int_base2 measured = Ok value -> 0 <= value.
Proof.
  unfold int_base2. destruct measured as [|c rest]; [discriminate|].
  apply int_digits_nonneg. lia.
Qed.

Lemma phase_fraction_value (value : Z) (n_count : nat) :
  (phase_fraction value n_count == inject_Z value / inject_Z (2 ^ Z.of_nat n_count))%Q.
Proof.
  unfold phase_fraction. rewrite Qred_correct, Qmake_Qdiv.
  rewrite Z2Pos.id by (apply Z.pow_pos_nonneg; lia). reflexivity.
Qed.

(** ** The multiplier never appends an addition *)

Lemma for_enumerate_preserves {A St : Type} (P : St -> Prop)
  (body : nat -> A -> St -> result St) (l : list A) :
  (forall i x s s', body i x s = Ok s' -> P s -> P s') ->
  forall i s s', for_enumerate body i l s = Ok s' -> P s -> P s'.
Proof.
  intros Hbody. induction l as [|x0 l IH]; intros i s s'; simpl.
  - intros H. injection H as <-. auto.
  - destruct (body i x0 s) as [s1|e] eqn:E; simpl; [|discriminate].
    intros H Hs. eapply IH; [exact H|]. eapply Hbody; eassumption.
Qed.

Section MultiplierArity.

Variable L : AdderLibrary.

Lemma append_num_qubits (g : Gate) (qargs : list nat) (qc qc' : QuantumCircuit) :
  append L g qargs qc = Ok qc' -> num_qubits qc' = num_qubits qc.
Proof.
  unfold append. destruct (negb _); [discriminate|]. destruct (negb _); [discriminate|].
  intros H. injection H as <-. reflexivity.
Qed.

Lemma x_where_num_qubits (c : ascii) (bits : list ascii) (reg : QuantumRegister)
  (qc qc' : QuantumCircuit) :
  x_where L c bits reg qc = Ok qc' -> num_qubits qc' = num_qubits qc.
Proof.
  unfold x_where. intros H.
  apply (for_enumerate_preserves (fun s => num_qubits s = num_qubits qc)) in H;
    [exact H| |reflexivity].
  intros i bit s s' Hb Hs. destruct (is_char bit c).
  - destruct (reg_get reg i) as [q|e]; simpl in Hb; [|discriminate].
    apply append_num_qubits in Hb. congruence.
  - injection Hb as <-. exact Hs.
Qed.

Lemma modular_add_const_mod_N_num_qubits (a N : Z) (n_bits : nat) (qc : QuantumCircuit) :
  modular_add_const_mod_N L a N n_bits = Ok qc ->
  num_qubits qc = (n_bits + n_bits + 1 + 1)%nat.
Proof.
  unfold modular_add_const_mod_N.
  destruct (CDKMRippleCarryAdder n_bits) as [adder|e]; cbn [bind]; [|discriminate].
  destruct (x_where L "1"%char _ _ _) as [qc1|e] eqn:E1; cbn [bind]; [|discriminate].
  destruct (append L (AdderGate adder) _ qc1) as [qc2|e] eqn:E2; cbn [bind]; [|discriminate].
  destruct (x_where L "0"%char _ _ qc2) as [qc3|e] eqn:E3; cbn [bind]; [|discriminate].
  destruct (reg_get _ 0) as [flag0|e]; cbn [bind]; [|discriminate].
  destruct (mcx L _ flag0 qc3) as [qc4|e] eqn:E4; cbn [bind]; [|discriminate].
  destruct (x_where L "0"%char _ _ qc4) as [qc5|e] eqn:E5; cbn [bind]; [|discriminate].
  destruct (x_where L "1"%char _ _ qc5) as [qc6|e] eqn:E6; cbn [bind]; [|discriminate].
  intros E7.
  apply x_where_num_qubits in E1, E3, E5, E6.
  apply append_num_qubits in E2, E7. unfold mcx in E4. apply append_num_qubits in E4.
  simpl in E1. congruence.
Qed.

(** A multiplier that is built at all holds no gate: each addition that is
    not skipped is a controlled gate on [2*n_bits + 3] qubits appended on
    [2*n_bits + 2]. *)
Lemma multiplier_is_empty (a N : Z) (n_bits : nat) (qc : QuantumCircuit) :
  controlled_multiply_const_mod_N L a N n_bits = Ok qc -> data qc = [].
Proof.
  unfold controlled_multiply_const_mod_N, for_range. intros H.
  apply (for_enumerate_preserves (fun s => data s = [])) in H; [exact H| |reflexivity].
  intros j i s s' Hb Hs. unfold multiplier_body in Hb.
  destruct (N =? 0); [discriminate|].
  destruct (_ =? 0); [injection Hb as <-; exact Hs|].
  destruct (modular_add_const_mod_N L _ N n_bits) as [add|e] eqn:Ea; cbn [bind] in Hb;
    [|discriminate].
  apply modular_add_const_mod_N_num_qubits in Ea.
  destruct (reg_get _ i) as [xi|e]; cbn [bind] in Hb; [|discriminate].
  destruct (reg_get _ 0) as [flag0|e]; cbn [bind] in Hb; [|discriminate].
  unfold append in Hb.
  assert ((length ([xi] ++ reg_all (mkReg n_bits n_bits)
                   ++ reg_all (mkReg (2 * n_bits) n_bits) ++ [flag0])
           =? gate_num_qubits L (Controlled 1 (to_gate add)))%nat = false) as Hlen.
  { apply Nat.eqb_neq. rewrite !length_app. unfold reg_all. cbn [reg_offset reg_size].
    rewrite !length_seq. simpl. rewrite Ea. lia. }
  rewrite Hlen in Hb. discriminate.
Qed.

End MultiplierArity.

(** ** The modular adder over an adder of [2*n_bits + 1] qubits *)

Section DocumentedAdder.

Variable L : AdderLibrary.
Hypothesis adder_narrow : forall n : nat, adder_num_qubits L n = (2 * n + 1)%nat.

Lemma x_where_ok (c : ascii) (bits : list ascii) (reg : QuantumRegister) (qc : QuantumCircuit) :
  (length bits <= reg_size reg)%nat ->
  (reg_offset reg + reg_size reg <= num_qubits qc)%nat ->
  exists qc', x_where L c bits reg qc = Ok qc' /\ num_qubits qc' = num_qubits qc.
Proof.
  intros Hlen Hfit. unfold x_where.
  apply (for_enumerate_inv (fun s => num_qubits s = num_qubits qc)); [reflexivity|].
  intros j bit s0 Hs0 Hnth. simpl.
  destruct (is_char bit c); [|eauto].
  assert (nth_error (rev bits) j <> None) as Hj by congruence.
  apply nth_error_Some in Hj. rewrite length_rev in Hj.
  unfold reg_get. destruct (Nat.ltb_spec j (reg_size reg)); [|lia]. cbn [bind].
  unfold x. rewrite append_ok.
  - eexists. split; [reflexivity|exact Hs0].
  - reflexivity.
  - constructor; [lia|constructor].
Qed.

(** With such an adder the builder succeeds whenever [a] and [N] fit in
    [n_bits] binary digits, and returns a circuit over [2*n_bits + 2]
    qubits. *)
Lemma modular_add_const_mod_N_builds (a N : Z) (n_bits : nat) :
  (1 <= n_bits)%nat -> 0 <= a < N -> N < 2 ^ Z.of_nat n_bits ->
  exists qc,
    modular_add_const_mod_N L a N n_bits = Ok qc
    /\ num_qubits qc = (2 * n_bits + 2)%nat.
Proof.
  intros Hn Ha HN. unfold modular_add_const_mod_N, CDKMRippleCarryAdder.
  destruct (Nat.ltb_spec n_bits 1); [lia|]. cbn [bind].
  assert (length (format_b a n_bits) = n_bits) as La by (apply format_b_length; lia).
  assert (length (format_b N n_bits) = n_bits) as LN by (apply format_b_length; lia).
  assert (forall c bits reg qc,
            length bits = n_bits -> reg_size reg = n_bits ->
            (reg_offset reg + n_bits <= n_bits + n_bits + 1 + 1)%nat ->
            num_qubits qc = (n_bits + n_bits + 1 + 1)%nat ->
            exists qc', x_where L c bits reg qc = Ok qc'
                        /\ num_qubits qc' = (n_bits + n_bits + 1 + 1)%nat) as Hx.
  { intros c bits reg qc Hb Hr Ho Hq.
    destruct (x_where_ok c bits reg qc) as [qc' [E Q]]; [lia|lia|].
    exists qc'. split; [exact E|lia]. }
  assert (forall g qargs qc,
            length qargs = gate_num_qubits L g ->
            Forall (fun q => (q < n_bits + n_bits + 1 + 1)%nat) qargs ->
            num_qubits qc = (n_bits + n_bits + 1 + 1)%nat ->
            exists qc', append L g qargs qc = Ok qc'
                        /\ num_qubits qc' = (n_bits + n_bits + 1 + 1)%nat) as Hap.
  { intros g qargs qc Hl Hf Hq. rewrite append_ok; [|exact Hl|rewrite Hq; exact Hf].
    eexists. split; [reflexivity|exact Hq]. }
  assert (Forall (fun q => (q < n_bits + n_bits + 1 + 1)%nat)
            (reg_all (mkReg 0 n_bits) ++ reg_all (mkReg n_bits n_bits)
             ++ reg_all (mkReg (2 * n_bits) 1))) as Hregs.
  { unfold reg_all. cbn [reg_offset reg_size].
    repeat (apply Forall_app; split); apply Forall_seq_lt; lia. }
  assert (length (reg_all (mkReg 0 n_bits) ++ reg_all (mkReg n_bits n_bits)
                  ++ reg_all (mkReg (2 * n_bits) 1)) = (2 * n_bits + 1)%nat) as Lregs.
  { rewrite !length_app. unfold reg_all. cbn [reg_offset reg_size].
    rewrite !length_seq. lia. }
  destruct (Hx "1"%char (format_b a n_bits) (mkReg n_bits n_bits)
              (mkCircuit (n_bits + n_bits + 1 + 1) 0 []))
    as [qc1 [E1 Q1]]; [exact La|reflexivity|simpl; lia|reflexivity|].
  rewrite E1. cbn [bind].
  destruct (Hap (AdderGate n_bits)
              (reg_all (mkReg 0 n_bits) ++ reg_all (mkReg n_bits n_bits)
               ++ reg_all (mkReg (2 * n_bits) 1)) qc1)
    as [qc2 [E2 Q2]]; [cbn [gate_num_qubits]; rewrite adder_narrow; exact Lregs
                      |exact Hregs|exact Q1|].
  rewrite E2. cbn [bind].
  destruct (Hx "0"%char (format_b N n_bits) (mkReg 0 n_bits) qc2)
    as [qc3 [E3 Q3]]; [exact LN|reflexivity|simpl; lia|exact Q2|].
  rewrite E3. cbn [bind].
  unfold reg_get. cbn [reg_size reg_offset Nat.ltb Nat.leb bind].
  unfold mcx.
  destruct (Hap (MCXGate (length (reg_all (mkReg 0 n_bits))))
              (reg_all (mkReg 0 n_bits) ++ [(2 * n_bits + 1 + 0)%nat]) qc3)
    as [qc4 [E4 Q4]].
  { rewrite length_app. cbn [gate_num_qubits length]. lia. }
  { apply Forall_app. split.
    - unfold reg_all. cbn [reg_offset reg_size]. apply Forall_seq_lt. lia.
    - constructor; [lia|constructor]. }
  { exact Q3. }
  rewrite E4. cbn [bind].
  destruct (Hx "0"%char (format_b N n_bits) (mkReg 0 n_bits) qc4)
    as [qc5 [E5 Q5]]; [exact LN|reflexivity|simpl; lia|exact Q4|].
  rewrite E5. cbn [bind].
  destruct (Hx "1"%char (format_b N n_bits) (mkReg n_bits n_bits) qc5)
    as [qc6 [E6 Q6]]; [exact LN|reflexivity|simpl; lia|exact Q5|].
  rewrite E6. cbn [bind].
  destruct (Hap (Controlled 1 (AdderInverseGate n_bits))
              ([(2 * n_bits + 1 + 0)%nat] ++ reg_all (mkReg 0 n_bits)
               ++ reg_all (mkReg n_bits n_bits) ++ reg_all (mkReg (2 * n_bits) 1)) qc6)
    as [qc7 [E7 Q7]].
  { cbn [gate_num_qubits]. rewrite adder_narrow.
    change ([(2 * n_bits + 1 + 0)%nat] ++ ?l) with ((2 * n_bits + 1 + 0)%nat :: l).
    cbn [length app]. rewrite Lregs. lia. }
  { constructor; [lia|exact Hregs]. }
  { exact Q6. }
  exists qc7. split; [exact E7|lia].
Qed.

End DocumentedAdder.

(** ** What the exponentiation gate is made of *)

Lemma for_seq_ind {St : Type} (P : nat -> St -> Prop) (body : nat -> St -> result St) :
  forall (len start j : nat) (s : St),
    P start s ->
    (forall i s0, (start <= i < start + len)%nat -> P i s0 ->
       exists s1, body i s0 = Ok s1 /\ P (S i) s1) ->
    exists s', for_enumerate (fun _ i s => body i s) j (seq start len) s = Ok s'
               /\ P (start + len)%nat s'.
Proof.
  induction len as [|len IH]; intros start j s Hs Hbody; simpl.
  - exists s. rewrite Nat.add_0_r. auto.
  - destruct (Hbody start s ltac:(lia) Hs) as [s1 [E1 P1]]. rewrite E1. simpl.
    destruct (IH (S start) (S j) s1 P1) as [s' [E' P']].
    + intros i s0 Hi. apply Hbody. lia.
    + exists s'. split; [exact E'|]. replace (start + S len)%nat with (S start + len)%nat by lia.
      exact P'.
Qed.

Lemma for_range_ind {St : Type} (P : nat -> St -> Prop) (body : nat -> St -> result St)
  (n : nat) (s : St) :
  P 0%nat s ->
  (forall i s0, (i < n)%nat -> P i s0 -> exists s1, body i s0 = Ok s1 /\ P (S i) s1) ->
  exists s', for_range n body s = Ok s' /\ P n s'.
Proof.
  intros Hs Hbody. unfold for_range.
  destruct (for_seq_ind P body n 0 0 s Hs) as [s' [E H]].
  - intros i s0 Hi. apply Hbody. lia.
  - exists s'. auto.
Qed.

(** The gate is an [X] on the first work qubit followed, for each counting
    qubit [i], by one gate controlled on that qubit alone; the controlled
    gate is the circuit of [quantum_modular_addition_clean] for the
    constant [a^(2^i) mod N], that is, an addition. *)
Lemma controlled_modular_exponentiation_structure (L : AdderLibrary) (a N : Z) (n_count : nat) :
  (forall n : nat, (2 * n <= adder_num_qubits L n)%nat) ->
  2 <= N ->
  exists n_bits qc,
    ceil_log2 N = Ok n_bits
    /\ controlled_modular_exponentiation_circuit L a N n_count = Ok qc
    /\ length (data qc) = S n_count
    /\ nth_error (data qc) 0 = Some (XGate, [n_count])
    /\ forall i, (i < n_count)%nat ->
         exists mod_add,
           quantum_modular_addition_clean L (a ^ 2 ^ Z.of_nat i mod N) N n_bits = Ok mod_add
           /\ nth_error (data qc) (S i)
              = Some (Controlled 1 (to_gate mod_add),
                      i :: seq n_count (adder_num_qubits L n_bits)).
Proof.
  intros adder_wide HN. destruct (ceil_log2_ok N HN) as [n_bits [En [Hn HNle]]].
  exists n_bits. unfold controlled_modular_exponentiation_circuit.
  rewrite En. cbn [bind]. unfold CDKMRippleCarryAdder.
  destruct (Nat.ltb_spec n_bits 1); [lia|]. cbn [bind].
  pose proof (adder_wide n_bits) as Hw.
  unfold reg_get at 1. cbn [reg_size reg_offset].
  destruct (Nat.ltb_spec 0 (adder_num_qubits L n_bits)); [|lia]. cbn [bind].
  unfold x. rewrite append_ok; [|reflexivity|constructor; [simpl; lia|constructor]].
  cbn [bind num_qubits num_clbits data app]. rewrite Nat.add_0_r.
  destruct (for_range_ind
              (fun k qc =>
                 num_qubits qc = (n_count + adder_num_qubits L n_bits)%nat
                 /\ length (data qc) = S k
                 /\ nth_error (data qc) 0 = Some (XGate, [n_count])
                 /\ forall i, (i < k)%nat ->
                      exists mod_add,
                        quantum_modular_addition_clean L (a ^ 2 ^ Z.of_nat i mod N) N n_bits
                        = Ok mod_add
                        /\ nth_error (data qc) (S i)
                           = Some (Controlled 1 (to_gate mod_add),
                                   i :: seq n_count (adder_num_qubits L n_bits)))
              (modexp_body L a N n_bits (mkReg 0 n_count)
                 (mkReg n_count (adder_num_qubits L n_bits)))
              n_count
              (mkCircuit (n_count + adder_num_qubits L n_bits) 0 [(XGate, [n_count])]))
    as [qc [E [Hq [Hlen [Hhd Hall]]]]].
  - cbn [num_qubits data length]. repeat split. intros i Hi. lia.
  - intros i s0 Hi [Hq [Hlen [Hhd Hall]]]. unfold modexp_body.
    rewrite pow_mod_ok by (try lia; apply Z.pow_nonneg; lia). cbn [bind].
    destruct (quantum_modular_addition_clean_ok L adder_wide
                (a ^ 2 ^ Z.of_nat i mod N) N n_bits Hn) as [madd [Em Hqm]].
    { pose proof (Z.mod_pos_bound (a ^ 2 ^ Z.of_nat i) N). lia. }
    rewrite Em. cbn [bind]. unfold reg_get. cbn [reg_size reg_offset].
    destruct (Nat.ltb_spec i n_count); [|lia]. cbn [bind].
    rewrite append_ok.
    + eexists. split; [reflexivity|]. cbn [num_qubits data].
      split; [exact Hq|]. split; [rewrite length_app; simpl; lia|].
      split; [rewrite nth_error_app1 by lia; exact Hhd|].
      intros i' Hi'. destruct (Nat.eq_dec i' i) as [->|Hne].
      * exists madd. split; [exact Em|].
        rewrite nth_error_app2 by lia. rewrite Hlen, Nat.sub_diag. reflexivity.
      * destruct (Hall i' ltac:(lia)) as [m' [Em' Hn']].
        exists m'. split; [exact Em'|]. rewrite nth_error_app1 by lia. exact Hn'.
    + cbn [gate_num_qubits to_gate]. unfold reg_all. cbn [reg_offset reg_size].
      simpl. rewrite length_seq, Hqm. reflexivity.
    + constructor; [lia|]. unfold reg_all. cbn [reg_offset reg_size].
      apply Forall_seq_lt. lia.
  - exists qc. auto.
Qed.

(** ** True division *)

Lemma Ok_inj {A : Type} (x y : A) : Ok x = Ok y -> x = y.
Proof. congruence. Qed.

Lemma round_half_even_exact (q d : Z) : 0 < d -> round_half_even (q * d) d = q.
Proof.
  intros Hd. unfold round_half_even.
  rewrite Z.div_mul by lia. rewrite Z.mod_mul by lia.
  destruct (Z.ltb_spec (2 * 0) d); [reflexivity|lia].
Qed.

Lemma round_half_even_nonneg (n d : Z) : 0 <= n -> 0 < d -> 0 <= round_half_even n d.
Proof.
  intros Hn Hd. unfold round_half_even.
  pose proof (Z.div_pos n d Hn Hd) as Hq.
  destruct (2 * (n mod d) <? d); [exact Hq|].
  destruct (d <? 2 * (n mod d)); [lia|]. destruct (Z.even (n / d)); lia.
Qed.

Lemma Qred_integer (z : Z) : Qred (z # 1) = z # 1.
Proof.
  apply Qred_identity. cbn [Qnum Qden]. rewrite Z.gcd_1_r. reflexivity.
Qed.

(** The result of a division that returns is a fraction in lowest terms,
    and it is not negative when the operands are not. *)
Lemma int_true_div_canonical (a b : Z) (q : Q) :
  int_true_div a b = Ok q -> Qred q = q.
Proof.
  unfold int_true_div. destruct (b =? 0); [discriminate|].
  destruct (a =? 0); [intros H; injection H as <-; reflexivity|].
  destruct (0 <=? Z.max _ _).
  - destruct (2 ^ 1024 <=? _); [discriminate|].
    intros H. apply Ok_inj in H. subst q. apply Qred_integer.
  - intros H. apply Ok_inj in H. subst q. apply Qred_involutive.
Qed.

Lemma int_true_div_nonneg (a b : Z) (q : Q) :
  0 <= a -> 0 < b -> int_true_div a b = Ok q -> 0 <= Qnum q.
Proof.
  intros Ha Hb. unfold int_true_div. destruct (b =? 0); [discriminate|].
  destruct (Z.eqb_spec a 0) as [|Ha0]; [intros H; injection H as <-; cbn; lia|].
  assert (Z.sgn a * Z.sgn b = 1) as -> by (rewrite !Z.sgn_pos by lia; reflexivity).
  rewrite (Z.abs_eq a) by lia. rewrite (Z.abs_eq b) by lia.
  set (qe := Z.max (quotient_exponent a b - 52) (-1074)).
  destruct (Z.leb_spec 0 qe) as [Hqe|Hqe].
  - destruct (2 ^ 1024 <=? _); [discriminate|].
    intros H. apply Ok_inj in H. subst q. cbn [Qnum].
    pose proof (round_half_even_nonneg a (b * 2 ^ qe) Ha
                  ltac:(apply Z.mul_pos_pos; [lia|apply Z.pow_pos_nonneg; lia])) as Hm.
    assert (0 < 2 ^ qe) by (apply Z.pow_pos_nonneg; lia). nia.
  - intros H. apply Ok_inj in H. subst q.
    assert (0 < 2 ^ (- qe)) as Hp by (apply Z.pow_pos_nonneg; lia).
    pose proof (round_half_even_nonneg (a * 2 ^ (- qe)) b ltac:(nia) Hb) as Hm.
    set (m := round_half_even (a * 2 ^ (- qe)) b) in *.
    pose proof (Qred_correct ((1 * m) # Z.to_pos (2 ^ (- qe)))) as Heq.
    unfold Qeq in Heq. cbn [Qnum Qden] in Heq.
    pose proof (Pos2Z.is_pos (Qden (Qred ((1 * m) # Z.to_pos (2 ^ (- qe)))))).
    pose proof (Pos2Z.is_pos (Z.to_pos (2 ^ (- qe)))).
    nia.
Qed.

Lemma int_true_div_zero (b : Z) : b <> 0 -> int_true_div 0 b = Ok (0 # 1).
Proof.
  intros Hb. unfold int_true_div. destruct (Z.eqb_spec b 0); [contradiction|reflexivity].
Qed.

Lemma quotient_exponent_pow2 (value k : Z) :
  0 < value -> 0 <= k -> quotient_exponent value (2 ^ k) = Z.log2 value - k.
Proof.
  intros Hv Hk. unfold quotient_exponent. rewrite Z.log2_pow2 by exact Hk.
  pose proof (Z.log2_spec value Hv) as [Hlo _].
  pose proof (Z.log2_nonneg value) as Hb.
  assert (at_least_pow2 value (2 ^ k) (Z.log2 value - k) = true) as ->; [|reflexivity].
  unfold at_least_pow2. destruct (Z.leb_spec 0 (Z.log2 value - k)) as [Hge|Hlt].
  - apply Z.leb_le. rewrite <- Z.pow_add_r by lia.
    replace (k + (Z.log2 value - k)) with (Z.log2 value) by ring. exact Hlo.
  - apply Z.leb_le.
    replace k with (Z.log2 value + - (Z.log2 value - k)) at 1 by ring.
    rewrite Z.pow_add_r by lia.
    apply Z.mul_le_mono_nonneg_r; [apply Z.pow_nonneg; lia|exact Hlo].
Qed.

(** A value below [2^53] divided by [2^k], [k <= 1074], is a double: the
    division is exact. *)
Lemma int_true_div_exact (value : Z) (n_count : nat) :
  0 <= value < 2 ^ 53 -> (n_count <= 1074)%nat ->
  int_true_div value (2 ^ Z.of_nat n_count) = Ok (phase_fraction value n_count).
Proof.
  intros [Hv Hlt] Hn. set (k := Z.of_nat n_count).
  assert (0 <= k <= 1074) as Hk by (unfold k; lia).
  assert (0 < 2 ^ k) as Hpow by (apply Z.pow_pos_nonneg; lia).
  unfold phase_fraction. fold k.
  destruct (Z.eq_dec value 0) as [->|Hv0].
  - rewrite int_true_div_zero by lia. reflexivity.
  - unfold int_true_div.
    destruct (Z.eqb_spec (2 ^ k) 0); [lia|]. destruct (Z.eqb_spec value 0); [contradiction|].
    assert (Z.sgn value * Z.sgn (2 ^ k) = 1) as -> by (rewrite !Z.sgn_pos by lia; reflexivity).
    rewrite (Z.abs_eq value) by lia. rewrite (Z.abs_eq (2 ^ k)) by lia.
    rewrite quotient_exponent_pow2 by lia.
    assert (Z.log2 value < 53) as Hb by (apply Z.log2_lt_pow2; lia).
    pose proof (Z.log2_nonneg value) as Hb0.
    set (qe := Z.max (Z.log2 value - k - 52) (-1074)).
    assert (qe <= - k) as Hqe by (unfold qe; lia).
    destruct (Z.leb_spec 0 qe) as [Hpos|Hneg].
    + assert (qe = 0) as Hq0 by lia. assert (k = 0) as Hk0 by lia.
      rewrite Hq0, Hk0. change (2 ^ 0) with 1.
      pose proof (round_half_even_exact value 1 ltac:(lia)) as Hr.
      rewrite Z.mul_1_r in Hr. rewrite !Z.mul_1_r, Z.mul_1_l, Hr.
      destruct (Z.leb_spec (2 ^ 1024) value) as [Hov|_].
      { assert (2 ^ 53 < 2 ^ 1024) by (apply Z.pow_lt_mono_r; lia). lia. }
      f_equal. symmetry. change (Z.to_pos 1) with 1%positive. apply Qred_integer.
    + assert (2 ^ (- qe) = 2 ^ (- qe - k) * 2 ^ k) as Hsplit.
      { rewrite <- Z.pow_add_r by lia. f_equal. ring. }
      rewrite Hsplit, Z.mul_assoc, round_half_even_exact by exact Hpow.
      f_equal. apply Qred_complete. unfold Qeq. cbn [Qnum Qden].
      assert (0 < 2 ^ (- qe - k)) by (apply Z.pow_pos_nonneg; lia).
      rewrite !Z2Pos.id by nia. ring.
Qed.

(** A quotient below one never overflows. *)
Lemma int_true_div_below_one (a b : Z) :
  0 <= a < b -> exists q, int_true_div a b = Ok q.
Proof.
  intros [Ha Hab]. unfold int_true_div.
  destruct (Z.eqb_spec b 0); [lia|].
  destruct (Z.eqb_spec a 0); [eauto|].
  rewrite (Z.abs_eq a) by lia. rewrite (Z.abs_eq b) by lia.
  assert (quotient_exponent a b <= 0) as He.
  { unfold quotient_exponent.
    pose proof (Z.log2_le_mono a b ltac:(lia)).
    destruct (at_least_pow2 a b (Z.log2 a - Z.log2 b)); lia. }
  destruct (Z.leb_spec 0 (Z.max (quotient_exponent a b - 52) (-1074))); [lia|eauto].
Qed.

(** ** Basis states *)

Lemma set_bit_length (q : nat) (v : bool) (s : list bool) :
  length (set_bit q v s) = length s.
Proof.
  revert q. induction s as [|b s IH]; intros q; destruct q; cbn [set_bit length];
    try reflexivity.
  rewrite IH. reflexivity.
Qed.

Lemma nth_set_bit_other (p q : nat) (v : bool) (s : list bool) :
  p <> q -> nth p (set_bit q v s) false = nth p s false.
Proof.
  revert p q. induction s as [|b s IH]; intros p q Hne;
    destruct q; destruct p; cbn [set_bit nth]; try reflexivity; try lia.
  apply IH. lia.
Qed.

Lemma nth_set_bit_same (q : nat) (v : bool) (s : list bool) :
  (q < length s)%nat -> nth q (set_bit q v s) false = v.
Proof.
  revert q. induction s as [|b s IH]; intros q Hq; cbn [length] in Hq; [lia|].
  destruct q; cbn [set_bit nth]; [reflexivity|]. apply IH. lia.
Qed.

Lemma set_bit_nth_id (q : nat) (s : list bool) : set_bit q (nth q s false) s = s.
Proof.
  revert q. induction s as [|b s IH]; intros q; destruct q; cbn [set_bit nth];
    try reflexivity.
  rewrite IH. reflexivity.
Qed.

Lemma scatter_length (qargs : list nat) :
  forall (vals s : list bool), length (scatter qargs vals s) = length s.
Proof.
  induction qargs as [|q qargs IH]; intros vals s; [reflexivity|].
  destruct vals as [|v vals]; [reflexivity|]. cbn [scatter].
  rewrite IH. apply set_bit_length.
Qed.

(** Scattering values that agree with the state at position [p] wherever
    they are written to [p] leaves position [p] as it was. *)
Lemma scatter_keeps (p : nat) (qargs : list nat) :
  forall (vals s : list bool),
    (forall i v, nth_error qargs i = Some p -> nth_error vals i = Some v ->
       v = nth p s false) ->
    nth p (scatter qargs vals s) false = nth p s false.
Proof.
  induction qargs as [|q qargs IH]; intros vals s Hagree; [reflexivity|].
  destruct vals as [|v vals]; [reflexivity|]. cbn [scatter].
  assert (nth p (set_bit q v s) false = nth p s false) as Hstep.
  { destruct (Nat.eq_dec p q) as [<-|Hne].
    - rewrite (Hagree 0%nat v eq_refl eq_refl). rewrite set_bit_nth_id. reflexivity.
    - apply nth_set_bit_other. exact Hne. }
  rewrite IH; [exact Hstep|].
  intros i v' Hq Hv. rewrite Hstep. apply (Hagree (S i) v'); assumption.
Qed.

Lemma gather_length (qargs : list nat) (s : list bool) :
  length (gather qargs s) = length qargs.
Proof. unfold gather. apply length_map. Qed.

Lemma gather_seq (start len : nat) (s : list bool) :
  (start + len <= length s)%nat -> gather (seq start len) s = firstn len (skipn start s).
Proof.
  revert start s. induction len as [|len IH]; intros start s Hlen; [reflexivity|].
  cbn [seq]. unfold gather in *. cbn [map]. rewrite IH by lia.
  assert (skipn start s = nth start s false :: skipn (S start) s) as ->.
  { clear IH. revert s Hlen. induction start as [|start IHs]; intros s Hlen.
    - destruct s; [cbn [length] in Hlen; lia|reflexivity].
    - destruct s as [|b s]; [cbn [length] in Hlen; lia|].
      cbn [length] in Hlen. cbn [skipn nth].
      rewrite IHs by lia. reflexivity. }
  reflexivity.
Qed.

Lemma gather_all (s : list bool) : gather (seq 0 (length s)) s = s.
Proof.
  rewrite gather_seq by lia. cbn [skipn]. apply firstn_all.
Qed.

Lemma nth_gather (qargs : list nat) (s : list bool) (i q : nat) :
  nth_error qargs i = Some q ->
  nth_error (gather qargs s) i = Some (nth q s false).
Proof.
  intros H. unfold gather. rewrite nth_error_map, H. reflexivity.
Qed.

Lemma value_of_nonneg (bits : list bool) : 0 <= value_of bits.
Proof.
  induction bits as [|b bits IH]; cbn [value_of]; [lia|]. destruct b; cbn [Z.b2z]; lia.
Qed.

Lemma value_of_zero (bits : list bool) :
  value_of bits = 0 <-> Forall (fun b => b = false) bits.
Proof.
  induction bits as [|b bits IH]; cbn [value_of].
  - split; [constructor|reflexivity].
  - pose proof (value_of_nonneg bits) as Hnn. split.
    + intros H. destruct b; cbn [Z.b2z] in H; [lia|].
      constructor; [reflexivity|]. apply IH. lia.
    + intros H. apply Forall_cons_iff in H as [-> H]. apply IH in H. cbn [Z.b2z]. lia.
Qed.

(** ** The multiplier *)

Lemma multiplier_body_skips (L : AdderLibrary) (a N : Z) (n_bits : nat)
  (x_reg res work flag : QuantumRegister) (i : nat) (qc : QuantumCircuit) :
  N <> 0 -> a mod N = 0 ->
  multiplier_body L a N n_bits x_reg res work flag i qc = Ok qc.
Proof.
  intros HN Ha. unfold multiplier_body.
  destruct (Z.eqb_spec N 0); [contradiction|].
  rewrite <- Z.mul_mod_idemp_l by exact HN. rewrite Ha, Z.mul_0_l, Z.mod_0_l by exact HN.
  reflexivity.
Qed.

Lemma multiplier_body_adds_nothing (L : AdderLibrary) (a N : Z) (n_bits : nat) (i : nat)
  (qc qc' : QuantumCircuit) :
  multiplier_body L a N n_bits (mkReg 0 n_bits) (mkReg n_bits n_bits)
    (mkReg (2 * n_bits) n_bits) (mkReg (3 * n_bits) 1) i qc = Ok qc' ->
  N <> 0 /\ (a * (2 ^ Z.of_nat i mod N)) mod N = 0 /\ qc' = qc.
Proof.
  unfold multiplier_body. intros Hb.
  destruct (Z.eqb_spec N 0) as [|HN]; [discriminate|].
  destruct (Z.eqb_spec ((a * (2 ^ Z.of_nat i mod N)) mod N) 0) as [E|E].
  - injection Hb as <-. auto.
  - exfalso.
    destruct (modular_add_const_mod_N L _ N n_bits) as [add|e] eqn:Ea; cbn [bind] in Hb;
      [|discriminate].
    apply modular_add_const_mod_N_num_qubits in Ea.
    destruct (reg_get _ i) as [xi|e]; cbn [bind] in Hb; [|discriminate].
    destruct (reg_get _ 0) as [flag0|e]; cbn [bind] in Hb; [|discriminate].
    unfold append in Hb.
    assert ((length ([xi] ++ reg_all (mkReg n_bits n_bits)
                     ++ reg_all (mkReg (2 * n_bits) n_bits) ++ [flag0])
             =? gate_num_qubits L (Controlled 1 (to_gate add)))%nat = false) as Hlen.
    { apply Nat.eqb_neq. rewrite !length_app. unfold reg_all. cbn [reg_offset reg_size].
      rewrite !length_seq. simpl. rewrite Ea. lia. }
    rewrite Hlen in Hb. discriminate.
Qed.

Lemma bits_of_value_of (bits : list bool) : bits_of (length bits) (value_of bits) = bits.
Proof.
  unfold bits_of. induction bits as [|b bits IH]; [reflexivity|].
  cbn [length seq map value_of]. f_equal.
  - change (Z.of_nat 0) with 0. rewrite Z.add_comm. apply Z.testbit_0_r.
  - rewrite <- seq_shift, map_map. rewrite <- IH at 2.
    apply map_ext. intros i. rewrite Nat2Z.inj_succ. rewrite Z.add_comm.
    apply Z.testbit_succ_r. lia.
Qed.

Lemma scatter_gather (qargs : list nat) (s : list bool) :
  scatter qargs (gather qargs s) s = s.
Proof.
  apply nth_ext with (d := false) (d' := false); [apply scatter_length|].
  intros p _. apply scatter_keeps. intros i v Hq Hv.
  rewrite (nth_gather qargs s i p Hq) in Hv. congruence.
Qed.

(** Writing back the value a register holds changes nothing. *)
Lemma write_reg_same (r : QuantumRegister) (s : list bool) :
  write_reg r (reg_value r s) s = s.
Proof.
  unfold write_reg, reg_value. set (g := gather (reg_all r) s).
  assert (reg_size r = length g) as ->
    by (unfold g; rewrite gather_length; unfold reg_all; rewrite length_seq; reflexivity).
  rewrite bits_of_value_of. apply scatter_gather.
Qed.

Lemma reg_value_nonneg (r : QuantumRegister) (s : list bool) : 0 <= reg_value r s.
Proof. unfold reg_value. apply value_of_nonneg. Qed.

(** The modular addition of zero is the identity on a register that
    holds a residue. *)
Lemma spec_addition_of_zero (N : Z) (ctrl : nat) (r : QuantumRegister) (s : list bool) :
  reg_value r s < N ->
  spec_controlled_modular_addition 0 N ctrl r s = s.
Proof.
  intros Hx. unfold spec_controlled_modular_addition.
  destruct (nth ctrl s false); [|reflexivity].
  pose proof (reg_value_nonneg r s) as Hnn.
  rewrite Z.add_0_r, Z.mod_small by lia. apply write_reg_same.
Qed.

Lemma multiplier_built (L : AdderLibrary) (a N : Z) (n_bits : nat) (qc : QuantumCircuit) :
  controlled_multiply_const_mod_N L a N n_bits = Ok qc ->
  qc = mkCircuit (n_bits + n_bits + n_bits + 1) 0 []
  /\ forall i, (i < n_bits)%nat -> N <> 0 /\ (a * (2 ^ Z.of_nat i mod N)) mod N = 0.
Proof.
  intros Hb. split.
  - unfold controlled_multiply_const_mod_N, for_range in Hb.
    apply (for_enumerate_preserves
             (fun s => s = mkCircuit (n_bits + n_bits + n_bits + 1) 0 [])) in Hb;
      [exact Hb| |reflexivity].
    intros j i s s' Hbody Hs. apply multiplier_body_adds_nothing in Hbody.
    destruct Hbody as [_ [_ ->]]. exact Hs.
  - assert (n_bits = 0%nat \/ (N <> 0 /\ a mod N = 0)) as Hcase.
    { destruct n_bits as [|n]; [left; reflexivity|right].
      unfold controlled_multiply_const_mod_N, for_range in Hb.
      cbn [seq for_enumerate] in Hb.
      destruct (multiplier_body L a N (S n) _ _ _ _ 0 _) as [qc1|e] eqn:E1;
        [|discriminate].
      apply multiplier_body_adds_nothing in E1. destruct E1 as [HN [E _]].
      split; [exact HN|].
      change (2 ^ Z.of_nat 0) with 1 in E.
      rewrite Z.mul_mod_idemp_r in E by exact HN. rewrite Z.mul_1_r in E. exact E. }
    intros i Hi. destruct Hcase as [->|[HN Ha]]; [lia|].
    split; [exact HN|].
    rewrite <- Z.mul_mod_idemp_l by exact HN.
    rewrite Ha, Z.mul_0_l. apply Z.mod_0_l. exact HN.
Qed.

Lemma fold_left_fixed {A B : Type} (f : A -> B -> A) (l : list B) (s : A) :
  (forall i, In i l -> f s i = s) -> fold_left f l s = s.
Proof.
  induction l as [|i l IH]; intros H; [reflexivity|].
  cbn [fold_left]. rewrite (H i (or_introl eq_refl)). apply IH.
  intros j Hj. apply H. right. exact Hj.
Qed.

(** * The circuit builders *)

(** C1 fails on the code at [a = 4], [N = 5], [n_bits = 3], [x = 3].
    With the library's adder no circuit is built at all.  With an adder
    of the [2*n_bits + 1] qubits the comments assume, the circuit leaves
    [7] in the [x] register instead of [(3 + 4) mod 5 = 2] and [1] in the
    work register instead of zero: the comparison sets the flag only when
    the sum equals [N], and [N] is loaded onto the work register without
    the constant [a] having been removed.  At [a = 1], [x = 4] the flag is
    set and left set. *)
Theorem modular_add_const_mod_N_wrong_at_3_plus_4_mod_5 :
  modular_add_const_mod_N qiskit_cdkm 4 5 3 = Raise CircuitError
  /\ (exists qc,
        modular_add_const_mod_N reversible_adder 4 5 3 = Ok qc
        /\ exists s,
             run_circuit reversible_adder qc (adder_input 3 3) = Some s
             /\ reg_value (mkReg 0 3) s = 7
             /\ reg_value (mkReg 3 3) s = 1
             /\ (3 + 4) mod 5 = 2)
  /\ (exists qc,
        modular_add_const_mod_N reversible_adder 1 5 3 = Ok qc
        /\ exists s,
             run_circuit reversible_adder qc (adder_input 3 4) = Some s
             /\ reg_value (mkReg 0 3) s = 1
             /\ reg_value (mkReg 3 3) s = 4
             /\ reg_value (mkReg 7 1) s = 1).
Proof.
  split; [reflexivity|]. split.
  - eexists. split; [reflexivity|]. eexists. split; [vm_compute; reflexivity|].
    repeat split.
  - eexists. split; [reflexivity|]. eexists. split; [vm_compute; reflexivity|].
    repeat split.
Qed.

(** C2 fails on the code at [a = 7], [N = 15], [n_count = 4] with the
    counting register holding [x = 1].  The gate sets the work register
    to 1 and appends one gate per counting qubit, controlled on that
    qubit, but the gate is the plain adder loaded with the constant
    [a^(2^i) mod N], not a modular multiplication by it: the work
    register ends holding 401 (and its first [n_bits] qubits hold 1),
    not [7^1 mod 15 = 7].  (With an adder of [2*n_bits + 1] qubits it ends
    holding 120, and its first [n_bits] qubits hold [1 + 7 = 8].) *)
Theorem controlled_modular_exponentiation_adds :
  (exists qc,
     controlled_modular_exponentiation_circuit qiskit_cdkm 7 15 4 = Ok qc
     /\ length (data qc) = 5%nat
     /\ hd_error (data qc) = Some (XGate, [4%nat])
     /\ exists s,
          run_circuit qiskit_cdkm qc (bits_of 4 1 ++ repeat false 10) = Some s
          /\ reg_value (mkReg 0 4) s = 1
          /\ reg_value (mkReg 4 10) s = 401
          /\ reg_value (mkReg 4 4) s = 1
          /\ 7 ^ 1 mod 15 = 7)
  /\ (exists qc,
        controlled_modular_exponentiation_circuit reversible_adder 7 15 4 = Ok qc
        /\ exists s,
             run_circuit reversible_adder qc (bits_of 4 1 ++ repeat false 9) = Some s
             /\ reg_value (mkReg 4 9) s = 120
             /\ reg_value (mkReg 4 4) s = 8).
Proof.
  split.
  - eexists. split; [reflexivity|]. split; [reflexivity|]. split; [reflexivity|].
    eexists. split; [vm_compute; reflexivity|]. repeat split.
  - eexists. split; [reflexivity|].
    eexists. split; [vm_compute; reflexivity|]. repeat split.
Qed.

(** C7 fails on the code.  The library's adder spans [2*n_bits + 2]
    qubits and [modular_add_const_mod_N] appends it on the
    [2*n_bits + 1] qubits of [x], [work] and [carry], so the builder
    raises for every input and returns no circuit; for instance for
    [a = 1], [N = 3], [n_bits = 2].  Even with an adder of the
    [2*n_bits + 1] qubits the comments assume, the builder raises for
    [N = 2^n_bits], whose binary form has one digit more than the work
    register has qubits. *)
Theorem modular_add_const_mod_N_never_builds :
  (forall a N n_bits, is_ok (modular_add_const_mod_N qiskit_cdkm a N n_bits) = false)
  /\ modular_add_const_mod_N qiskit_cdkm 1 3 2 = Raise CircuitError
  /\ adder_num_qubits qiskit_cdkm 8 = 18%nat
  /\ modular_add_const_mod_N reversible_adder 1 8 3 = Raise IndexError.
Proof.
  split; [|repeat split].
  intros a N n_bits. unfold modular_add_const_mod_N, CDKMRippleCarryAdder.
  destruct (n_bits <? 1)%nat; [reflexivity|]. cbn [bind].
  destruct (x_where qiskit_cdkm "1"%char (format_b a n_bits) (mkReg n_bits n_bits) _)
    as [qc|e]; [|reflexivity].
  cbn [bind]. unfold append at 1.
  assert ((length (reg_all (mkReg 0 n_bits) ++ reg_all (mkReg n_bits n_bits)
                   ++ reg_all (mkReg (2 * n_bits) 1))
           =? gate_num_qubits qiskit_cdkm (AdderGate n_bits))%nat = false) as ->.
  { apply Nat.eqb_neq. rewrite !length_app. unfold reg_all. cbn [reg_offset reg_size].
    rewrite !length_seq. simpl. lia. }
  reflexivity.
Qed.

(** C8.  In the multiplier every addend [(a * 2^i) mod N] that is zero is
    omitted: its iteration returns the circuit as it was.  The omission
    does not change the function computed.  The modular addition of zero
    is the identity on a result register that holds a residue, and a
    multiplier that is built is the empty circuit, which maps every
    basis state to what the specified sequence of controlled modular
    additions of the addends maps it to, the state itself.  Both
    [controlled_multiply_const_mod_N] and [multiply_const_mod_N] return
    that circuit. *)
Theorem zero_addends_are_omitted (L : AdderLibrary) (a N : Z) (n_bits : nat) :
  (forall i qc,
     N <> 0 -> (a * (2 ^ Z.of_nat i mod N)) mod N = 0 ->
     multiplier_body L a N n_bits (mkReg 0 n_bits) (mkReg n_bits n_bits)
       (mkReg (2 * n_bits) n_bits) (mkReg (3 * n_bits) 1) i qc = Ok qc)
  /\ (forall ctrl s,
        reg_value (mkReg n_bits n_bits) s < N ->
        spec_controlled_modular_addition 0 N ctrl (mkReg n_bits n_bits) s = s)
  /\ (forall qc s,
        controlled_multiply_const_mod_N L a N n_bits = Ok qc ->
        reg_value (mkReg n_bits n_bits) s < N ->
        multiply_const_mod_N L a N n_bits = Ok qc
        /\ data qc = []
        /\ run_circuit L qc s = Some (spec_multiplier a N n_bits s)
        /\ spec_multiplier a N n_bits s = s).
Proof.
  split; [|split].
  - intros i qc HN Hz. unfold multiplier_body.
    destruct (Z.eqb_spec N 0); [contradiction|]. rewrite Hz. reflexivity.
  - intros ctrl s Hx. apply spec_addition_of_zero. exact Hx.
  - intros qc s Hb Hx.
    destruct (multiplier_built L a N n_bits qc Hb) as [Hqc Hzero].
    assert (spec_multiplier a N n_bits s = s) as Hspec.
    { unfold spec_multiplier. apply fold_left_fixed. intros i Hi.
      apply in_seq in Hi. destruct (Hzero i ltac:(lia)) as [_ ->].
      apply spec_addition_of_zero. exact Hx. }
    split; [exact Hb|]. split; [rewrite Hqc; reflexivity|].
    split; [|exact Hspec]. rewrite Hspec, Hqc. reflexivity.
Qed.

Lemma zero_addends_are_omitted_witness :
  controlled_multiply_const_mod_N qiskit_cdkm 10 5 3 = Ok (mkCircuit 10 0 [])
  /\ reg_value (mkReg 3 3) (bits_of 3 6 ++ bits_of 3 3 ++ repeat false 4) < 5
  /\ multiply_const_mod_N qiskit_cdkm 10 5 3 = Ok (mkCircuit 10 0 [])
  /\ data (mkCircuit 10 0 []) = []
  /\ run_circuit qiskit_cdkm (mkCircuit 10 0 [])
       (bits_of 3 6 ++ bits_of 3 3 ++ repeat false 4)
     = Some (spec_multiplier 10 5 3 (bits_of 3 6 ++ bits_of 3 3 ++ repeat false 4))
  /\ spec_multiplier 10 5 3 (bits_of 3 6 ++ bits_of 3 3 ++ repeat false 4)
     = bits_of 3 6 ++ bits_of 3 3 ++ repeat false 4.
Proof.
  assert (controlled_multiply_const_mod_N qiskit_cdkm 10 5 3 = Ok (mkCircuit 10 0 []))
    as H1 by reflexivity.
  assert (reg_value (mkReg 3 3) (bits_of 3 6 ++ bits_of 3 3 ++ repeat false 4) < 5)
    as H2 by reflexivity.
  split; [exact H1|]. split; [exact H2|].
  exact (proj2 (proj2 (zero_addends_are_omitted qiskit_cdkm 10 5 3))
           (mkCircuit 10 0 []) (bits_of 3 6 ++ bits_of 3 3 ++ repeat false 4) H1 H2).
Defined.

(** * The order-finding driver *)

(** C3.  For a trial whose base [a] is coprime to [N] and whose extracted
    candidate period is [r], the trial returns the success tuple
    [(factor1, factor2, a, r)] exactly when [r] is even,
    [x = a^(r/2) mod N] is neither [1] nor [N - 1], and both [gcd(x-1, N)]
    and [gcd(x+1, N)] lie outside [{1, N}]; in every other case the trial
    is rejected and produces no factors.  This holds for the validation
    block itself, for [run_shors_single] and for a trial of
    [shors_algorithm], run with at least one counting qubit and one
    shot. *)
Theorem success_iff_period_validates (N a r : Z) :
  2 <= N -> 1 <= r -> Z.gcd a N = 1 ->
  let x := a ^ (r / 2) mod N in
  let valid :=
    r mod 2 = 0
    /\ (x <> 1 /\ x <> N - 1)
    /\ (Z.gcd (x - 1) N <> 1 /\ Z.gcd (x - 1) N <> N)
    /\ (Z.gcd (x + 1) N <> 1 /\ Z.gcd (x + 1) N <> N) in
  let success := VTuple [VInt (Z.gcd (x - 1) N); VInt (Z.gcd (x + 1) N); VInt a; VInt r] in
  (forall v, validate_and_factor N a r = Ok (Some v) <-> valid /\ v = success)
  /\ (~ valid -> validate_and_factor N a r = Ok None)
  /\ (forall W n_count shots st measured,
        (1 <= n_count)%nat -> (1 <= shots)%nat ->
        first_shot (aer_memory W (length (submitted st)) shots) = Ok measured ->
        extract_period measured n_count N = Ok r ->
        (valid ->
         fst (run_shors_single qiskit_cdkm W N a n_count shots st) = Ok success)
        /\ (~ valid ->
            fst (run_shors_single qiskit_cdkm W N a n_count shots st) = Ok VNone))
  /\ (forall W n_count st measured,
        3 <= N -> (1 <= n_count)%nat ->
        randint_draw W (rng_calls st) = a ->
        first_shot (aer_memory W (length (submitted st)) 1) = Ok measured ->
        extract_period measured n_count N = Ok r ->
        (valid ->
         fst (shors_algorithm_trial qiskit_cdkm W N n_count st) = Ok (Some success))
        /\ (~ valid ->
            fst (shors_algorithm_trial qiskit_cdkm W N n_count st) = Ok None)).
Proof.
  intros HN Hr Hg x valid success.
  assert (valid -> validate_and_factor N a r = Ok (Some success)) as Hacc.
  { intros [Hev [[Hx1 Hx2] [[H1 H1'] [H2 H2']]]].
    apply validate_and_factor_accept; try assumption; lia. }
  assert (~ valid -> validate_and_factor N a r = Ok None) as Hrej.
  { intros Hno. apply validate_and_factor_reject; try lia. exact Hno. }
  split; [|split; [exact Hrej|split]].
  - intros v. split.
    + intros Hv.
      destruct (validate_and_factor_cases N a r ltac:(lia) ltac:(lia)) as [E|Hc].
      * rewrite E in Hv. discriminate.
      * split; [exact Hc|]. rewrite (Hacc Hc) in Hv. injection Hv as <-. reflexivity.
    + intros [Hc ->]. exact (Hacc Hc).
  - intros W n_count shots st measured Hcount Hshots Hm He.
    destruct (build_shors_qc_ok qiskit_cdkm qiskit_cdkm_wide N a n_count ltac:(lia) Hcount)
      as [qc Hb].
    rewrite (run_shors_single_unfold qiskit_cdkm W N a n_count shots st qc Hshots Hb).
    unfold post_process. rewrite Hm. cbn [bind]. rewrite He. cbn [bind fst].
    split; intros Hc; [rewrite (Hacc Hc)|rewrite (Hrej Hc)]; reflexivity.
  - intros W n_count st measured HN3 Hcount Ha Hm He.
    destruct (build_shors_qc_ok qiskit_cdkm qiskit_cdkm_wide N a n_count ltac:(lia) Hcount)
      as [qc Hb].
    rewrite <- Ha in Hb, Hg.
    rewrite (shors_algorithm_trial_quantum qiskit_cdkm W N n_count st qc HN3 Hg Hb).
    unfold post_process. rewrite Hm. cbn [bind]. rewrite He. cbn [bind fst]. rewrite Ha.
    split; intros Hc; [exact (Hacc Hc)|exact (Hrej Hc)].
Qed.

Lemma success_iff_period_validates_witness :
  2 <= 15 /\ 1 <= 4 /\ Z.gcd 7 15 = 1
  /\ validate_and_factor 15 7 4 = Ok (Some (VTuple [VInt 3; VInt 5; VInt 7; VInt 4]))
  /\ (1 <= 8)%nat /\ (1 <= 16)%nat
  /\ first_shot (aer_memory (constant_world 7 one_quarter)
                   (length (submitted initial_state)) 16) = Ok (bitstring one_quarter)
  /\ extract_period (bitstring one_quarter) 8 15 = Ok 4
  /\ fst (run_shors_single qiskit_cdkm (constant_world 7 one_quarter) 15 7 8 16
            initial_state)
     = Ok (VTuple [VInt 3; VInt 5; VInt 7; VInt 4]).
Proof.
  assert (2 <= 15) as H1 by lia.
  assert (1 <= 4) as H2 by lia.
  assert (Z.gcd 7 15 = 1) as H3 by reflexivity.
  assert (1 <= 8)%nat as H4 by lia.
  assert (1 <= 16)%nat as H5 by lia.
  assert (first_shot (aer_memory (constant_world 7 one_quarter)
                        (length (submitted initial_state)) 16)
          = Ok (bitstring one_quarter)) as H6 by reflexivity.
  assert (extract_period (bitstring one_quarter) 8 15 = Ok 4) as H7
    by (vm_compute; reflexivity).
  assert (4 mod 2 = 0
          /\ (7 ^ (4 / 2) mod 15 <> 1 /\ 7 ^ (4 / 2) mod 15 <> 15 - 1)
          /\ (Z.gcd (7 ^ (4 / 2) mod 15 - 1) 15 <> 1
              /\ Z.gcd (7 ^ (4 / 2) mod 15 - 1) 15 <> 15)
          /\ (Z.gcd (7 ^ (4 / 2) mod 15 + 1) 15 <> 1
              /\ Z.gcd (7 ^ (4 / 2) mod 15 + 1) 15 <> 15)) as Hvalid
    by (vm_compute; repeat split; discriminate).
  split; [exact H1|split; [exact H2|split; [exact H3|]]].
  split.
  - apply (proj1 (success_iff_period_validates 15 7 4 H1 H2 H3)).
    split; [exact Hvalid|reflexivity].
  - split; [exact H4|]. split; [exact H5|]. split; [exact H6|]. split; [exact H7|].
    exact (proj1 (proj1 (proj2 (proj2 (success_iff_period_validates 15 7 4 H1 H2 H3)))
                    (constant_world 7 one_quarter) 8%nat 16%nat initial_state
                    (bitstring one_quarter) H4 H5 H6 H7) Hvalid).
Defined.

(** C4.  Whenever the drawn base [a] in [[2, N-1]] shares a factor with
    [N], the driver returns at once the success tuple
    [(gcd(a, N), N // gcd(a, N), a, None)]: the draw is the only step
    taken, no circuit is built and none is submitted.  For [N = 143] and
    [a = 13] the factors are 13 and 11. *)
Theorem classical_shortcut_returns_factors (W : World) (N : Z) (n_count shots trials : nat)
  (st : DriverState) :
  2 <= randint_draw W (rng_calls st) <= N - 1 ->
  Z.gcd (randint_draw W (rng_calls st)) N <> 1 ->
  let a := randint_draw W (rng_calls st) in
  let success := VTuple [VInt (Z.gcd a N); VInt (N / Z.gcd a N); VInt a; VNone] in
  let st' := mkState (S (rng_calls st)) (built st) (submitted st) in
  shors_algorithm_loop qiskit_cdkm W N n_count (S trials) st = (Ok success, st')
  /\ run_shors_aer_loop qiskit_cdkm W N n_count shots (S trials) st = (Ok success, st')
  /\ (N = 143 -> a = 13 -> success = VTuple [VInt 13; VInt 11; VInt 13; VNone]).
Proof.
  intros Ha Hg a success st'.
  destruct (shortcut_in_loops qiskit_cdkm W N n_count shots trials st Ha Hg) as [H1 [H2 _]].
  split; [exact H1|split; [exact H2|]].
  intros HN Ha13. subst success a. rewrite HN, Ha13. reflexivity.
Qed.

Lemma classical_shortcut_returns_factors_witness :
  shors_algorithm qiskit_cdkm (constant_world 13 [false]) 143 8 100 initial_state
  = (Ok (VTuple [VInt 13; VInt 11; VInt 13; VNone]), mkState 1 0 [])
  /\ run_shors_aer qiskit_cdkm (constant_world 13 [false]) 143 8 20 1 initial_state
     = (Ok (VTuple [VInt 13; VInt 11; VInt 13; VNone]), mkState 1 0 []).
Proof.
  assert (2 <= randint_draw (constant_world 13 [false]) (rng_calls initial_state) <= 143 - 1)
    as H1 by (simpl; lia).
  assert (Z.gcd (randint_draw (constant_world 13 [false]) (rng_calls initial_state)) 143 <> 1)
    as H2 by (simpl; discriminate).
  split.
  - exact (proj1 (classical_shortcut_returns_factors
                    (constant_world 13 [false]) 143 8 1 99 initial_state H1 H2)).
  - exact (proj1 (proj2 (classical_shortcut_returns_factors
                           (constant_world 13 [false]) 143 8 1 19 initial_state H1 H2))).
Defined.




(** C6.  If every one of the [max_trials] trials fails validation (each
    drawn base lies in [[2, N-1]] and is coprime to [N], and each backend
    outcome yields a candidate period that validation rejects), the
    driver performs exactly [max_trials] trials (that many draws, circuits
    built and circuits submitted) and then returns the not-found sentinel
    as an ordinary value: [(None, None, None, None)] from
    [shors_algorithm], [None] from [run_shors_aer].  It neither loops on
    nor raises.  The circuit has at least one counting qubit and a run
    at least one shot, without which there is no backend outcome. *)
Theorem exhausted_trials_return_not_found (W : World) (N : Z) (n_count shots max_trials : nat) :
  (1 <= n_count)%nat -> (1 <= shots)%nat ->
  (forall i, (i < max_trials)%nat ->
     2 <= randint_draw W i <= N - 1
     /\ Z.gcd (randint_draw W i) N = 1
     /\ post_process N (randint_draw W i) n_count (aer_memory W i 1) = Ok None
     /\ post_process N (randint_draw W i) n_count (aer_memory W i shots) = Ok None) ->
  (exists st,
     shors_algorithm qiskit_cdkm W N n_count max_trials initial_state
     = (Ok (VTuple [VNone; VNone; VNone; VNone]), st)
     /\ rng_calls st = max_trials /\ built st = max_trials
     /\ length (submitted st) = max_trials)
  /\ (exists st,
        run_shors_aer qiskit_cdkm W N n_count max_trials shots initial_state = (Ok VNone, st)
        /\ rng_calls st = max_trials /\ built st = max_trials
        /\ length (submitted st) = max_trials).
Proof.
  intros Hc Hshots Hfail. split.
  - destruct (shors_algorithm_loop_exhausted qiskit_cdkm qiskit_cdkm_wide W N n_count Hc
                max_trials initial_state) as [st [E H]].
    + intros i Hi. simpl. destruct (Hfail i Hi) as [Ha [Hg [Hp _]]]. auto.
    + exists st. split; [exact E|exact H].
  - destruct (run_shors_aer_loop_exhausted qiskit_cdkm qiskit_cdkm_wide W N n_count Hc shots
                max_trials Hshots initial_state) as [st [E H]].
    + intros i Hi. simpl. destruct (Hfail i Hi) as [Ha [Hg [_ Hp]]]. auto.
    + exists st. split; [exact E|exact H].
Qed.

Lemma exhausted_trials_return_not_found_witness :
  (exists st,
     shors_algorithm qiskit_cdkm (constant_world 7 [true; false; false; false]) 15 4 3
       initial_state
     = (Ok (VTuple [VNone; VNone; VNone; VNone]), st)
     /\ rng_calls st = 3%nat /\ built st = 3%nat /\ length (submitted st) = 3%nat)
  /\ (exists st,
        run_shors_aer qiskit_cdkm (constant_world 7 [true; false; false; false]) 15 4 3 2
          initial_state
        = (Ok VNone, st)
        /\ rng_calls st = 3%nat /\ built st = 3%nat /\ length (submitted st) = 3%nat).
Proof.
  apply (exhausted_trials_return_not_found
           (constant_world 7 [true; false; false; false]) 15 4 2 3); [lia|lia|].
  intros i Hi. simpl. repeat split; try lia; vm_compute; reflexivity.
Defined.

(** C9 as stated fails: the prime modulus [N = 7] is not refused.  The
    driver draws a base, builds and submits a circuit, and ends with the
    not-found sentinel; and [run_shors_single] accepts the base [22] for
    [N = 15], outside [[2, 14]], and returns factors for it. *)
Lemma prime_modulus_is_not_refused :
  fst (shors_algorithm qiskit_cdkm (constant_world 2 [false; false; false; false]) 7 4 1
         initial_state)
  = Ok (VTuple [VNone; VNone; VNone; VNone])
  /\ built (snd (shors_algorithm qiskit_cdkm (constant_world 2 [false; false; false; false])
                   7 4 1 initial_state)) = 1%nat
  /\ length (submitted (snd (shors_algorithm qiskit_cdkm
                               (constant_world 2 [false; false; false; false]) 7 4 1
                               initial_state))) = 1%nat
  /\ fst (run_shors_single qiskit_cdkm (constant_world 2 [false; true; false; false])
            15 22 4 1 initial_state)
     = Ok (VTuple [VInt 3; VInt 5; VInt 22; VInt 4]).
Proof. vm_compute. repeat split. Qed.

(** C9, amended.  The drivers check neither [N] nor the base and have no
    invalid-input error.  For [N < 3] the first draw,
    [random.randint(2, N - 1)], raises [ValueError] on its empty range
    before any circuit is built.  For a prime [N] whose draws lie in
    [[2, N-1]] the drivers run their trials as for any other modulus and
    never return factors: a run that returns has used all [max_trials]
    draws and returns the not-found sentinel.  [run_shors_single], run
    with at least one counting qubit and one shot, uses a supplied base
    as it is given, whatever its range: its result is the validation of
    the candidate period for that base. *)
Theorem drivers_do_not_validate_input (W : World) (N : Z) (n_count shots max_trials : nat)
  (st : DriverState) :
  (N < 3 ->
   shors_algorithm qiskit_cdkm W N n_count (S max_trials) st = (Raise ValueError, st)
   /\ run_shors_aer qiskit_cdkm W N n_count (S max_trials) shots st = (Raise ValueError, st))
  /\ (Z.prime N -> (forall i, 2 <= randint_draw W i <= N - 1) ->
      (forall v st',
         shors_algorithm qiskit_cdkm W N n_count max_trials st = (Ok v, st') ->
         v = VTuple [VNone; VNone; VNone; VNone]
         /\ rng_calls st' = (rng_calls st + max_trials)%nat)
      /\ (forall v st',
            run_shors_aer qiskit_cdkm W N n_count max_trials shots st = (Ok v, st') ->
            v = VNone /\ rng_calls st' = (rng_calls st + max_trials)%nat))
  /\ (2 <= N -> (1 <= n_count)%nat -> (1 <= shots)%nat ->
      forall a,
        fst (run_shors_single qiskit_cdkm W N a n_count shots st)
        = (found <- post_process N a n_count (aer_memory W (length (submitted st)) shots) ;;
           Ok (match found with Some factors => factors | None => VNone end))).
Proof.
  split; [|split].
  - intros HN.
    destruct (empty_range_raises qiskit_cdkm W N n_count shots max_trials st HN)
      as [H1 [H2 _]].
    split; assumption.
  - intros Hp Hd. split; intros v st' H.
    + exact (shors_algorithm_loop_prime qiskit_cdkm W N n_count Hp Hd max_trials st st' v H).
    + exact (run_shors_aer_loop_prime qiskit_cdkm W N n_count Hp Hd shots max_trials
               st st' v H).
  - intros HN Hc Hshots a.
    destruct (build_shors_qc_ok qiskit_cdkm qiskit_cdkm_wide N a n_count HN Hc) as [qc Hb].
    rewrite (run_shors_single_unfold qiskit_cdkm W N a n_count shots st qc Hshots Hb).
    reflexivity.
Qed.

Lemma drivers_do_not_validate_input_witness :
  2 < 3
  /\ Z.prime 3
  /\ (forall i : nat, 2 <= randint_draw (constant_world 2 [false]) i <= 3 - 1)
  /\ shors_algorithm qiskit_cdkm (constant_world 2 [false]) 2 4 1 initial_state
     = (Raise ValueError, initial_state)
  /\ (forall v st',
        shors_algorithm qiskit_cdkm (constant_world 2 [false]) 3 4 5 initial_state = (Ok v, st') ->
        v = VTuple [VNone; VNone; VNone; VNone]
        /\ rng_calls st' = (rng_calls initial_state + 5)%nat).
Proof.
  assert (2 < 3) as Hsmall by lia.
  assert (forall i : nat, 2 <= randint_draw (constant_world 2 [false]) i <= 3 - 1) as Hdraws
    by (intros i; simpl; lia).
  split; [exact Hsmall|]. split; [exact Z.prime_3|]. split; [exact Hdraws|]. split.
  - exact (proj1 (proj1 (drivers_do_not_validate_input
                           (constant_world 2 [false]) 2 4 1 0 initial_state) Hsmall)).
  - exact (proj1 (proj1 (proj2 (drivers_do_not_validate_input
                                  (constant_world 2 [false]) 3 4 1 5 initial_state))
                    Z.prime_3 Hdraws)).
Defined.



(** * Further properties of the code *)

(** ** The constant loaded by the adder circuit *)

Lemma pos_digits_testbit (p : positive) :
  forall i : nat,
    is_char (nth i (pos_digits_lsb p) "0"%char) "1"%char = Z.testbit (Zpos p) (Z.of_nat i).
Proof.
  induction p as [q IH|q IH|]; intros i; cbn [pos_digits_lsb]; destruct i as [|i];
    cbn [nth]; try reflexivity.
  - rewrite IH, Nat2Z.inj_succ. change (Zpos q~1) with (2 * Zpos q + 1).
    symmetry. apply Z.testbit_odd_succ. lia.
  - rewrite IH, Nat2Z.inj_succ. change (Zpos q~0) with (2 * Zpos q).
    symmetry. apply Z.testbit_even_succ. lia.
  - rewrite Nat2Z.inj_succ. change 1 with (2 * 0 + 1).
    rewrite Z.testbit_odd_succ by lia. rewrite Z.testbit_0_l. destruct i; reflexivity.
Qed.

Lemma nth_padded (l zeros : list ascii) (i : nat) :
  Forall (fun c => c = "0"%char) zeros ->
  nth i (l ++ zeros) "0"%char = nth i l "0"%char.
Proof.
  intros Hz. destruct (Nat.lt_ge_cases i (length l)) as [Hlt|Hge].
  - apply app_nth1. exact Hlt.
  - rewrite app_nth2 by exact Hge. rewrite (nth_overflow l) by exact Hge.
    destruct (Nat.lt_ge_cases (i - length l) (length zeros)) as [Hin|Hout].
    + rewrite Forall_forall in Hz. apply Hz. apply nth_In. exact Hin.
    + apply nth_overflow. exact Hout.
Qed.

(** Read from the right, the digits of [format(a, f"0{n}b")] are the bits
    of [a], least significant first. *)
Lemma rev_format_b_nth (a : Z) (n i : nat) :
  0 <= a ->
  is_char (nth i (rev (format_b a n)) "0"%char) "1"%char = Z.testbit a (Z.of_nat i).
Proof.
  intros Ha. unfold format_b, zero_pad. destruct a as [|p|p]; [| |lia].
  - rewrite rev_app_distr. cbn [rev app]. rewrite Z.testbit_0_l.
    change ("0"%char :: rev (repeat "0"%char (n - length ["0"%char])))
      with (["0"%char] ++ rev (repeat "0"%char (n - length ["0"%char]))).
    rewrite nth_padded.
    + destruct i as [|[|i]]; reflexivity.
    + apply Forall_rev. apply Forall_forall. intros c Hc. apply repeat_spec in Hc. exact Hc.
  - rewrite rev_app_distr, rev_involutive. rewrite nth_padded.
    + apply pos_digits_testbit.
    + apply Forall_rev. apply Forall_forall. intros c Hc. apply repeat_spec in Hc. exact Hc.
Qed.

Lemma load_bits (L : AdderLibrary) (n : nat) (l : list ascii) :
  forall (j : nat) (qc : QuantumCircuit),
    (j + length l + n <= num_qubits qc)%nat ->
    for_enumerate
      (fun i bit qc => if is_char bit "1"%char then x L (i + n)%nat qc else Ok qc) j l qc
    = Ok (mkCircuit (num_qubits qc) (num_clbits qc)
            (data qc
             ++ map (fun i => (XGate, [(i + n)%nat]))
                  (filter (fun i => is_char (nth (i - j) l "0"%char) "1"%char)
                     (seq j (length l))))).
Proof.
  induction l as [|c l IH]; intros j qc Hfit.
  - cbn [for_enumerate length seq filter map]. rewrite app_nil_r. destruct qc; reflexivity.
  - cbn [length] in Hfit. cbn [for_enumerate length seq filter].
    assert (filter (fun i => is_char (nth (i - j) (c :: l) "0"%char) "1"%char)
              (seq (S j) (length l))
            = filter (fun i => is_char (nth (i - S j) l "0"%char) "1"%char)
                (seq (S j) (length l))) as Hfilter.
    { apply filter_ext_in. intros i Hi. apply in_seq in Hi.
      replace (i - j)%nat with (S (i - S j)) by lia. reflexivity. }
    rewrite Hfilter. rewrite Nat.sub_diag. cbn [nth].
    destruct (is_char c "1"%char).
    + assert (x L (j + n) qc
              = Ok (mkCircuit (num_qubits qc) (num_clbits qc)
                      (data qc ++ [(XGate, [(j + n)%nat])]))) as ->
        by (unfold x; apply append_ok; [reflexivity|constructor; [lia|constructor]]).
      cbn [bind].
      pose proof (IH (S j)
                    (mkCircuit (num_qubits qc) (num_clbits qc)
                       (data qc ++ [(XGate, [(j + n)%nat])]))
                    ltac:(cbn [num_qubits]; lia)) as E.
      cbn [num_qubits num_clbits data] in E. rewrite E.
      cbn [map]. rewrite <- app_assoc. reflexivity.
    + cbn [bind]. apply IH. lia.
Qed.

(** X1.  [quantum_modular_addition_clean] loads its constant bit by bit,
    least significant bit first, on the qubits from [n_bits] on.  For
    [n_bits >= 1] and [0 <= a < 2^n_bits] it returns the circuit on the
    qubits of the adder that holds one [X] on qubit [n_bits + i] for each
    bit [i] set in [a], in increasing order of [i], followed by the adder
    on all the qubits.  The modulus [N] plays no part, and no gate
    follows the adder. *)
Theorem constant_is_loaded_bit_by_bit (L : AdderLibrary) (a N : Z) (n_bits : nat) :
  (forall n : nat, (2 * n <= adder_num_qubits L n)%nat) ->
  (1 <= n_bits)%nat -> 0 <= a < 2 ^ Z.of_nat n_bits ->
  quantum_modular_addition_clean L a N n_bits
  = Ok (mkCircuit (adder_num_qubits L n_bits) 0
          (map (fun i => (XGate, [(i + n_bits)%nat]))
             (filter (fun i => Z.testbit a (Z.of_nat i)) (seq 0 n_bits))
           ++ [(AdderGate n_bits, seq 0 (adder_num_qubits L n_bits))])).
Proof.
  intros adder_wide Hn Ha. pose proof (adder_wide n_bits) as Hw.
  unfold quantum_modular_addition_clean, CDKMRippleCarryAdder.
  destruct (Nat.ltb_spec n_bits 1); [lia|]. cbn [bind].
  assert (length (rev (format_b a n_bits)) = n_bits) as Hlen
    by (rewrite length_rev; apply format_b_length; [exact Ha|exact Hn]).
  rewrite load_bits by (cbn [num_qubits]; lia).
  cbn [bind num_qubits num_clbits data app]. rewrite Hlen.
  rewrite append_ok;
    [|cbn [gate_num_qubits]; apply length_seq|apply Forall_seq_lt; cbn [num_qubits]; lia].
  cbn [num_qubits num_clbits data].
  rewrite (filter_ext
             (fun i => is_char (nth (i - 0) (rev (format_b a n_bits)) "0"%char) "1"%char)
             (fun i => Z.testbit a (Z.of_nat i)));
    [reflexivity|].
  intros i. rewrite Nat.sub_0_r. apply rev_format_b_nth. lia.
Qed.

Lemma constant_is_loaded_bit_by_bit_witness :
  (forall n : nat, (2 * n <= adder_num_qubits qiskit_cdkm n)%nat)
  /\ (1 <= 3)%nat /\ 0 <= 5 < 2 ^ Z.of_nat 3
  /\ quantum_modular_addition_clean qiskit_cdkm 5 7 3
     = Ok (mkCircuit (adder_num_qubits qiskit_cdkm 3) 0
             (map (fun i => (XGate, [(i + 3)%nat]))
                (filter (fun i => Z.testbit 5 (Z.of_nat i)) (seq 0 3))
              ++ [(AdderGate 3, seq 0 (adder_num_qubits qiskit_cdkm 3))])).
Proof.
  assert (1 <= 3)%nat as H1 by lia.
  assert (0 <= 5 < 2 ^ Z.of_nat 3) as H2 by (cbn; lia).
  split; [exact qiskit_cdkm_wide|]. split; [exact H1|]. split; [exact H2|].
  exact (constant_is_loaded_bit_by_bit qiskit_cdkm 5 7 3 qiskit_cdkm_wide H1 H2).
Defined.

(** ** Binary strings *)

Lemma int_digits_bitstring (bits : list bool) :
  forall acc, 0 <= acc ->
    exists v, int_digits acc (bitstring bits) = Ok v
              /\ acc * 2 ^ Z.of_nat (length bits) <= v
                 < (acc + 1) * 2 ^ Z.of_nat (length bits).
Proof.
  induction bits as [|b bits IH]; intros acc Hacc.
  - exists acc. split; [reflexivity|]. simpl. lia.
  - cbn [bitstring map int_digits length]. fold (bitstring bits).
    rewrite Nat2Z.inj_succ, Z.pow_succ_r by lia.
    destruct b.
    + change (is_char "1"%char "0"%char) with false.
      change (is_char "1"%char "1"%char) with true. cbv iota.
      destruct (IH (2 * acc + 1) ltac:(lia)) as [v [E Hv]].
      exists v. split; [exact E|]. nia.
    + change (is_char "0"%char "0"%char) with true. cbv iota.
      destruct (IH (2 * acc) ltac:(lia)) as [v [E Hv]].
      exists v. split; [exact E|]. nia.
Qed.

Lemma int_base2_bitstring (bits : list bool) :
  bits <> [] ->
  exists value,
    int_base2 (bitstring bits) = Ok value /\ 0 <= value < 2 ^ Z.of_nat (length bits).
Proof.
  intros Hne. destruct (int_digits_bitstring bits 0 ltac:(lia)) as [v [E Hv]].
  exists v. split; [|lia].
  unfold int_base2. destruct (bitstring bits) eqn:Eb; [|exact E].
  destruct bits; [contradiction|discriminate].
Qed.

(** X2.  A measured string of at most 53 binary digits, not longer than
    the [n_count <= 1074] the phase is computed with, always parses; its
    value lies below [2^len]; the float division [value / 2**n_count] is
    then exact, and the phase handed to [limit_denominator] lies in
    [[0, 1)].  The bounds matter: for 54 digits all equal to one the float
    quotient is rounded to [1.0], and the string [10] read with
    [n_count = 1] has phase [1.0]. *)
Theorem measured_phase_in_unit_interval (bits : list bool) (n_count : nat) :
  bits <> [] -> (length bits <= n_count)%nat ->
  (length bits <= 53)%nat -> (n_count <= 1074)%nat ->
  (exists value phase,
     int_base2 (bitstring bits) = Ok value
     /\ 0 <= value < 2 ^ Z.of_nat (length bits)
     /\ int_true_div value (2 ^ Z.of_nat n_count) = Ok phase
     /\ (phase == inject_Z value / inject_Z (2 ^ Z.of_nat n_count))%Q
     /\ (0 <= phase)%Q
     /\ (phase < 1)%Q)
  /\ (int_base2 (bitstring (repeat true 54)) = Ok (2 ^ 54 - 1)
      /\ int_true_div (2 ^ 54 - 1) (2 ^ Z.of_nat 54) = Ok (1 # 1))
  /\ (int_base2 (bitstring [true; false]) = Ok 2
      /\ int_true_div 2 (2 ^ Z.of_nat 1) = Ok (1 # 1)).
Proof.
  intros Hne Hlen Hbits Hn.
  split; [|split; split; vm_compute; reflexivity].
  destruct (int_base2_bitstring bits Hne) as [v [E Hv]].
  assert (0 < 2 ^ Z.of_nat n_count) as Hpow by (apply Z.pow_pos_nonneg; lia).
  assert (2 ^ Z.of_nat (length bits) <= 2 ^ 53) as Hle by (apply Z.pow_le_mono_r; lia).
  assert (2 ^ Z.of_nat (length bits) <= 2 ^ Z.of_nat n_count) as Hle'
    by (apply Z.pow_le_mono_r; lia).
  exists v, (phase_fraction v n_count).
  split; [exact E|]. split; [lia|].
  split; [apply int_true_div_exact; lia|].
  split; [apply phase_fraction_value|].
  unfold phase_fraction. split.
  - rewrite Qred_correct. unfold Qle. cbn [Qnum Qden]. lia.
  - rewrite Qred_correct. unfold Qlt. cbn [Qnum Qden].
    rewrite Z2Pos.id by exact Hpow. lia.
Qed.

Lemma measured_phase_in_unit_interval_witness :
  [true; false; true] <> [] /\ (length [true; false; true] <= 8)%nat
  /\ (length [true; false; true] <= 53)%nat /\ (8 <= 1074)%nat
  /\ exists value phase,
       int_base2 (bitstring [true; false; true]) = Ok value
       /\ 0 <= value < 2 ^ Z.of_nat (length [true; false; true])
       /\ int_true_div value (2 ^ Z.of_nat 8) = Ok phase
       /\ (phase == inject_Z value / inject_Z (2 ^ Z.of_nat 8))%Q
       /\ (0 <= phase)%Q
       /\ (phase < 1)%Q.
Proof.
  assert ([true; false; true] <> []) as H0 by discriminate.
  assert (length [true; false; true] <= 8)%nat as H1 by (cbn [length]; lia).
  assert (length [true; false; true] <= 53)%nat as H2 by (cbn [length]; lia).
  assert (8 <= 1074)%nat as H3 by lia.
  split; [exact H0|]. split; [exact H1|]. split; [exact H2|]. split; [exact H3|].
  exact (proj1 (measured_phase_in_unit_interval [true; false; true] 8 H0 H1 H2 H3)).
Defined.

(** ** Period extraction *)

Lemma close_fractions_equal (p a s : Z) (q b r e : positive) (N : Z) :
  Z.pos q <= N -> Z.pos r <= N -> Z.pos e = 2 * N * N ->
  Z.abs (p * Z.pos b - a * Z.pos q) * Z.pos r <= Z.abs (s * Z.pos b - a * Z.pos r) * Z.pos q ->
  Z.abs (a * Z.pos r - s * Z.pos b) * Z.pos e < Z.pos b * Z.pos r ->
  p * Z.pos r = s * Z.pos q.
Proof.
  intros Hq Hr He Hbest Hclose.
  pose proof (Pos2Z.is_pos q). pose proof (Pos2Z.is_pos b). pose proof (Pos2Z.is_pos r).
  set (D := p * Z.pos r - s * Z.pos q).
  assert (Z.pos b * D = Z.pos r * (p * Z.pos b - a * Z.pos q)
                        + Z.pos q * (a * Z.pos r - s * Z.pos b)) as HD by (subst D; ring).
  replace (s * Z.pos b - a * Z.pos r) with (- (a * Z.pos r - s * Z.pos b)) in Hbest by ring.
  rewrite Z.abs_opp in Hbest.
  remember (p * Z.pos b - a * Z.pos q) as u eqn:Eu.
  remember (a * Z.pos r - s * Z.pos b) as v eqn:Ev.
  assert (Z.pos b * Z.abs D <= 2 * Z.pos q * Z.abs v) as Hb.
  { rewrite <- (Z.abs_eq (Z.pos b)) by lia. rewrite <- Z.abs_mul, HD.
    pose proof (Z.abs_triangle (Z.pos r * u) (Z.pos q * v)) as Ht.
    rewrite !Z.abs_mul in Ht. rewrite !(Z.abs_eq (Z.pos _)) in Ht by lia. nia. }
  assert (Z.abs D < 1) as Hlt.
  { assert (0 <= Z.abs D) by apply Z.abs_nonneg.
    assert (0 <= Z.abs v) by apply Z.abs_nonneg.
    assert (Z.pos q * Z.pos r <= N * N) by nia.
    apply Z.nle_gt. intros Hge.
    assert (Z.pos b * Z.abs D * (2 * N * N) < 2 * Z.pos q * (Z.pos b * Z.pos r)) by nia.
    nia. }
  subst D. lia.
Qed.

(** A phase within [1 / (2 N^2)] of [s / r] in lowest terms, with
    [1 <= r <= N], has [r] as the denominator of its best approximation. *)
Lemma limit_denominator_close (phase : Q) (N s r : Z) :
  Qred phase = phase -> 0 <= Qnum phase ->
  1 <= r <= N -> Z.gcd s r = 1 ->
  (Qabs (phase - (s # Z.to_pos r)) < 1 # Z.to_pos (2 * N * N))%Q ->
  exists frac,
    limit_denominator phase N = Ok frac
    /\ denominator frac = r.
Proof.
  intros Hcan Hnn Hr Hg Hclose.
  destruct (limit_denominator_best phase N Hcan Hnn ltac:(lia))
    as [frac [E [Hc [Hd Hbest]]]].
  exists frac. split; [exact E|].
  specialize (Hbest s r Hr).
  apply Qabs_diff_le_cross in Hbest.
  unfold Qlt, Qabs, Qminus, Qplus, Qopp in Hclose.
  destruct phase as [a b].
  destruct frac as [p q]. unfold denominator in *. cbn [Qnum Qden] in *.
  rewrite Z.mul_1_l, Pos2Z.inj_mul in Hclose.
  replace (a * Z.pos (Z.to_pos r) + - s * Z.pos b)
    with (a * Z.pos (Z.to_pos r) - s * Z.pos b) in Hclose by ring.
  assert (p * Z.pos (Z.to_pos r) = s * Z.pos q) as Heq.
  { apply (close_fractions_equal p a s q b (Z.to_pos r) (Z.to_pos (2 * N * N)) N).
    - lia.
    - rewrite Z2Pos.id by lia. lia.
    - rewrite Z2Pos.id by nia. reflexivity.
    - exact Hbest.
    - exact Hclose. }
  assert (Qred (p # q) = Qred (s # Z.to_pos r)) as Hred.
  { apply Qred_complete. unfold Qeq. cbn [Qnum Qden]. exact Heq. }
  rewrite Hc in Hred.
  rewrite Qred_identity in Hred by (cbn [Qnum Qden]; rewrite Z2Pos.id by lia; exact Hg).
  injection Hred as _ Hq. rewrite Hq. rewrite Z2Pos.id by lia. reflexivity.
Qed.

(** X3.  Period extraction recovers the period from a close enough phase:
    if the float [phase = value / 2**n_count] that the code computes is
    within [1 / (2 N^2)] of a fraction [s / r] in lowest terms with
    [1 <= r <= N], then the candidate returned by the continued-fraction
    step is exactly [r].  For a value below [2^53] and [n_count <= 1074]
    the float is the exact quotient, so the distance is that of the measured
    phase itself. *)
Theorem period_recovered_from_close_phase (measured : list ascii) (n_count : nat)
  (N value s r : Z) (phase : Q) :
  int_base2 measured = Ok value ->
  int_true_div value (2 ^ Z.of_nat n_count) = Ok phase ->
  1 <= r <= N -> Z.gcd s r = 1 ->
  (Qabs (phase - (s # Z.to_pos r)) < 1 # Z.to_pos (2 * N * N))%Q ->
  extract_period measured n_count N = Ok r
  /\ (value < 2 ^ 53 -> (n_count <= 1074)%nat ->
      (phase == inject_Z value / inject_Z (2 ^ Z.of_nat n_count))%Q).
Proof.
  intros Hv Hdiv Hr Hg Hclose.
  pose proof (int_base2_nonneg measured value Hv) as Hnn.
  assert (0 < 2 ^ Z.of_nat n_count) as Hpow by (apply Z.pow_pos_nonneg; lia).
  split.
  - destruct (limit_denominator_close phase N s r
                (int_true_div_canonical _ _ _ Hdiv)
                (int_true_div_nonneg _ _ _ Hnn Hpow Hdiv) Hr Hg Hclose)
      as [frac [E Hden]].
    unfold extract_period. rewrite Hv. cbn [bind]. rewrite Hdiv. cbn [bind].
    rewrite E. cbn [bind]. rewrite Hden. reflexivity.
  - intros Hlt Hn. rewrite int_true_div_exact in Hdiv by lia.
    apply Ok_inj in Hdiv. rewrite <- Hdiv. apply phase_fraction_value.
Qed.

Lemma period_recovered_from_close_phase_witness :
  int_base2 (bitstring [false; true; false; false; false; false; false; false; false;
                        false; true]) = Ok 513
  /\ int_true_div 513 (2 ^ Z.of_nat 11) = Ok (513 # 2048)
  /\ 1 <= 4 <= 15 /\ Z.gcd 1 4 = 1
  /\ (Qabs ((513 # 2048) - (1 # Z.to_pos 4)) < 1 # Z.to_pos (2 * 15 * 15))%Q
  /\ extract_period (bitstring [false; true; false; false; false; false; false; false;
                                false; false; true]) 11 15 = Ok 4.
Proof.
  assert (int_base2 (bitstring [false; true; false; false; false; false; false; false;
                                false; false; true]) = Ok 513) as H1 by reflexivity.
  assert (int_true_div 513 (2 ^ Z.of_nat 11) = Ok (513 # 2048)) as H0
    by (vm_compute; reflexivity).
  assert (1 <= 4 <= 15) as H2 by lia.
  assert (Z.gcd 1 4 = 1) as H3 by reflexivity.
  assert (Qabs ((513 # 2048) - (1 # Z.to_pos 4)) < 1 # Z.to_pos (2 * 15 * 15))%Q as H4
    by reflexivity.
  split; [exact H1|]. split; [exact H0|]. split; [exact H2|]. split; [exact H3|].
  split; [exact H4|].
  exact (proj1 (period_recovered_from_close_phase _ 11 15 513 1 4 _ H1 H0 H2 H3 H4)).
Defined.

(** ** One trial's post-processing *)

Lemma extract_period_returns (measured : list ascii) (n_count : nat) (N value : Z) :
  1 <= N -> int_base2 measured = Ok value -> value < 2 ^ Z.of_nat n_count ->
  exists r, extract_period measured n_count N = Ok r /\ 1 <= r <= N.
Proof.
  intros HN Hv Hlt.
  pose proof (int_base2_nonneg measured value Hv) as Hnn.
  destruct (int_true_div_below_one value (2 ^ Z.of_nat n_count) ltac:(lia))
    as [phase Hdiv].
  assert (0 < 2 ^ Z.of_nat n_count) as Hpow by lia.
  destruct (limit_denominator_best phase N
              (int_true_div_canonical _ _ _ Hdiv)
              (int_true_div_nonneg _ _ _ Hnn Hpow Hdiv) HN)
    as [frac [E [_ [Hd _]]]].
  exists (denominator frac). split; [|exact Hd].
  unfold extract_period. rewrite Hv. cbn [bind]. rewrite Hdiv. cbn [bind].
  rewrite E. reflexivity.
Qed.

Lemma validate_and_factor_returns (N a r : Z) :
  1 <= N -> 0 <= r -> exists o, validate_and_factor N a r = Ok o.
Proof.
  intros HN Hr. destruct (validate_and_factor_cases N a r HN Hr) as [E|Hc]; [eauto|].
  destruct Hc as [Hev [[Hx1 Hx2] [[H1 H1'] [H2 H2']]]].
  eexists. apply validate_and_factor_accept; assumption.
Qed.

(** X4.  The classical post-processing of a trial never raises on a
    well-formed backend answer: for [N >= 1], whenever the first shot is a
    non-empty string of at most [n_count] binary digits (the counting
    register gives [n_count] of them), the phase is turned into a candidate
    period [r] in [[1, N]] and validation returns, either with a success
    tuple or with nothing.  (A string much longer than [n_count] can make
    the float division overflow.) *)
Theorem post_process_never_raises (N a : Z) (n_count : nat) (bits : list bool)
  (more_shots : list (list ascii)) :
  1 <= N -> bits <> [] -> (length bits <= n_count)%nat ->
  exists r,
    extract_period (bitstring bits) n_count N = Ok r /\ 1 <= r <= N
    /\ (post_process N a n_count (bitstring bits :: more_shots) = Ok None
        \/ exists f1 f2,
             post_process N a n_count (bitstring bits :: more_shots)
             = Ok (Some (VTuple [VInt f1; VInt f2; VInt a; VInt r]))).
Proof.
  intros HN Hne Hlen.
  destruct (int_base2_bitstring bits Hne) as [value [Hv Hrange]].
  assert (2 ^ Z.of_nat (length bits) <= 2 ^ Z.of_nat n_count) as Hle
    by (apply Z.pow_le_mono_r; lia).
  destruct (extract_period_returns (bitstring bits) n_count N value HN Hv ltac:(lia))
    as [r [Er Hr]].
  exists r. split; [exact Er|]. split; [exact Hr|].
  unfold post_process. cbn [first_shot bind]. rewrite Er. cbn [bind].
  destruct (validate_and_factor_returns N a r HN ltac:(lia)) as [[v|] Ev].
  - right. rewrite Ev. apply validate_and_factor_some in Ev as [f1 [f2 ->]]. eauto.
  - left. exact Ev.
Qed.

Lemma post_process_never_raises_witness :
  1 <= 15 /\ [true; false; false; false] <> []
  /\ (length [true; false; false; false] <= 4)%nat
  /\ exists r,
       extract_period (bitstring [true; false; false; false]) 4 15 = Ok r /\ 1 <= r <= 15
       /\ (post_process 15 7 4 (bitstring [true; false; false; false] :: []) = Ok None
           \/ exists f1 f2,
                post_process 15 7 4 (bitstring [true; false; false; false] :: [])
                = Ok (Some (VTuple [VInt f1; VInt f2; VInt 7; VInt r]))).
Proof.
  assert (1 <= 15) as H1 by lia.
  assert ([true; false; false; false] <> []) as H2 by discriminate.
  assert (length [true; false; false; false] <= 4)%nat as H3 by (cbn [length]; lia).
  split; [exact H1|]. split; [exact H2|]. split; [exact H3|].
  exact (post_process_never_raises 15 7 4 [true; false; false; false] [] H1 H2 H3).
Defined.

Lemma int_digits_all_zero (k : nat) :
  int_digits 0 (bitstring (repeat false k)) = Ok 0.
Proof.
  induction k as [|k IH]; [reflexivity|].
  cbn [repeat bitstring map int_digits]. fold (bitstring (repeat false k)).
  change (is_char "0"%char "0"%char) with true. cbv iota. exact IH.
Qed.

(** X5.  An all-zero measurement never factors: the phase is 0, the
    candidate period is 1, which is odd, so the trial is rejected for
    every base and every modulus [N >= 1]. *)
Theorem all_zero_outcome_is_rejected (N a : Z) (n_count k : nat)
  (more_shots : list (list ascii)) :
  1 <= N -> (1 <= k)%nat ->
  extract_period (bitstring (repeat false k)) n_count N = Ok 1
  /\ post_process N a n_count (bitstring (repeat false k) :: more_shots) = Ok None.
Proof.
  intros HN Hk.
  assert (int_base2 (bitstring (repeat false k)) = Ok 0) as Hv.
  { unfold int_base2. destruct k as [|k]; [lia|].
    change (bitstring (repeat false (S k)))
      with ("0"%char :: bitstring (repeat false k)).
    exact (int_digits_all_zero (S k)). }
  assert (2 ^ Z.of_nat n_count <> 0) as Hpow by (apply Z.pow_nonzero; lia).
  assert (extract_period (bitstring (repeat false k)) n_count N = Ok 1) as Er.
  { unfold extract_period. rewrite Hv. cbn [bind].
    rewrite (int_true_div_zero _ Hpow). cbn [bind].
    unfold limit_denominator, limit_denominator_fuel.
    destruct (Z.ltb_spec N 1); [lia|]. unfold denominator. cbn [Qden].
    destruct (Z.leb_spec 1 N); [|lia]. reflexivity. }
  split; [exact Er|].
  unfold post_process. cbn [first_shot bind]. rewrite Er. reflexivity.
Qed.

Lemma all_zero_outcome_is_rejected_witness :
  1 <= 15 /\ (1 <= 4)%nat
  /\ extract_period (bitstring (repeat false 4)) 4 15 = Ok 1
  /\ post_process 15 7 4 (bitstring (repeat false 4) :: []) = Ok None.
Proof.
  assert (1 <= 15) as H1 by lia.
  assert (1 <= 4)%nat as H2 by lia.
  split; [exact H1|]. split; [exact H2|].
  exact (all_zero_outcome_is_rejected 15 7 4 4 [] H1 H2).
Defined.

(** ** Soundness of the factors *)

Lemma gcd_nontrivial (N y : Z) :
  1 <= N -> Z.gcd y N <> 1 -> Z.gcd y N <> N -> nontrivial_divisor N (Z.gcd y N).
Proof.
  intros HN H1 H2. unfold nontrivial_divisor.
  pose proof (Z.gcd_divide_r y N) as Hd. pose proof (Z.gcd_nonneg y N) as Hnn.
  split; [exact Hd|].
  assert (Z.gcd y N <> 0) by (intros H0; apply Z.gcd_eq_0_r in H0; lia).
  apply Z.divide_pos_le in Hd; lia.
Qed.

(** A success tuple of the validation block holds the two gcds, and
    they are non-trivial divisors of [N]. *)
Lemma validate_and_factor_factors (N a r : Z) (v : PyVal) :
  1 <= N -> validate_and_factor N a r = Ok (Some v) ->
  v = VTuple [VInt (Z.gcd (a ^ (r / 2) mod N - 1) N);
              VInt (Z.gcd (a ^ (r / 2) mod N + 1) N); VInt a; VInt r]
  /\ nontrivial_divisor N (Z.gcd (a ^ (r / 2) mod N - 1) N)
  /\ nontrivial_divisor N (Z.gcd (a ^ (r / 2) mod N + 1) N).
Proof.
  intros HN Hv.
  assert (0 <= r / 2) as Hr2.
  { unfold validate_and_factor in Hv.
    destruct (negb (r mod 2 =? 0)); [discriminate|].
    unfold pow_mod in Hv. destruct (N =? 0); [discriminate|].
    destruct (Z.ltb_spec (r / 2) 0); [discriminate|lia]. }
  assert (0 <= r) as Hr.
  { destruct (Z.le_gt_cases 0 r) as [H|H]; [exact H|].
    assert (r / 2 < 0) by (apply Z.div_lt_upper_bound; lia). lia. }
  destruct (validate_and_factor_cases N a r HN Hr) as [E|Hc]; [congruence|].
  destruct Hc as [Hev [[Hx1 Hx2] [[H1 H1'] [H2 H2']]]].
  rewrite (validate_and_factor_accept N a r HN Hr Hev Hx1 Hx2 H1 H1' H2 H2') in Hv.
  injection Hv as <-.
  split; [reflexivity|]. split; apply gcd_nontrivial; assumption.
Qed.

(** X6.  Whatever the candidate period, a success tuple returned by the
    validation block holds two non-trivial divisors of [N]: each divides
    [N] and lies strictly between 1 and [N].  The block never checks that
    [a^r = 1 mod N]; the two gcds are sound all the same.  For odd [N] the
    two factors are coprime and their product divides [N]. *)
Theorem validated_factors_divide_N (N a r : Z) (v : PyVal) :
  1 <= N -> validate_and_factor N a r = Ok (Some v) ->
  exists f1 f2,
    v = VTuple [VInt f1; VInt f2; VInt a; VInt r]
    /\ nontrivial_divisor N f1 /\ nontrivial_divisor N f2
    /\ (Z.odd N = true -> Z.gcd f1 f2 = 1 /\ (f1 * f2 | N)).
Proof.
  intros HN Hv.
  destruct (validate_and_factor_factors N a r v HN Hv) as [-> [F1 F2]].
  set (x := a ^ (r / 2) mod N) in *.
  exists (Z.gcd (x - 1) N), (Z.gcd (x + 1) N).
  split; [reflexivity|]. split; [exact F1|]. split; [exact F2|].
  intros Hodd.
  assert (Z.gcd (Z.gcd (x - 1) N) (Z.gcd (x + 1) N) = 1) as Hco.
  { set (g := Z.gcd (Z.gcd (x - 1) N) (Z.gcd (x + 1) N)).
    assert ((g | x - 1)) as D1
      by (eapply Z.divide_trans; [apply Z.gcd_divide_l|apply Z.gcd_divide_l]).
    assert ((g | x + 1)) as D2
      by (eapply Z.divide_trans; [apply Z.gcd_divide_r|apply Z.gcd_divide_l]).
    assert ((g | N)) as D3
      by (eapply Z.divide_trans; [apply Z.gcd_divide_l|apply Z.gcd_divide_r]).
    assert ((g | 2)) as D4.
    { replace 2 with ((x + 1) - (x - 1)) by ring. apply Z.divide_sub_r; assumption. }
    assert (0 <= g) as Hg0 by apply Z.gcd_nonneg.
    apply Z.divide_pos_le in D4 as Hle; [|lia].
    assert (g <> 0) by (intros H0; rewrite H0 in D4; destruct D4 as [k Hk]; lia).
    assert (g <> 2).
    { intros H2g. rewrite H2g in D3. destruct D3 as [k Hk].
      rewrite Hk in Hodd. rewrite Z.mul_comm, Z.odd_mul in Hodd. discriminate. }
    lia. }
  split; [exact Hco|].
  destruct (Z.gcd_divide_r (x - 1) N) as [k Hk].
  assert ((Z.gcd (x + 1) N | k)) as Hk2.
  { apply Z.gauss with (m := Z.gcd (x - 1) N).
    - rewrite Z.mul_comm, <- Hk. apply Z.gcd_divide_r.
    - rewrite Z.gcd_comm. exact Hco. }
  destruct Hk2 as [k' Hk']. exists k'. rewrite Hk at 1. rewrite Hk'. ring.
Qed.

Lemma validated_factors_divide_N_witness :
  1 <= 105 /\ validate_and_factor 105 4 2 = Ok (Some (VTuple [VInt 3; VInt 5; VInt 4; VInt 2]))
  /\ exists f1 f2,
       VTuple [VInt 3; VInt 5; VInt 4; VInt 2] = VTuple [VInt f1; VInt f2; VInt 4; VInt 2]
       /\ nontrivial_divisor 105 f1 /\ nontrivial_divisor 105 f2
       /\ (Z.odd 105 = true -> Z.gcd f1 f2 = 1 /\ (f1 * f2 | 105)).
Proof.
  assert (1 <= 105) as H1 by lia.
  assert (validate_and_factor 105 4 2 = Ok (Some (VTuple [VInt 3; VInt 5; VInt 4; VInt 2])))
    as H2 by reflexivity.
  split; [exact H1|]. split; [exact H2|].
  exact (validated_factors_divide_N 105 4 2 _ H1 H2).
Defined.

Lemma classical_shortcut_sound (N a : Z) (st st' : DriverState) (v : PyVal) :
  2 <= a <= N - 1 -> Z.gcd a N <> 1 ->
  classical_shortcut N a st = (Ok (Some v), st') -> sound_success N v.
Proof.
  intros Ha Hg. rewrite classical_shortcut_eval by lia. intros H. injection H as <- _.
  pose proof (Z.gcd_divide_r a N) as Hd. pose proof (Z.gcd_divide_l a N) as Hda.
  pose proof (Z.gcd_nonneg a N) as Hnn.
  assert (Z.gcd a N <> 0) by (intros H0; apply Z.gcd_eq_0_l in H0; lia).
  apply Z.divide_pos_le in Hda; [|lia].
  assert (Z.gcd a N * (N / Z.gcd a N) = N) as Hmul.
  { destruct Hd as [k Hk].
    assert (N / Z.gcd a N = k) as -> by (rewrite Hk at 1; apply Z.div_mul; assumption).
    lia. }
  exists (Z.gcd a N), (N / Z.gcd a N), a, VNone.
  split; [reflexivity|]. split; [split; [exact Hd|lia]|].
  split; [|split; [exact Ha|intros _; exact Hmul]].
  split; [exists (Z.gcd a N); rewrite <- Hmul at 1; ring|nia].
Qed.

Lemma validated_success_sound (N a r : Z) (v : PyVal) :
  2 <= a <= N - 1 -> validate_and_factor N a r = Ok (Some v) -> sound_success N v.
Proof.
  intros Ha Hv.
  destruct (validate_and_factor_factors N a r v ltac:(lia) Hv) as [-> [H1 H2]].
  eexists _, _, a, (VInt r). repeat split; try apply H1; try apply H2; try lia.
  discriminate.
Qed.

Section DriverSoundness.

Variable L : AdderLibrary.
Variable W : World.
Variable N : Z.
Variable n_count : nat.
Hypothesis draws_in_range : forall i : nat, 2 <= randint_draw W i <= N - 1.

Lemma shors_algorithm_trial_sound (st st' : DriverState) (v : PyVal) :
  shors_algorithm_trial L W N n_count st = (Ok (Some v), st') -> sound_success N v.
Proof.
  pose proof (draws_in_range (rng_calls st)) as Ha.
  unfold shors_algorithm_trial, bindM at 1. rewrite randint_in_range by lia.
  destruct (Z.eqb_spec (Z.gcd (randint_draw W (rng_calls st)) N) 1) as [Hg|Hg]; cbn [negb].
  - unfold bindM, building, aer_run, lift. cbn [rng_calls built submitted Nat.eqb].
    destruct (build_shors_qc L N _ n_count) as [qc|e]; [|discriminate].
    destruct (first_shot _) as [measured|e]; [|discriminate].
    destruct (extract_period measured n_count N) as [r|e]; [|discriminate].
    intros H. injection H as Hv _. exact (validated_success_sound N _ r v Ha Hv).
  - apply classical_shortcut_sound; assumption.
Qed.

Lemma run_shors_aer_trial_sound (shots : nat) (st st' : DriverState) (v : PyVal) :
  run_shors_aer_trial L W N n_count shots st = (Ok (Some v), st') -> sound_success N v.
Proof.
  pose proof (draws_in_range (rng_calls st)) as Ha.
  unfold run_shors_aer_trial, bindM at 1. rewrite randint_in_range by lia.
  destruct (Z.eqb_spec (Z.gcd (randint_draw W (rng_calls st)) N) 1) as [Hg|Hg]; cbn [negb].
  - unfold run_shors_single, bindM, building, aer_run, lift, ret.
    cbn [rng_calls built submitted].
    destruct (build_shors_qc L N _ n_count) as [qc|e]; [|discriminate].
    destruct (shots =? 0)%nat; [discriminate|].
    destruct (first_shot _) as [measured|e]; [|discriminate].
    destruct (extract_period measured n_count N) as [r|e]; [|discriminate].
    destruct (validate_and_factor N _ r) as [[w|]|e] eqn:Ev; [| |discriminate].
    + pose proof (validated_success_sound N _ r w Ha Ev) as Hs.
      assert (truthy w = true) as -> by (destruct Hs as [? [? [? [? [-> _]]]]]; reflexivity).
      intros H. injection H as <- _. exact Hs.
    + cbn [truthy]. discriminate.
  - apply classical_shortcut_sound; assumption.
Qed.

Lemma qrings_trial_sound (st st' : DriverState) (v : PyVal) :
  qrings_trial L W N n_count st = (Ok (Some v), st') -> sound_success N v.
Proof.
  pose proof (draws_in_range (rng_calls st)) as Ha.
  unfold qrings_trial, bindM at 1. rewrite randint_in_range by lia.
  destruct (Z.eqb_spec (Z.gcd (randint_draw W (rng_calls st)) N) 1) as [Hg|Hg]; cbn [negb].
  - unfold run_shors_on_quantum_rings_qrings, bindM, building, qrings_run, lift.
    cbn [rng_calls built submitted].
    destruct (build_shors_qc_sampler_ready L N _ n_count) as [qc|e]; [|discriminate].
    destruct (qrings_job W _) as [raw_counts|e]; [|discriminate].
    destruct (normalize_counts _) as [counts|e]; [|discriminate].
    destruct (max_key counts) as [measured|e]; [|discriminate].
    destruct (extract_period measured n_count N) as [r|e]; [|discriminate].
    intros H. injection H as Hv _. exact (validated_success_sound N _ r v Ha Hv).
  - apply classical_shortcut_sound; assumption.
Qed.

Lemma shors_algorithm_loop_sound (trials : nat) :
  forall (st st' : DriverState) (v : PyVal),
    shors_algorithm_loop L W N n_count trials st = (Ok v, st') ->
    v = VTuple [VNone; VNone; VNone; VNone] \/ sound_success N v.
Proof.
  induction trials as [|trials IH]; intros st st' v; cbn [shors_algorithm_loop].
  - unfold ret. intros H. injection H as <- _. left. reflexivity.
  - unfold bindM at 1.
    destruct (shors_algorithm_trial L W N n_count st) as [[[w|]|e] st1] eqn:Et;
      [| |discriminate].
    + unfold ret. intros H. injection H as <- _. right.
      exact (shors_algorithm_trial_sound st st1 w Et).
    + apply IH.
Qed.

Lemma run_shors_aer_loop_sound (shots trials : nat) :
  forall (st st' : DriverState) (v : PyVal),
    run_shors_aer_loop L W N n_count shots trials st = (Ok v, st') ->
    v = VNone \/ sound_success N v.
Proof.
  induction trials as [|trials IH]; intros st st' v; cbn [run_shors_aer_loop].
  - unfold ret. intros H. injection H as <- _. left. reflexivity.
  - unfold bindM at 1.
    destruct (run_shors_aer_trial L W N n_count shots st) as [[[w|]|e] st1] eqn:Et;
      [| |discriminate].
    + unfold ret. intros H. injection H as <- _. right.
      exact (run_shors_aer_trial_sound shots st st1 w Et).
    + apply IH.
Qed.

Lemma qrings_loop_sound (trials : nat) :
  forall (st st' : DriverState) (v : PyVal),
    qrings_loop L W N n_count trials st = (Ok v, st') ->
    v = VNone \/ sound_success N v.
Proof.
  induction trials as [|trials IH]; intros st st' v; cbn [qrings_loop].
  - unfold ret. intros H. injection H as <- _. left. reflexivity.
  - unfold bindM at 1.
    destruct (qrings_trial L W N n_count st) as [[[w|]|e] st1] eqn:Et; [| |discriminate].
    + unfold ret. intros H. injection H as <- _. right.
      exact (qrings_trial_sound st st1 w Et).
    + apply IH.
Qed.

End DriverSoundness.

(** X7.  The drivers never return a wrong factor.  When the draws of
    [random.randint(2, N - 1)] lie in their range, whatever the backend
    answers and whatever the adder library, a value returned by
    [shors_algorithm], [run_shors_aer] or
    [run_shors_with_random_a_qrings] is either the driver's not-found
    sentinel or a tuple [(f1, f2, a, r)] in which [f1] and [f2] both
    divide [N] and lie strictly between 1 and [N] and [a] is a drawn
    base; when the tuple comes from the classical shortcut, [f1 * f2 = N]. *)
Theorem drivers_return_only_true_factors (L : AdderLibrary) (W : World) (N : Z)
  (n_count n_bits shots max_trials : nat) (st : DriverState) :
  (forall i : nat, 2 <= randint_draw W i <= N - 1) ->
  (forall v st',
     shors_algorithm L W N n_count max_trials st = (Ok v, st') ->
     v = VTuple [VNone; VNone; VNone; VNone] \/ sound_success N v)
  /\ (forall v st',
        run_shors_aer L W N n_count max_trials shots st = (Ok v, st') ->
        v = VNone \/ sound_success N v)
  /\ (forall v st',
        run_shors_with_random_a_qrings L W N n_count n_bits max_trials st = (Ok v, st') ->
        v = VNone \/ sound_success N v).
Proof.
  intros Hd. split; [|split]; intros v st'.
  - apply shors_algorithm_loop_sound; exact Hd.
  - apply run_shors_aer_loop_sound; exact Hd.
  - apply qrings_loop_sound; exact Hd.
Qed.

Lemma drivers_return_only_true_factors_witness :
  (forall i : nat, 2 <= randint_draw (constant_world 7 [false; true; false; false]) i <= 15 - 1)
  /\ sound_success 15 (VTuple [VInt 3; VInt 5; VInt 7; VInt 4]).
Proof.
  assert (forall i : nat,
            2 <= randint_draw (constant_world 7 [false; true; false; false]) i <= 15 - 1)
    as Hd by (intros i; simpl; lia).
  split; [exact Hd|].
  destruct (proj1 (drivers_return_only_true_factors qiskit_cdkm
                     (constant_world 7 [false; true; false; false]) 15 4 20 1 3
                     initial_state Hd)
              (VTuple [VInt 3; VInt 5; VInt 7; VInt 4])
              (snd (shors_algorithm qiskit_cdkm
                      (constant_world 7 [false; true; false; false]) 15 4 3 initial_state)))
    as [H|H].
  - vm_compute. reflexivity.
  - discriminate H.
  - exact H.
Defined.

(** ** Resources used by a run *)

Lemma runs_within_refl (st : DriverState) : runs_within 0 st st.
Proof.
  unfold runs_within. repeat split; try lia. exists []. rewrite app_nil_r. split; [reflexivity|].
  cbn [length]. lia.
Qed.

Lemma runs_within_weaken (k k' : nat) (st st' : DriverState) :
  (k <= k')%nat -> runs_within k st st' -> runs_within k' st st'.
Proof.
  intros Hk [Hr [Hb [Hbr Hs]]]. unfold runs_within. repeat split; try lia. exact Hs.
Qed.

Lemma runs_within_trans (k1 k2 : nat) (st st1 st2 : DriverState) :
  runs_within k1 st st1 -> runs_within k2 st1 st2 -> runs_within (k1 + k2) st st2.
Proof.
  intros [Hr [Hb [Hbr [n1 [E1 L1]]]]] [Hr' [Hb' [Hbr' [n2 [E2 L2]]]]].
  unfold runs_within. repeat split; try lia.
  exists (n1 ++ n2). rewrite E2, E1, app_assoc. split; [reflexivity|].
  rewrite length_app. lia.
Qed.

Lemma runs_within_draw (st : DriverState) :
  runs_within 1 st (mkState (S (rng_calls st)) (built st) (submitted st)).
Proof.
  unfold runs_within. cbn [rng_calls built submitted]. repeat split; try lia.
  exists []. rewrite app_nil_r. split; [reflexivity|]. cbn [length]. lia.
Qed.

Lemma runs_within_build (st : DriverState) :
  runs_within 1 st (mkState (S (rng_calls st)) (S (built st)) (submitted st)).
Proof.
  unfold runs_within. cbn [rng_calls built submitted]. repeat split; try lia.
  exists []. rewrite app_nil_r. split; [reflexivity|]. cbn [length]. lia.
Qed.

Lemma runs_within_submit (st : DriverState) (qc : QuantumCircuit) :
  runs_within 1 st (mkState (S (rng_calls st)) (S (built st)) (submitted st ++ [qc])).
Proof.
  unfold runs_within. cbn [rng_calls built submitted]. repeat split; try lia.
  exists [qc]. split; [reflexivity|]. cbn [length]. lia.
Qed.

Lemma classical_shortcut_state (N a : Z) (st : DriverState) :
  snd (classical_shortcut N a st) = st.
Proof.
  unfold classical_shortcut, bindM, lift, ret.
  destruct (floordiv N (Z.gcd a N)); reflexivity.
Qed.

Section Resources.

Variable L : AdderLibrary.
Variable W : World.
Variable N : Z.
Variable n_count : nat.

Lemma shors_algorithm_trial_within (st : DriverState) :
  runs_within 1 st (snd (shors_algorithm_trial L W N n_count st)).
Proof.
  unfold shors_algorithm_trial, bindM at 1, randint.
  destruct (N - 1 <? 2); [apply (runs_within_weaken 0); [lia|apply runs_within_refl]|].
  destruct (negb (Z.gcd _ N =? 1)).
  - rewrite classical_shortcut_state. apply runs_within_draw.
  - unfold bindM, building, aer_run, lift. cbn [rng_calls built submitted Nat.eqb].
    destruct (build_shors_qc L N _ n_count) as [qc|e]; [|apply runs_within_build].
    destruct (first_shot _) as [measured|e]; [|apply runs_within_submit].
    destruct (extract_period measured n_count N) as [r|e]; [|apply runs_within_submit].
    apply runs_within_submit.
Qed.

Lemma run_shors_aer_trial_within (shots : nat) (st : DriverState) :
  runs_within 1 st (snd (run_shors_aer_trial L W N n_count shots st)).
Proof.
  unfold run_shors_aer_trial, bindM at 1, randint.
  destruct (N - 1 <? 2); [apply (runs_within_weaken 0); [lia|apply runs_within_refl]|].
  destruct (negb (Z.gcd _ N =? 1)).
  - rewrite classical_shortcut_state. apply runs_within_draw.
  - unfold run_shors_single, bindM, building, aer_run, lift, ret.
    cbn [rng_calls built submitted].
    destruct (build_shors_qc L N _ n_count) as [qc|e]; [|apply runs_within_build].
    destruct (shots =? 0)%nat; [apply runs_within_submit|].
    destruct (first_shot _) as [measured|e]; [|apply runs_within_submit].
    destruct (extract_period measured n_count N) as [r|e]; [|apply runs_within_submit].
    destruct (validate_and_factor N _ r) as [[w|]|e]; [| |apply runs_within_submit].
    + destruct (truthy w); apply runs_within_submit.
    + apply runs_within_submit.
Qed.

Lemma qrings_trial_within (st : DriverState) :
  runs_within 1 st (snd (qrings_trial L W N n_count st)).
Proof.
  unfold qrings_trial, bindM at 1, randint.
  destruct (N - 1 <? 2); [apply (runs_within_weaken 0); [lia|apply runs_within_refl]|].
  destruct (negb (Z.gcd _ N =? 1)).
  - rewrite classical_shortcut_state. apply runs_within_draw.
  - unfold run_shors_on_quantum_rings_qrings, bindM, building, qrings_run, lift.
    cbn [rng_calls built submitted].
    destruct (build_shors_qc_sampler_ready L N _ n_count) as [qc|e];
      [|apply runs_within_build].
    destruct (qrings_job W _) as [raw_counts|e]; [|apply runs_within_submit].
    destruct (normalize_counts _) as [counts|e]; [|apply runs_within_submit].
    destruct (max_key counts) as [measured|e]; [|apply runs_within_submit].
    destruct (extract_period measured n_count N) as [r|e]; [|apply runs_within_submit].
    apply runs_within_submit.
Qed.

Lemma shors_algorithm_loop_within (trials : nat) :
  forall st, runs_within trials st (snd (shors_algorithm_loop L W N n_count trials st)).
Proof.
  induction trials as [|trials IH]; intros st; cbn [shors_algorithm_loop].
  - apply runs_within_refl.
  - unfold bindM at 1. pose proof (shors_algorithm_trial_within st) as Ht.
    destruct (shors_algorithm_trial L W N n_count st) as [[[w|]|e] st1]; cbn [snd] in *.
    + apply (runs_within_weaken 1); [lia|exact Ht].
    + apply (runs_within_trans 1 trials st st1); [exact Ht|apply IH].
    + apply (runs_within_weaken 1); [lia|exact Ht].
Qed.

Lemma run_shors_aer_loop_within (shots trials : nat) :
  forall st, runs_within trials st (snd (run_shors_aer_loop L W N n_count shots trials st)).
Proof.
  induction trials as [|trials IH]; intros st; cbn [run_shors_aer_loop].
  - apply runs_within_refl.
  - unfold bindM at 1. pose proof (run_shors_aer_trial_within shots st) as Ht.
    destruct (run_shors_aer_trial L W N n_count shots st) as [[[w|]|e] st1]; cbn [snd] in *.
    + apply (runs_within_weaken 1); [lia|exact Ht].
    + apply (runs_within_trans 1 trials st st1); [exact Ht|apply IH].
    + apply (runs_within_weaken 1); [lia|exact Ht].
Qed.

Lemma qrings_loop_within (trials : nat) :
  forall st, runs_within trials st (snd (qrings_loop L W N n_count trials st)).
Proof.
  induction trials as [|trials IH]; intros st; cbn [qrings_loop].
  - apply runs_within_refl.
  - unfold bindM at 1. pose proof (qrings_trial_within st) as Ht.
    destruct (qrings_trial L W N n_count st) as [[[w|]|e] st1]; cbn [snd] in *.
    + apply (runs_within_weaken 1); [lia|exact Ht].
    + apply (runs_within_trans 1 trials st st1); [exact Ht|apply IH].
    + apply (runs_within_weaken 1); [lia|exact Ht].
Qed.

End Resources.

(** X8.  A run stays within its trial budget whatever happens.  For every
    world, modulus and adder library, and whether the driver returns or
    raises, [shors_algorithm], [run_shors_aer] and
    [run_shors_with_random_a_qrings] make at most [max_trials] draws,
    build at most one circuit per draw, submit at most one circuit per
    circuit built, and keep the circuits submitted before. *)
Theorem drivers_stay_within_max_trials (L : AdderLibrary) (W : World) (N : Z)
  (n_count n_bits shots max_trials : nat) (st : DriverState) :
  runs_within max_trials st (snd (shors_algorithm L W N n_count max_trials st))
  /\ runs_within max_trials st (snd (run_shors_aer L W N n_count max_trials shots st))
  /\ runs_within max_trials st
       (snd (run_shors_with_random_a_qrings L W N n_count n_bits max_trials st)).
Proof.
  split; [apply shors_algorithm_loop_within|].
  split; [apply run_shors_aer_loop_within|apply qrings_loop_within].
Qed.

(** ** Layout of the order-finding circuit *)

Lemma for_enumerate_appends {A : Type} (L : AdderLibrary) (instr : A -> Instruction)
  (l : list A) :
  forall (j : nat) (qc : QuantumCircuit),
    Forall (fun a => length (snd (instr a)) = gate_num_qubits L (fst (instr a))
                     /\ Forall (fun q => (q < num_qubits qc)%nat) (snd (instr a))) l ->
    for_enumerate (fun _ a qc => append L (fst (instr a)) (snd (instr a)) qc) j l qc
    = Ok (mkCircuit (num_qubits qc) (num_clbits qc) (data qc ++ map instr l)).
Proof.
  induction l as [|a l IH]; intros j qc Hall; cbn [for_enumerate map].
  - rewrite app_nil_r. destruct qc; reflexivity.
  - inversion Hall as [|a' l' [Hlen Hq] Hrest]; subst.
    rewrite append_ok by assumption. cbn [bind].
    rewrite IH by exact Hrest. cbn [num_qubits num_clbits data].
    rewrite <- app_assoc. cbn [app]. rewrite <- surjective_pairing. reflexivity.
Qed.

Lemma h_data (L : AdderLibrary) (qubits : list nat) (qc : QuantumCircuit) :
  qubits <> [] ->
  Forall (fun q => (q < num_qubits qc)%nat) qubits ->
  h L qubits qc
  = Ok (mkCircuit (num_qubits qc) (num_clbits qc)
          (data qc ++ map (fun q => (HGate, [q])) qubits)).
Proof.
  intros Hne Hall. unfold h. destruct qubits as [|q0 qubits']; [contradiction|].
  set (qubits := q0 :: qubits') in *.
  apply (for_enumerate_appends L (fun q => (HGate, [q]))).
  apply Forall_forall. intros q Hq. cbn [fst snd]. split; [reflexivity|].
  constructor; [|constructor]. rewrite Forall_forall in Hall. apply Hall, Hq.
Qed.

Lemma combine_diag {A : Type} (l : list A) : combine l l = map (fun a => (a, a)) l.
Proof. induction l as [|a l IH]; [reflexivity|]. cbn [combine map]. rewrite IH. reflexivity. Qed.

Lemma measure_data (L : AdderLibrary) (qubits : list nat) (qc : QuantumCircuit) :
  Forall (fun q => (q < num_qubits qc)%nat) qubits ->
  measure L qubits qubits qc
  = Ok (mkCircuit (num_qubits qc) (num_clbits qc)
          (data qc ++ map (fun i => (Measure i, [i])) qubits)).
Proof.
  intros Hall. unfold measure. rewrite Nat.eqb_refl. cbn [negb].
  rewrite combine_diag.
  rewrite (for_enumerate_appends L (fun qc' : nat * nat => (Measure (snd qc'), [fst qc']))).
  - rewrite map_map. reflexivity.
  - apply Forall_forall. intros [q c] Hq. cbn [fst snd]. split; [reflexivity|].
    constructor; [|constructor]. apply in_map_iff in Hq. destruct Hq as [q' [E Hin]].
    injection E as <- _. rewrite Forall_forall in Hall. apply Hall, Hin.
Qed.

(** X9.  Layout of the order-finding circuit.  For a modulus [N] with
    [2 <= N <= 2^48], where [ceil(log2(N))] is computed without rounding
    error, and at least one counting qubit,
    [build_shors_qc_sampler_ready] returns the circuit on
    [n_count + work_qubits] qubits that holds one Hadamard on each counting
    qubit, then the gate of [controlled_modular_exponentiation] on all the
    qubits in order, then the inverse QFT on the counting qubits; its
    assertion on the gate's width holds.  [build_shors_qc] returns the same
    gates followed by the measurement of counting qubit [i] into classical
    bit [i], over [n_count] classical bits; no work qubit is measured. *)
Theorem shor_circuit_layout (L : AdderLibrary) (N a : Z) (n_count : nat) :
  (forall n : nat, (2 * n <= adder_num_qubits L n)%nat) ->
  2 <= N <= 2 ^ 48 -> (1 <= n_count)%nat ->
  exists n_bits modexp_gate,
    ceil_log2 N = Ok n_bits
    /\ controlled_modular_exponentiation L a N n_count = Ok modexp_gate
    /\ gate_num_qubits L modexp_gate = (n_count + adder_num_qubits L n_bits)%nat
    /\ let total := (n_count + adder_num_qubits L n_bits)%nat in
       let gates := map (fun q => (HGate, [q])) (seq 0 n_count)
                    ++ [(modexp_gate, seq 0 total);
                        (QFTGate n_count true, seq 0 n_count)] in
       build_shors_qc_sampler_ready L N a n_count = Ok (mkCircuit total 0 gates)
       /\ build_shors_qc L N a n_count
          = Ok (mkCircuit total n_count
                  (gates ++ map (fun i => (Measure i, [i])) (seq 0 n_count))).
Proof.
  intros adder_wide [HN Hbound] Hcount.
  destruct (controlled_modular_exponentiation_circuit_ok L adder_wide a N n_count HN)
    as [n_bits [mexp [En [Em Hq]]]].
  destruct (ceil_log2_ok N HN) as [n_bits' [En' [Hn _]]].
  rewrite En in En'. injection En' as <-.
  exists n_bits, (to_gate mexp).
  split; [exact En|].
  split; [unfold controlled_modular_exponentiation; rewrite Em; reflexivity|].
  split; [exact Hq|].
  cbv zeta.
  assert (seq 0 n_count ++ seq n_count (adder_num_qubits L n_bits)
          = seq 0 (n_count + adder_num_qubits L n_bits)) as Hseq
    by (rewrite seq_app; reflexivity).
  split.
  - unfold build_shors_qc_sampler_ready. rewrite En. cbn [bind].
    unfold CDKMRippleCarryAdder. destruct (Nat.ltb_spec n_bits 1); [lia|]. cbn [bind].
    unfold reg_all. cbn [reg_offset reg_size]. rewrite firstn_skipn.
    rewrite firstn_seq by lia.
    rewrite h_data
      by (try (apply seq_not_nil; exact Hcount); apply Forall_seq_lt; cbn [num_qubits]; lia).
    cbn [bind num_qubits num_clbits data app].
    unfold controlled_modular_exponentiation. rewrite Em. cbn [bind].
    cbn [gate_num_qubits to_gate]. rewrite Hq, Nat.eqb_refl. cbn [negb].
    rewrite append_ok;
      [|cbn [gate_num_qubits]; rewrite length_seq; symmetry; exact Hq
       |apply Forall_seq_lt; cbn [num_qubits]; lia].
    cbn [bind num_qubits num_clbits data].
    rewrite append_ok;
      [|cbn [gate_num_qubits]; apply length_seq
       |apply Forall_seq_lt; cbn [num_qubits]; lia].
    cbn [num_qubits num_clbits data]. rewrite <- app_assoc. reflexivity.
  - unfold build_shors_qc. rewrite En. cbn [bind].
    unfold CDKMRippleCarryAdder. destruct (Nat.ltb_spec n_bits 1); [lia|]. cbn [bind].
    unfold reg_all. cbn [reg_offset reg_size]. rewrite Hseq.
    rewrite h_data
      by (try (apply seq_not_nil; exact Hcount); apply Forall_seq_lt; cbn [num_qubits]; lia).
    cbn [bind num_qubits num_clbits data app].
    unfold controlled_modular_exponentiation. rewrite Em. cbn [bind].
    rewrite append_ok;
      [|cbn [gate_num_qubits to_gate]; rewrite length_seq; symmetry; exact Hq
       |apply Forall_seq_lt; cbn [num_qubits]; lia].
    cbn [bind num_qubits num_clbits data].
    rewrite append_ok;
      [|cbn [gate_num_qubits]; apply length_seq
       |apply Forall_seq_lt; cbn [num_qubits]; lia].
    cbn [bind].
    rewrite measure_data by (apply Forall_seq_lt; cbn [num_qubits]; lia).
    cbn [num_qubits num_clbits data]. rewrite <- !app_assoc. reflexivity.
Qed.

Lemma shor_circuit_layout_witness :
  (forall n : nat, (2 * n <= adder_num_qubits qiskit_cdkm n)%nat)
  /\ 2 <= 15 <= 2 ^ 48 /\ (1 <= 4)%nat
  /\ exists n_bits modexp_gate,
       ceil_log2 15 = Ok n_bits
       /\ controlled_modular_exponentiation qiskit_cdkm 7 15 4 = Ok modexp_gate
       /\ gate_num_qubits qiskit_cdkm modexp_gate
          = (4 + adder_num_qubits qiskit_cdkm n_bits)%nat
       /\ let total := (4 + adder_num_qubits qiskit_cdkm n_bits)%nat in
          let gates := map (fun q => (HGate, [q])) (seq 0 4)
                       ++ [(modexp_gate, seq 0 total); (QFTGate 4 true, seq 0 4)] in
          build_shors_qc_sampler_ready qiskit_cdkm 15 7 4 = Ok (mkCircuit total 0 gates)
          /\ build_shors_qc qiskit_cdkm 15 7 4
             = Ok (mkCircuit total 4
                     (gates ++ map (fun i => (Measure i, [i])) (seq 0 4))).
Proof.
  assert (2 <= 15 <= 2 ^ 48) as H1 by lia.
  assert (1 <= 4)%nat as H2 by lia.
  split; [exact qiskit_cdkm_wide|].
  split; [exact H1|]. split; [exact H2|].
  exact (shor_circuit_layout qiskit_cdkm 15 7 4 qiskit_cdkm_wide H1 H2).
Defined.

(** X10.  A modulus below two is refused by the builders, whatever the
    base, the number of counting qubits and the adder library:
    [log2] raises on a non-positive argument, and for [N = 1] the adder of
    width [ceil(log2(1)) = 0] is refused by the library.  Every one of
    [controlled_modular_exponentiation], [build_shors_qc] and
    [build_shors_qc_sampler_ready] raises [ValueError]. *)
Theorem builders_refuse_modulus_below_two (L : AdderLibrary) (N a : Z) (n_count : nat) :
  N < 2 ->
  controlled_modular_exponentiation L a N n_count = Raise ValueError
  /\ build_shors_qc L N a n_count = Raise ValueError
  /\ build_shors_qc_sampler_ready L N a n_count = Raise ValueError.
Proof.
  intros HN.
  unfold controlled_modular_exponentiation, controlled_modular_exponentiation_circuit,
    build_shors_qc, build_shors_qc_sampler_ready, ceil_log2.
  destruct (Z.leb_spec N 0) as [H0|H0]; [repeat split|].
  assert (N = 1) as -> by lia. repeat split.
Qed.

Lemma builders_refuse_modulus_below_two_witness :
  1 < 2
  /\ controlled_modular_exponentiation qiskit_cdkm 7 1 4 = Raise ValueError
  /\ build_shors_qc qiskit_cdkm 1 7 4 = Raise ValueError
  /\ build_shors_qc_sampler_ready qiskit_cdkm 1 7 4 = Raise ValueError.
Proof.
  split; [lia|].
  exact (builders_refuse_modulus_below_two qiskit_cdkm 1 7 4 ltac:(lia)).
Defined.

(** ** When the multiplier can be built *)

(** X11.  The multiplier is only ever built for a multiple of the modulus,
    and is then empty.  Whatever the adder library,
    [controlled_multiply_const_mod_N(a, N, n_bits)] returns a circuit
    exactly when [n_bits] is zero or [N] is non-zero and divides [a]; in
    every other case it raises, because an addition that is not skipped is
    a controlled gate on one qubit more than it is appended on.  The
    circuit returned holds no gate.  [multiply_const_mod_N] has the same
    body and behaves the same. *)
Theorem multiplier_builds_only_multiples_of_N (L : AdderLibrary) (a N : Z) (n_bits : nat) :
  (is_ok (controlled_multiply_const_mod_N L a N n_bits) = true
   <-> n_bits = 0%nat \/ (N <> 0 /\ a mod N = 0))
  /\ (forall qc, controlled_multiply_const_mod_N L a N n_bits = Ok qc ->
        qc = mkCircuit (n_bits + n_bits + n_bits + 1) 0 [])
  /\ multiply_const_mod_N L a N n_bits = controlled_multiply_const_mod_N L a N n_bits.
Proof.
  assert (forall qc, controlled_multiply_const_mod_N L a N n_bits = Ok qc ->
            qc = mkCircuit (n_bits + n_bits + n_bits + 1) 0 []) as Hempty.
  { unfold controlled_multiply_const_mod_N, for_range. intros qc H.
    apply (for_enumerate_preserves
             (fun s => s = mkCircuit (n_bits + n_bits + n_bits + 1) 0 [])) in H;
      [exact H| |reflexivity].
    intros j i s s' Hb Hs. apply multiplier_body_adds_nothing in Hb.
    destruct Hb as [_ [_ ->]]. exact Hs. }
  split; [|split; [exact Hempty|reflexivity]].
  split.
  - intros Hok. destruct n_bits as [|n]; [left; reflexivity|right].
    unfold controlled_multiply_const_mod_N, for_range in Hok.
    cbn [seq for_enumerate] in Hok.
    destruct (multiplier_body L a N (S n) _ _ _ _ 0 _) as [qc1|e] eqn:E1;
      [|discriminate].
    apply multiplier_body_adds_nothing in E1. destruct E1 as [HN [E _]].
    split; [exact HN|].
    change (2 ^ Z.of_nat 0) with 1 in E.
    rewrite Z.mul_mod_idemp_r in E by exact HN. rewrite Z.mul_1_r in E. exact E.
  - intros [->|[HN Ha]]; [reflexivity|].
    unfold controlled_multiply_const_mod_N.
    destruct (for_range_inv
                (fun s => s = mkCircuit (n_bits + n_bits + n_bits + 1) 0 [])
                (multiplier_body L a N n_bits (mkReg 0 n_bits) (mkReg n_bits n_bits)
                   (mkReg (2 * n_bits) n_bits) (mkReg (3 * n_bits) 1))
                n_bits (mkCircuit (n_bits + n_bits + n_bits + 1) 0 [])) as [qc [E _]].
    + reflexivity.
    + intros i s0 Hs0 _. exists s0. split; [|exact Hs0].
      apply multiplier_body_skips; assumption.
    + rewrite E. reflexivity.
Qed.

(** ** The outcome picked from the counts of a job *)

Lemma Qle_bool_false_lt (x y : Q) : Qle_bool x y = false -> (y < x)%Q.
Proof.
  intros H. apply Qnot_le_lt. intros Hle. apply Qle_bool_iff in Hle. congruence.
Qed.

Lemma max_from_first_largest (rest : list (list ascii * Q)) :
  forall best : list ascii * Q,
  exists (i : nat) (kv : list ascii * Q),
    nth_error (best :: rest) i = Some kv
    /\ max_from best rest = fst kv
    /\ (forall j kv', nth_error (best :: rest) j = Some kv' -> (snd kv' <= snd kv)%Q)
    /\ (forall j kv', (j < i)%nat -> nth_error (best :: rest) j = Some kv' ->
          (snd kv' < snd kv)%Q).
Proof.
  induction rest as [|kv0 rest IH]; intros best; cbn [max_from].
  - exists 0%nat, best. split; [reflexivity|]. split; [reflexivity|]. split.
    + intros [|j] kv' H; cbn in H; [injection H as <-; apply Qle_refl|].
      destruct j; discriminate.
    + intros j kv' Hj. lia.
  - destruct (Qle_bool (snd kv0) (snd best)) eqn:Hcmp.
    + apply Qle_bool_iff in Hcmp.
      destruct (IH best) as [i [kv [Hnth [Hmax [Hall Hbefore]]]]].
      destruct i as [|i].
      * cbn in Hnth. injection Hnth as <-.
        exists 0%nat, best. split; [reflexivity|]. split; [exact Hmax|]. split.
        -- intros [|[|j]] kv' H; cbn in H.
           ++ injection H as <-. apply Qle_refl.
           ++ injection H as <-. exact Hcmp.
           ++ apply (Hall (S j)). exact H.
        -- intros j kv' Hj. lia.
      * exists (S (S i)), kv. split; [exact Hnth|]. split; [exact Hmax|]. split.
        -- intros [|[|j]] kv' H; cbn in H.
           ++ injection H as <-. apply (Hall 0%nat). reflexivity.
           ++ injection H as <-. eapply Qle_trans; [exact Hcmp|].
              apply (Hall 0%nat). reflexivity.
           ++ apply (Hall (S j)). exact H.
        -- intros [|[|j]] kv' Hj H; cbn in H.
           ++ injection H as <-. apply (Hbefore 0%nat); [lia|reflexivity].
           ++ injection H as <-. eapply Qle_lt_trans; [exact Hcmp|].
              apply (Hbefore 0%nat); [lia|reflexivity].
           ++ apply (Hbefore (S j)); [lia|exact H].
    + apply Qle_bool_false_lt in Hcmp.
      destruct (IH kv0) as [i [kv [Hnth [Hmax [Hall Hbefore]]]]].
      exists (S i), kv. split; [exact Hnth|]. split; [exact Hmax|]. split.
      * intros [|j] kv' H; cbn in H.
        -- injection H as <-. apply Qlt_le_weak. eapply Qlt_le_trans; [exact Hcmp|].
           apply (Hall 0%nat). reflexivity.
        -- apply (Hall j). exact H.
      * intros [|j] kv' Hj H; cbn in H.
        -- injection H as <-. eapply Qlt_le_trans; [exact Hcmp|].
           apply (Hall 0%nat). reflexivity.
        -- apply (Hbefore j); [lia|exact H].
Qed.

Lemma round_half_even_error (n d : Z) :
  0 <= n -> 0 < d -> 2 * Z.abs (round_half_even n d * d - n) <= d.
Proof.
  intros Hn Hd. unfold round_half_even.
  pose proof (Z.div_mod n d ltac:(lia)) as Hdm.
  pose proof (Z.mod_pos_bound n d Hd) as Hr.
  destruct (Z.ltb_spec (2 * (n mod d)) d); [lia|].
  destruct (Z.ltb_spec d (2 * (n mod d))); [lia|].
  destruct (Z.even (n / d)); lia.
Qed.

(** A quotient below one is rounded on a grid of step at most [2^-53]: the
    float is [m / S] with [S >= 2^53] and is at most half a step away. *)
Lemma int_true_div_rounds (a b : Z) :
  0 <= a < b ->
  exists q m S,
    int_true_div a b = Ok q /\ (q == m # Z.to_pos S)%Q
    /\ 2 ^ 53 <= S /\ 2 * Z.abs (m * b - a * S) <= b.
Proof.
  intros [Ha Hab]. destruct (Z.eq_dec a 0) as [->|Ha0].
  - exists (0 # 1), 0, (2 ^ 53). rewrite int_true_div_zero by lia.
    split; [reflexivity|]. split; [reflexivity|]. split; lia.
  - unfold int_true_div.
    destruct (Z.eqb_spec b 0); [lia|]. destruct (Z.eqb_spec a 0); [contradiction|].
    assert (Z.sgn a * Z.sgn b = 1) as -> by (rewrite !Z.sgn_pos by lia; reflexivity).
    rewrite (Z.abs_eq a) by lia. rewrite (Z.abs_eq b) by lia.
    assert (quotient_exponent a b <= -1) as He.
    { unfold quotient_exponent, at_least_pow2.
      pose proof (Z.log2_le_mono a b ltac:(lia)) as Hl.
      destruct (Z.leb_spec 0 (Z.log2 a - Z.log2 b)) as [H0|H0].
      - assert (Z.log2 a - Z.log2 b = 0) as -> by lia.
        destruct (Z.leb_spec (b * 2 ^ 0) a); lia.
      - destruct (b <=? a * 2 ^ (- (Z.log2 a - Z.log2 b))); lia. }
    set (qe := Z.max (quotient_exponent a b - 52) (-1074)).
    assert (-1074 <= qe <= -53) as Hqe by (unfold qe; lia).
    destruct (Z.leb_spec 0 qe); [lia|].
    assert (2 ^ 53 <= 2 ^ (- qe)) as HS by (apply Z.pow_le_mono_r; lia).
    exists (Qred ((1 * round_half_even (a * 2 ^ (- qe)) b) # Z.to_pos (2 ^ (- qe)))),
      (round_half_even (a * 2 ^ (- qe)) b), (2 ^ (- qe)).
    split; [reflexivity|]. split; [rewrite Qred_correct, Z.mul_1_l; reflexivity|].
    split; [exact HS|]. apply round_half_even_error; nia.
Qed.

Lemma int_true_div_same (b : Z) : 0 < b -> int_true_div b b = Ok (1 # 1).
Proof.
  intros Hb. unfold int_true_div.
  destruct (Z.eqb_spec b 0); [lia|].
  assert (Z.sgn b * Z.sgn b = 1) as -> by (rewrite !Z.sgn_pos by lia; reflexivity).
  rewrite (Z.abs_eq b) by lia.
  assert (quotient_exponent b b = 0) as ->.
  { unfold quotient_exponent, at_least_pow2. rewrite Z.sub_diag. cbn [Z.leb Z.compare].
    destruct (Z.leb_spec (b * 2 ^ 0) b); [reflexivity|lia]. }
  change (Z.max (0 - 52) (-1074)) with (-52). cbn [Z.leb Z.compare Z.opp].
  rewrite (Z.mul_comm b), round_half_even_exact by exact Hb.
  f_equal.
Qed.

(** For counts of a total below [2^53], the float quotients keep the strict
    order of the counts. *)
Lemma int_true_div_increasing (c' c total : Z) (q' q : Q) :
  0 <= c' < c -> c <= total < 2 ^ 53 ->
  int_true_div c' total = Ok q' -> int_true_div c total = Ok q -> (q' < q)%Q.
Proof.
  intros Hc [Hct Ht] E' E.
  destruct (int_true_div_rounds c' total ltac:(lia)) as [p' [m' [S' [E1 [Hq' [HS' Herr']]]]]].
  rewrite E' in E1. apply Ok_inj in E1. subst p'.
  rewrite Hq'.
  destruct (Z.eq_dec c total) as [->|Hne].
  - rewrite int_true_div_same in E by lia. apply Ok_inj in E. subst q.
    unfold Qlt. cbn [Qnum Qden]. rewrite Z2Pos.id by lia.
    assert (2 * (m' * total) <= total + 2 * (c' * S')) by lia.
    nia.
  - destruct (int_true_div_rounds c total ltac:(lia)) as [p [m [S [E2 [Hq [HS Herr]]]]]].
    rewrite E in E2. apply Ok_inj in E2. subst p.
    rewrite Hq. unfold Qlt. cbn [Qnum Qden]. rewrite !Z2Pos.id by lia.
    assert (2 * (m' * total) <= total + 2 * (c' * S')) as H1 by lia.
    assert (2 * (c * S) - total <= 2 * (m * total)) as H2 by lia.
    assert (2 * (m' * total) * S <= (total + 2 * (c' * S')) * S) as H3
      by (apply Z.mul_le_mono_nonneg_r; lia).
    assert ((2 * (c * S) - total) * S' <= 2 * (m * total) * S') as H4
      by (apply Z.mul_le_mono_nonneg_r; lia).
    assert ((c' + 1) * (S * S') <= c * (S * S')) as H5
      by (apply Z.mul_le_mono_nonneg_r; nia).
    assert (total * S < S' * S) as H6 by (apply Z.mul_lt_mono_pos_r; lia).
    assert (total * S' < S * S') as H7 by (apply Z.mul_lt_mono_pos_r; lia).
    assert (total * (m' * S) < total * (m * S')) as H8 by lia.
    apply Z.mul_lt_mono_pos_l in H8; lia.
Qed.

Lemma int_true_div_le_inv (c' c total : Z) (q' q : Q) :
  0 <= c' <= total -> 0 <= c <= total -> total < 2 ^ 53 ->
  int_true_div c' total = Ok q' -> int_true_div c total = Ok q ->
  (q' <= q)%Q -> c' <= c.
Proof.
  intros Hc' Hc Ht E' E Hle. apply Z.nlt_ge. intros Hlt.
  pose proof (int_true_div_increasing c c' total q q' ltac:(lia) ltac:(lia) E E') as H.
  exact (Qlt_not_le _ _ H Hle).
Qed.

Lemma int_true_div_lt_inv (c' c total : Z) (q' q : Q) :
  0 <= c' <= total -> 0 <= c <= total -> total < 2 ^ 53 ->
  int_true_div c' total = Ok q' -> int_true_div c total = Ok q ->
  (q' < q)%Q -> c' < c.
Proof.
  intros Hc' Hc Ht E' E Hlt. apply Z.nle_gt. intros Hle.
  destruct (Z.eq_dec c c') as [->|Hne].
  - rewrite E in E'. apply Ok_inj in E'. subst q'. exact (Qlt_irrefl _ Hlt).
  - pose proof (int_true_div_increasing c c' total q q' ltac:(lia) ltac:(lia) E E') as H.
    exact (Qlt_irrefl _ (Qlt_trans _ _ _ H Hlt)).
Qed.

Lemma count_below_total (items : list (list ascii * Z)) :
  Forall (fun kv => 0 <= snd kv) items ->
  0 <= fold_right Z.add 0 (map snd items)
  /\ Forall (fun kv => 0 <= snd kv <= fold_right Z.add 0 (map snd items)) items.
Proof.
  induction 1 as [|kv items Hkv Hall [IH0 IH]]; cbn [map fold_right].
  - split; [lia|constructor].
  - split; [lia|]. constructor; [lia|].
    eapply Forall_impl; [|exact IH]. cbn beta. intros kv' Hkv'. lia.
Qed.

Lemma normalize_items_returns (total : Z) (items : list (list ascii * Z)) :
  0 < total -> Forall (fun kv => 0 <= snd kv <= total) items ->
  exists counts, normalize_items total items = Ok counts.
Proof.
  intros Ht. induction 1 as [|[k c] items Hkv Hall [counts IH]]; cbn [normalize_items].
  - eauto.
  - cbn [snd] in Hkv.
    assert (exists q, int_true_div c total = Ok q) as [q ->].
    { destruct (Z.eq_dec c total) as [->|Hne].
      - rewrite int_true_div_same by exact Ht. eauto.
      - apply int_true_div_below_one. lia. }
    cbn [bind]. rewrite IH. cbn [bind]. eauto.
Qed.

Lemma normalize_items_nth (total : Z) (items : list (list ascii * Z)) :
  forall counts, normalize_items total items = Ok counts ->
    (forall i k q, nth_error counts i = Some (k, q) ->
       exists c, nth_error items i = Some (k, c) /\ int_true_div c total = Ok q)
    /\ (forall i k c, nth_error items i = Some (k, c) ->
          exists q, nth_error counts i = Some (k, q) /\ int_true_div c total = Ok q).
Proof.
  induction items as [|[k0 c0] items IH]; intros counts; cbn [normalize_items].
  - intros H. apply Ok_inj in H. subst counts.
    split; intros [|i] k x H; discriminate H.
  - destruct (int_true_div c0 total) as [q0|e] eqn:E0; [|discriminate]. cbn [bind].
    destruct (normalize_items total items) as [rest|e]; [|discriminate]. cbn [bind].
    intros H. apply Ok_inj in H. subst counts.
    destruct (IH rest eq_refl) as [IH1 IH2].
    split; intros [|i] k x H; cbn [nth_error] in *.
    + injection H as <- <-. eauto.
    + apply IH1, H.
    + injection H as <- <-. eauto.
    + apply IH2, H.
Qed.

(** X12.  The outcome used by [run_shors_with_random_a_qrings] is the
    first most frequent one.  For raw counts that are not negative and
    whose total is positive and below [2^53], so that distinct counts have
    distinct float quotients, normalising them and taking
    [max(counts, key=counts.get)] raises nothing and returns the bitstring
    of an entry whose raw count is at least every other raw count and
    strictly above every raw count listed before it. *)
Theorem most_frequent_outcome_is_selected (raw_counts : list (list ascii * Z)) :
  Forall (fun kv => 0 <= snd kv) raw_counts ->
  0 < fold_right Z.add 0 (map snd raw_counts) < 2 ^ 53 ->
  exists counts measured_bitstring i c,
    normalize_counts raw_counts = Ok counts
    /\ max_key counts = Ok measured_bitstring
    /\ nth_error raw_counts i = Some (measured_bitstring, c)
    /\ (forall j k' c', nth_error raw_counts j = Some (k', c') -> c' <= c)
    /\ (forall j k' c', (j < i)%nat -> nth_error raw_counts j = Some (k', c') -> c' < c).
Proof.
  intros Hnn [Htotal Hbound].
  destruct (count_below_total raw_counts Hnn) as [_ Hall].
  set (total := fold_right Z.add 0 (map snd raw_counts)) in *.
  destruct (normalize_items_returns total raw_counts Htotal Hall) as [counts En].
  destruct (normalize_items_nth total raw_counts counts En) as [Hback Hforth].
  destruct counts as [|best rest].
  { destruct raw_counts as [|[k c] items]; [cbn in total; lia|].
    destruct (Hforth 0%nat k c eq_refl) as [q [H _]]. discriminate H. }
  destruct (max_from_first_largest rest best)
    as [i [[k q] [Hnth [Hmax [Hle Hlt]]]]].
  destruct (Hback i k q Hnth) as [c [Ei Eq]].
  assert (forall j k' c', nth_error raw_counts j = Some (k', c') -> 0 <= c' <= total)
    as Hrange.
  { intros j k' c' Hj. apply nth_error_In in Hj. rewrite Forall_forall in Hall.
    exact (Hall _ Hj). }
  exists (best :: rest), k, i, c.
  split; [exact En|]. split; [cbn [max_key]; rewrite Hmax; reflexivity|].
  split; [exact Ei|]. split.
  - intros j k' c' Hj. destruct (Hforth j k' c' Hj) as [q' [Hq' Eq']].
    apply (int_true_div_le_inv c' c total q' q (Hrange _ _ _ Hj) (Hrange _ _ _ Ei)
             Hbound Eq' Eq).
    exact (Hle j (k', q') Hq').
  - intros j k' c' Hji Hj. destruct (Hforth j k' c' Hj) as [q' [Hq' Eq']].
    apply (int_true_div_lt_inv c' c total q' q (Hrange _ _ _ Hj) (Hrange _ _ _ Ei)
             Hbound Eq' Eq).
    exact (Hlt j (k', q') Hji Hq').
Qed.

Lemma most_frequent_outcome_is_selected_witness :
  Forall (fun kv : list ascii * Z => 0 <= snd kv)
    [(bitstring [false; false], 3); (bitstring [false; true], 5);
     (bitstring [true; false], 5)]
  /\ 0 < fold_right Z.add 0
           (map snd [(bitstring [false; false], 3); (bitstring [false; true], 5);
                     (bitstring [true; false], 5)]) < 2 ^ 53
  /\ exists counts measured_bitstring i c,
       normalize_counts [(bitstring [false; false], 3); (bitstring [false; true], 5);
                         (bitstring [true; false], 5)] = Ok counts
       /\ max_key counts = Ok measured_bitstring
       /\ nth_error [(bitstring [false; false], 3); (bitstring [false; true], 5);
                     (bitstring [true; false], 5)] i = Some (measured_bitstring, c)
       /\ (forall j k' c',
             nth_error [(bitstring [false; false], 3); (bitstring [false; true], 5);
                        (bitstring [true; false], 5)] j = Some (k', c') -> c' <= c)
       /\ (forall j k' c', (j < i)%nat ->
             nth_error [(bitstring [false; false], 3); (bitstring [false; true], 5);
                        (bitstring [true; false], 5)] j = Some (k', c') -> c' < c).
Proof.
  assert (Forall (fun kv : list ascii * Z => 0 <= snd kv)
            [(bitstring [false; false], 3); (bitstring [false; true], 5);
             (bitstring [true; false], 5)]) as H1
    by (repeat constructor; cbn [snd]; lia).
  assert (0 < fold_right Z.add 0
                (map snd [(bitstring [false; false], 3); (bitstring [false; true], 5);
                          (bitstring [true; false], 5)]) < 2 ^ 53) as H2
    by (cbn [map snd fold_right]; lia).
  split; [exact H1|]. split; [exact H2|].
  exact (most_frequent_outcome_is_selected _ H1 H2).
Defined.

(** ** From a period to the factors *)

Lemma square_root_of_one (N a r : Z) :
  2 <= N -> 0 <= r -> r mod 2 = 0 -> a ^ r mod N = 1 ->
  (N | (a ^ (r / 2) mod N - 1) * (a ^ (r / 2) mod N + 1)).
Proof.
  intros HN Hr Hev Hord. set (y := a ^ (r / 2) mod N).
  assert (r = r / 2 + r / 2) as Hhalf.
  { pose proof (Z.div_mod r 2 ltac:(lia)) as Hdm. lia. }
  assert (0 <= r / 2) as Hh by (apply Z.div_pos; lia).
  assert ((y * y) mod N = 1) as Hsq.
  { unfold y. rewrite <- Z.mul_mod by lia. rewrite <- Z.pow_add_r by exact Hh.
    rewrite <- Hhalf. exact Hord. }
  replace ((y - 1) * (y + 1)) with (y * y - 1) by ring.
  apply Z.mod_divide; [lia|].
  rewrite Zminus_mod, Hsq. rewrite (Z.mod_small 1 N) by lia. reflexivity.
Qed.

Lemma gcd_of_root_nontrivial (N y : Z) :
  2 <= N -> 0 <= y < N -> y <> 1 -> y <> N - 1 ->
  (N | (y - 1) * (y + 1)) ->
  (Z.gcd (y - 1) N <> 1 /\ Z.gcd (y - 1) N <> N)
  /\ (Z.gcd (y + 1) N <> 1 /\ Z.gcd (y + 1) N <> N).
Proof.
  intros HN Hy H1 H2 Hdiv.
  assert (~ (N | y - 1)) as Hn1.
  { intros [k Hk]. assert (k = 0 \/ k = -1) as [->| ->] by nia; lia. }
  assert (~ (N | y + 1)) as Hn2.
  { intros [k Hk]. assert (k = 0 \/ k = 1) as [->| ->] by nia; lia. }
  repeat split.
  - intros Hg. apply Hn2. apply Z.gauss with (m := y - 1); [exact Hdiv|].
    rewrite Z.gcd_comm. exact Hg.
  - intros Hg. apply Hn1. rewrite <- Hg. apply Z.gcd_divide_l.
  - intros Hg. apply Hn1. apply Z.gauss with (m := y + 1).
    + rewrite Z.mul_comm. exact Hdiv.
    + rewrite Z.gcd_comm. exact Hg.
  - intros Hg. apply Hn2. rewrite <- Hg. apply Z.gcd_divide_l.
Qed.

(** X13.  A multiple of the order always passes the validation block.  If
    [a^r = 1 mod N] for an even [r] and [a^(r/2) mod N] is neither [1] nor
    [N - 1], the inner test on the two gcds cannot fail: the block returns
    the tuple of [gcd(a^(r/2) - 1, N)], [gcd(a^(r/2) + 1, N)], [a] and [r],
    and both gcds are non-trivial divisors of [N]. *)
Theorem multiple_of_order_passes_validation (N a r : Z) :
  2 <= N -> 0 <= r -> r mod 2 = 0 -> a ^ r mod N = 1 ->
  a ^ (r / 2) mod N <> 1 -> a ^ (r / 2) mod N <> N - 1 ->
  validate_and_factor N a r
  = Ok (Some (VTuple [VInt (Z.gcd (a ^ (r / 2) mod N - 1) N);
                      VInt (Z.gcd (a ^ (r / 2) mod N + 1) N); VInt a; VInt r]))
  /\ nontrivial_divisor N (Z.gcd (a ^ (r / 2) mod N - 1) N)
  /\ nontrivial_divisor N (Z.gcd (a ^ (r / 2) mod N + 1) N).
Proof.
  intros HN Hr Hev Hord Hy1 Hy2.
  pose proof (square_root_of_one N a r HN Hr Hev Hord) as Hdiv.
  pose proof (Z.mod_pos_bound (a ^ (r / 2)) N ltac:(lia)) as Hy.
  destruct (gcd_of_root_nontrivial N _ HN Hy Hy1 Hy2 Hdiv) as [[G1 G1'] [G2 G2']].
  split; [apply validate_and_factor_accept; try assumption; lia|].
  split; apply gcd_nontrivial; try assumption; lia.
Qed.

Lemma multiple_of_order_passes_validation_witness :
  2 <= 21 /\ 0 <= 6 /\ 6 mod 2 = 0 /\ 2 ^ 6 mod 21 = 1
  /\ 2 ^ (6 / 2) mod 21 <> 1 /\ 2 ^ (6 / 2) mod 21 <> 21 - 1
  /\ validate_and_factor 21 2 6
     = Ok (Some (VTuple [VInt (Z.gcd (2 ^ (6 / 2) mod 21 - 1) 21);
                         VInt (Z.gcd (2 ^ (6 / 2) mod 21 + 1) 21); VInt 2; VInt 6]))
  /\ nontrivial_divisor 21 (Z.gcd (2 ^ (6 / 2) mod 21 - 1) 21)
  /\ nontrivial_divisor 21 (Z.gcd (2 ^ (6 / 2) mod 21 + 1) 21).
Proof.
  assert (2 <= 21) as H1 by lia.
  assert (0 <= 6) as H2 by lia.
  assert (6 mod 2 = 0) as H3 by reflexivity.
  assert (2 ^ 6 mod 21 = 1) as H4 by reflexivity.
  assert (2 ^ (6 / 2) mod 21 <> 1) as H5 by discriminate.
  assert (2 ^ (6 / 2) mod 21 <> 21 - 1) as H6 by discriminate.
  split; [exact H1|]. split; [exact H2|]. split; [exact H3|]. split; [exact H4|].
  split; [exact H5|]. split; [exact H6|].
  exact (multiple_of_order_passes_validation 21 2 6 H1 H2 H3 H4 H5 H6).
Defined.

(** ** One trial from draw to factors *)




(** ** Qubits the exponentiation gate never writes *)

Section Untouched.

Variable L : AdderLibrary.

(** Running the body of a sub-circuit gate, one instruction at a time. *)
Lemma sub_circuit_nil (nq : nat) (s : list bool) :
  gate_apply L (SubCircuit nq []) s = Some s.
Proof. reflexivity. Qed.

Lemma sub_circuit_cons (nq : nat) (g : Gate) (qargs : list nat) (rest : list Instruction)
  (s : list bool) :
  gate_apply L (SubCircuit nq ((g, qargs) :: rest)) s
  = match gate_apply L g (gather qargs s) with
    | Some t => gate_apply L (SubCircuit nq rest) (scatter qargs t s)
    | None => None
    end.
Proof. reflexivity. Qed.

Lemma sub_circuit_keeps (w : nat) (keep : nat -> Prop) (nq : nat) (body : list Instruction) :
  Forall (instruction_keeps L w keep) body ->
  forall s, length s = w ->
    exists s', gate_apply L (SubCircuit nq body) s = Some s'
               /\ length s' = w
               /\ forall p, keep p -> nth p s' false = nth p s false.
Proof.
  induction body as [|[g qargs] body IH]; intros Hall s Hlen.
  - exists s. rewrite sub_circuit_nil. auto.
  - apply Forall_cons_iff in Hall as [Hins Hrest].
    destruct (Hins s Hlen) as [t [Et Hkeep]]. cbn [fst snd] in Et, Hkeep.
    rewrite sub_circuit_cons, Et.
    destruct (IH Hrest (scatter qargs t s)) as [s' [E' [Hlen' Hkeep']]].
    { rewrite scatter_length. exact Hlen. }
    exists s'. split; [exact E'|]. split; [exact Hlen'|].
    intros p Hp. rewrite Hkeep' by exact Hp. apply Hkeep. exact Hp.
Qed.

End Untouched.

Lemma append_inv (L : AdderLibrary) (g : Gate) (qargs : list nat) (qc qc' : QuantumCircuit) :
  append L g qargs qc = Ok qc' ->
  qc' = mkCircuit (num_qubits qc) (num_clbits qc) (data qc ++ [(g, qargs)])
  /\ Forall (fun q => (q < num_qubits qc)%nat) qargs.
Proof.
  unfold append. destruct (negb _); [discriminate|].
  destruct (forallb _ qargs) eqn:Hall; cbn [negb]; [|discriminate].
  intros H. injection H as <-. split; [reflexivity|].
  apply Forall_forall. intros q Hq. rewrite forallb_forall in Hall.
  apply Nat.ltb_lt. apply Hall, Hq.
Qed.

(** The circuit of [quantum_modular_addition_clean]: [X] gates on qubits
    from [n_bits] on, then the adder on all the qubits. *)
Lemma quantum_modular_addition_clean_data (L : AdderLibrary) (a N : Z) (n_bits : nat)
  (qc : QuantumCircuit) :
  quantum_modular_addition_clean L a N n_bits = Ok qc ->
  num_qubits qc = adder_num_qubits L n_bits
  /\ exists loads,
       data qc = loads ++ [(AdderGate n_bits, seq 0 (adder_num_qubits L n_bits))]
       /\ Forall (fun ins => exists q, ins = (XGate, [q]) /\ (n_bits <= q)%nat) loads.
Proof.
  unfold quantum_modular_addition_clean, CDKMRippleCarryAdder.
  destruct (n_bits <? 1)%nat; [discriminate|]. cbn [bind].
  destruct (for_enumerate _ 0%nat (rev (format_b a n_bits)) _) as [qc1|e] eqn:E1;
    cbn [bind]; [|discriminate].
  intros Happ. apply append_inv in Happ as [-> _].
  apply (for_enumerate_preserves
           (fun s => num_qubits s = adder_num_qubits L n_bits
                     /\ Forall (fun ins => exists q, ins = (XGate, [q]) /\ (n_bits <= q)%nat)
                          (data s))) in E1.
  - destruct E1 as [Hq Hx]. cbn [num_qubits data]. split; [exact Hq|].
    exists (data qc1). split; [reflexivity|exact Hx].
  - intros i bit s s' Hb [Hq Hx]. destruct (is_char bit "1"%char).
    + unfold x in Hb. apply append_inv in Hb as [-> _]. cbn [num_qubits data].
      split; [exact Hq|]. apply Forall_app. split; [exact Hx|].
      constructor; [|constructor]. exists (i + n_bits)%nat. split; [reflexivity|lia].
    + injection Hb as <-. auto.
  - cbn [num_qubits data]. split; [reflexivity|constructor].
Qed.

Section UntouchedQubits.

Variable L : AdderLibrary.
Hypothesis adder_wide : forall n : nat, (2 * n <= adder_num_qubits L n)%nat.
Hypothesis adder_keeps_low :
  forall (n : nat) (s : list bool) (p : nat),
    length s = adder_num_qubits L n -> (p < n)%nat ->
    nth p (adder_action L n s) false = nth p s false.

Lemma x_keeps (w q : nat) (keep : nat -> Prop) :
  (forall p, keep p -> p <> q) -> instruction_keeps L w keep (XGate, [q]).
Proof.
  intros Hkeep s Hlen. cbn [fst snd]. eexists. split; [reflexivity|].
  intros p Hp. cbn [gather map scatter]. apply nth_set_bit_other. apply Hkeep, Hp.
Qed.

Lemma adder_keeps (n : nat) :
  instruction_keeps L (adder_num_qubits L n) (fun p => (p < n)%nat)
    (AdderGate n, seq 0 (adder_num_qubits L n)).
Proof.
  intros s Hlen. cbn [fst snd].
  replace (gather (seq 0 (adder_num_qubits L n)) s) with s
    by (rewrite <- Hlen; symmetry; apply gather_all).
  eexists. split; [reflexivity|].
  intros p Hp. apply scatter_keeps. intros i v Hq Hv.
  rewrite nth_error_seq in Hq. destruct (i <? adder_num_qubits L n)%nat; [|discriminate].
  injection Hq as <-. cbn [Nat.add].
  rewrite <- (adder_keeps_low n s i Hlen Hp). symmetry. apply nth_error_nth. exact Hv.
Qed.

(** The gate of [quantum_modular_addition_clean] keeps its first [n_bits]
    qubits. *)
Lemma clean_adder_gate_keeps (a N : Z) (n_bits : nat) (mod_add : QuantumCircuit) :
  quantum_modular_addition_clean L a N n_bits = Ok mod_add ->
  forall t, length t = adder_num_qubits L n_bits ->
    exists t', gate_apply L (to_gate mod_add) t = Some t'
               /\ length t' = adder_num_qubits L n_bits
               /\ forall p, (p < n_bits)%nat -> nth p t' false = nth p t false.
Proof.
  intros Hb t Hlen. apply quantum_modular_addition_clean_data in Hb.
  destruct Hb as [Hq [loads [Hdata Hloads]]].
  unfold to_gate. rewrite Hdata.
  apply (sub_circuit_keeps L (adder_num_qubits L n_bits) (fun p => (p < n_bits)%nat));
    [|exact Hlen].
  apply Forall_app. split.
  - eapply Forall_impl; [|exact Hloads]. intros ins [q [-> Hge]].
    apply x_keeps. intros p Hp. lia.
  - constructor; [apply adder_keeps|constructor].
Qed.

(** One step of the exponentiation keeps the counting qubits and the
    first [n_bits] work qubits. *)
Lemma modexp_step_keeps (a N : Z) (n_bits n_count i : nat) (mod_add : QuantumCircuit) :
  quantum_modular_addition_clean L a N n_bits = Ok mod_add ->
  (i < n_count)%nat ->
  instruction_keeps L (n_count + adder_num_qubits L n_bits)
    (fun p => (p < n_count + n_bits)%nat)
    (Controlled 1 (to_gate mod_add), i :: seq n_count (adder_num_qubits L n_bits)).
Proof.
  intros Hb Hi s Hlen. cbn [fst snd].
  set (w := adder_num_qubits L n_bits) in *.
  set (work := gather (seq n_count w) s).
  assert (length work = w) as Hwork by (unfold work; rewrite gather_length; apply length_seq).
  change (gather (i :: seq n_count w) s) with (nth i s false :: work).
  assert (forall j v, nth_error work j = Some v -> v = nth (n_count + j) s false) as Hw.
  { intros j v Hv. unfold work, gather in Hv. rewrite nth_error_map, nth_error_seq in Hv.
    destruct (j <? w)%nat; [|discriminate]. cbn [option_map] in Hv. congruence. }
  cbn [gate_apply firstn skipn forallb andb].
  destruct (nth i s false) eqn:Hc; cbn [andb].
  - destruct (clean_adder_gate_keeps a N n_bits mod_add Hb work Hwork)
      as [t' [Et [Hlen' Hkeep]]].
    rewrite Et. eexists. split; [reflexivity|].
    intros p Hp. apply scatter_keeps. intros [|j] v Hq Hv; cbn [nth_error app] in Hq, Hv.
    + injection Hq as <-. injection Hv as <-. symmetry. exact Hc.
    + rewrite nth_error_seq in Hq. destruct (Nat.ltb_spec j w); [|discriminate].
      injection Hq as <-.
      rewrite <- (nth_error_nth t' j false Hv). rewrite Hkeep by lia.
      apply Hw. apply nth_error_nth'. lia.
  - eexists. split; [reflexivity|].
    intros p Hp. apply scatter_keeps. intros [|j] v Hq Hv; cbn [nth_error] in Hq, Hv.
    + injection Hq as <-. injection Hv as <-. symmetry. exact Hc.
    + rewrite nth_error_seq in Hq. destruct (j <? w)%nat; [|discriminate].
      injection Hq as <-. apply Hw. exact Hv.
Qed.

Lemma modexp_keeps (a N : Z) (n_count n_bits : nat) (s : list bool) :
  2 <= N -> ceil_log2 N = Ok n_bits ->
  length s = (n_count + adder_num_qubits L n_bits)%nat ->
  exists qc s',
    controlled_modular_exponentiation_circuit L a N n_count = Ok qc
    /\ run_circuit L qc s = Some s'
    /\ length s' = length s
    /\ nth n_count s' false = negb (nth n_count s false)
    /\ forall p, (p < n_count + n_bits)%nat -> p <> n_count ->
         nth p s' false = nth p s false.
Proof.
  intros HN En Hlen.
  destruct (controlled_modular_exponentiation_structure L a N n_count adder_wide HN)
    as [n_bits' [qc [En' [Eqc [Hlen_data [Hhd Hsteps]]]]]].
  rewrite En in En'. injection En' as <-.
  destruct (ceil_log2_ok N HN) as [n_bits' [En' [Hn _]]].
  rewrite En in En'. injection En' as <-.
  pose proof (adder_wide n_bits) as Hwide.
  exists qc. unfold run_circuit, to_gate.
  destruct (data qc) as [|first steps] eqn:Hdata; [discriminate|].
  cbn [nth_error] in Hhd. injection Hhd as ->. cbn [length] in Hlen_data.
  rewrite sub_circuit_cons. cbn [gate_apply gather map scatter].
  destruct (sub_circuit_keeps L (n_count + adder_num_qubits L n_bits)
              (fun p => (p < n_count + n_bits)%nat) (num_qubits qc) steps)
    with (s := set_bit n_count (negb (nth n_count s false)) s)
    as [s' [Es [Hlen' Hkeep]]].
  - apply Forall_forall. intros ins Hin.
    apply In_nth_error in Hin as [j Hj].
    assert (j < n_count)%nat as Hjlt.
    { assert (nth_error steps j <> None) as Hnn by congruence.
      apply nth_error_Some in Hnn. lia. }
    destruct (Hsteps j Hjlt) as [mod_add [Em Hnth]].
    cbn [nth_error] in Hnth. rewrite Hj in Hnth. injection Hnth as ->.
    eapply modexp_step_keeps; eassumption.
  - rewrite set_bit_length. exact Hlen.
  - exists s'. split; [exact Eqc|]. split; [exact Es|].
    split; [congruence|]. split.
    + rewrite Hkeep by lia. apply nth_set_bit_same. lia.
    + intros p Hp Hne. rewrite Hkeep by exact Hp. apply nth_set_bit_other. exact Hne.
Qed.

End UntouchedQubits.

Lemma cdkm_keeps_low (n : nat) (s : list bool) (p : nat) :
  length s = adder_num_qubits qiskit_cdkm n -> (p < n)%nat ->
  nth p (adder_action qiskit_cdkm n s) false = nth p s false.
Proof.
  cbn [adder_num_qubits adder_action qiskit_cdkm]. intros Hlen Hp. unfold cdkm_action.
  destruct s as [|b s]; cbn [length] in Hlen; [lia|].
  cbn [firstn skipn app]. destruct p as [|p]; [reflexivity|]. cbn [nth].
  rewrite app_nth1 by (rewrite length_firstn; lia).
  rewrite nth_firstn. destruct (Nat.ltb_spec p n); [reflexivity|lia].
Qed.

(** X15.  The exponentiation gate computes nothing into the first
    [n_bits] work qubits.  On every basis state, for every base [a],
    modulus [N] with [2 <= N <= 2^48], where [ceil(log2(N))] is computed
    without rounding error, and number of counting qubits, the circuit of
    [controlled_modular_exponentiation] acts, leaves the counting qubits
    as they were, flips the first work qubit once, and leaves the next
    [n_bits - 1] work qubits as they were: its additions load their
    constants on the qubits from [n_bits] on and the library's adder
    writes its sum there too.  Started with these work qubits at zero,
    they end holding [1] whatever the counting register holds. *)
Theorem exponentiation_keeps_low_work_qubits (a N : Z) (n_count n_bits : nat)
  (s : list bool) :
  2 <= N <= 2 ^ 48 -> ceil_log2 N = Ok n_bits ->
  length s = (n_count + adder_num_qubits qiskit_cdkm n_bits)%nat ->
  exists qc s',
    controlled_modular_exponentiation_circuit qiskit_cdkm a N n_count = Ok qc
    /\ run_circuit qiskit_cdkm qc s = Some s'
    /\ length s' = length s
    /\ (forall p, (p < n_count)%nat -> nth p s' false = nth p s false)
    /\ nth n_count s' false = negb (nth n_count s false)
    /\ (forall p, (n_count < p < n_count + n_bits)%nat -> nth p s' false = nth p s false)
    /\ (reg_value (mkReg n_count n_bits) s = 0 -> reg_value (mkReg n_count n_bits) s' = 1).
Proof.
  intros [HN Hbound] En Hlen.
  destruct (modexp_keeps qiskit_cdkm qiskit_cdkm_wide cdkm_keeps_low a N n_count n_bits s
              HN En Hlen) as [qc [s' [Eqc [Erun [Hlen' [Hflip Hkeep]]]]]].
  destruct (ceil_log2_ok N HN) as [n_bits' [En' [Hn _]]].
  rewrite En in En'. injection En' as <-.
  exists qc, s'. split; [exact Eqc|]. split; [exact Erun|]. split; [exact Hlen'|].
  split; [intros p Hp; apply Hkeep; lia|]. split; [exact Hflip|].
  split; [intros p Hp; apply Hkeep; lia|].
  unfold reg_value, reg_all, gather. cbn [reg_offset reg_size].
  destruct n_bits as [|k]; [lia|]. cbn [seq map value_of].
  intros Hzero. pose proof (value_of_nonneg
                              (map (fun q => nth q s false) (seq (S n_count) k))) as Hnn.
  assert (nth n_count s false = false) as H0 by (destruct (nth n_count s false);
                                                  cbn [Z.b2z] in Hzero; [lia|reflexivity]).
  rewrite H0 in Hzero. cbn [Z.b2z] in Hzero.
  assert (value_of (map (fun q => nth q s false) (seq (S n_count) k)) = 0) as Hrest by lia.
  rewrite Hflip, H0. cbn [negb Z.b2z].
  assert (map (fun q => nth q s' false) (seq (S n_count) k)
          = map (fun q => nth q s false) (seq (S n_count) k)) as ->.
  { apply map_ext_in. intros q Hq. apply in_seq in Hq. apply Hkeep; lia. }
  rewrite Hrest. reflexivity.
Qed.

Lemma exponentiation_keeps_low_work_qubits_witness :
  2 <= 15 <= 2 ^ 48 /\ ceil_log2 15 = Ok 4%nat
  /\ length (bits_of 4 5 ++ repeat false 10) = (4 + adder_num_qubits qiskit_cdkm 4)%nat
  /\ exists qc s',
       controlled_modular_exponentiation_circuit qiskit_cdkm 7 15 4 = Ok qc
       /\ run_circuit qiskit_cdkm qc (bits_of 4 5 ++ repeat false 10) = Some s'
       /\ length s' = length (bits_of 4 5 ++ repeat false 10)
       /\ (forall p, (p < 4)%nat ->
             nth p s' false = nth p (bits_of 4 5 ++ repeat false 10) false)
       /\ nth 4 s' false = negb (nth 4 (bits_of 4 5 ++ repeat false 10) false)
       /\ (forall p, (4 < p < 4 + 4)%nat ->
             nth p s' false = nth p (bits_of 4 5 ++ repeat false 10) false)
       /\ (reg_value (mkReg 4 4) (bits_of 4 5 ++ repeat false 10) = 0 ->
           reg_value (mkReg 4 4) s' = 1).
Proof.
  assert (2 <= 15 <= 2 ^ 48) as H1 by lia.
  assert (ceil_log2 15 = Ok 4%nat) as H2 by reflexivity.
  assert (length (bits_of 4 5 ++ repeat false 10)
          = (4 + adder_num_qubits qiskit_cdkm 4)%nat) as H3 by reflexivity.
  split; [exact H1|]. split; [exact H2|]. split; [exact H3|].
  exact (exponentiation_keeps_low_work_qubits 7 15 4 4 (bits_of 4 5 ++ repeat false 10)
           H1 H2 H3).
Defined.

(** ** [add_const_mod_N] *)

Lemma append_raises_circuit_error (L : AdderLibrary) (g : Gate) (qargs : list nat)
  (qc : QuantumCircuit) (e : Exn) :
  append L g qargs qc = Raise e -> e = CircuitError.
Proof.
  unfold append. destruct (negb _); [congruence|]. destruct (negb _); congruence.
Qed.

Lemma for_enumerate_raises {A St : Type} (body : nat -> A -> St -> result St) (e0 : Exn)
  (l : list A) :
  (forall i x s e, body i x s = Raise e -> e = e0) ->
  forall i s e, for_enumerate body i l s = Raise e -> e = e0.
Proof.
  intros Hbody. induction l as [|x0 l IH]; intros i s e; cbn [for_enumerate].
  - discriminate.
  - destruct (body i x0 s) as [s1|e1] eqn:E; cbn [bind].
    + apply IH.
    + intros H. injection H as <-. eapply Hbody, E.
Qed.

(** X16.  [add_const_mod_N] returns no circuit when the adder does not
    span exactly [2*n_bits] qubits, as is the case of the library's adder
    on [2*n_bits + 2]: a width of zero is refused by the adder with
    [ValueError], and otherwise loading the constant or appending the
    adder on the [2*n_bits] qubits of the circuit raises
    [CircuitError]. *)
Theorem add_const_mod_N_never_builds (L : AdderLibrary) (a N : Z) (n_bits : nat) :
  adder_num_qubits L n_bits <> (2 * n_bits)%nat ->
  (n_bits = 0%nat -> add_const_mod_N L a N n_bits = Raise ValueError)
  /\ ((1 <= n_bits)%nat -> add_const_mod_N L a N n_bits = Raise CircuitError).
Proof.
  intros Hwidth. unfold add_const_mod_N, CDKMRippleCarryAdder. split.
  - intros ->. reflexivity.
  - intros Hn. destruct (Nat.ltb_spec n_bits 1); [lia|]. cbn [bind].
    destruct (for_enumerate _ 0%nat (rev (format_b a n_bits)) _) as [qc|e] eqn:E; cbn [bind].
    + unfold append.
      assert ((length (seq 0 (2 * n_bits))
               =? gate_num_qubits L (Controlled 0 (AdderGate n_bits)))%nat = false) as ->.
      { apply Nat.eqb_neq. rewrite length_seq. cbn [gate_num_qubits Nat.add]. lia. }
      reflexivity.
    + f_equal. eapply for_enumerate_raises; [|exact E].
      intros i bit s e' Hb. cbn beta in Hb.
      destruct (is_char bit "1"%char); [|discriminate].
      eapply append_raises_circuit_error. exact Hb.
Qed.

Lemma add_const_mod_N_never_builds_witness :
  adder_num_qubits qiskit_cdkm 3 <> (2 * 3)%nat
  /\ (3%nat = 0%nat -> add_const_mod_N qiskit_cdkm 4 5 3 = Raise ValueError)
  /\ ((1 <= 3)%nat -> add_const_mod_N qiskit_cdkm 4 5 3 = Raise CircuitError).
Proof.
  assert (adder_num_qubits qiskit_cdkm 3 <> (2 * 3)%nat) as H by discriminate.
  split; [exact H|exact (add_const_mod_N_never_builds qiskit_cdkm 4 5 3 H)].
Defined.

